(** * gocache: an in-memory cache with FIFO, LRU and LFU eviction

    A shallow embedding of the cache core (eviction.go, frequency.go,
    gocache.go and the Set, Get and Delete families) and the properties of
    its recency chain, frequency index, bounds and statistics.

    Pointers.  [*Entry] and [*list.Element] values are addresses
    ([positive]); the entries live in a store [heap] that is a total function
    of the address, as a Go pointer that is not nil always designates an
    object.  Allocation hands out the next unused address and nothing is ever
    freed: an entry no longer in the map stays readable through every pointer
    that still designates it, as under Go's garbage collector.

    Integers.  [uint64] statistics and the [int] memory counter wrap as in Go
    ([wrap_uint64], [wrap_int]).  Access counts ([Freq]) and [len] are left
    unbounded: a count reaches 2^63 only after as many accesses of one entry.

    Time.  Instants and durations are nanoseconds in [Z]; every public
    operation receives the reading [now] of the wall clock for its call. *)

From Stdlib Require Import ZArith Lia Ascii String.
From stdpp Require Import strings functions fin_maps gmap list.

Open Scope Z_scope.

(** ** Machine integers *)

Definition wrap_uint64 (z : Z) : Z := z mod 2 ^ 64.
Definition wrap_int (z : Z) : Z := (z + 2 ^ 63) mod 2 ^ 64 - 2 ^ 63.
Definition min_int : Z := - 2 ^ 63.
Definition max_int : Z := 2 ^ 63 - 1.
Definition in_int (z : Z) : Prop := min_int <= z <= max_int.

(** [time.Time.Sub] saturates at the bounds of [time.Duration]. *)
Definition saturate_int (z : Z) : Z :=
  if z <? min_int then min_int else if max_int <? z then max_int else z.

(** ** Constants of gocache.go *)

Definition NoMaxSize : Z := 0.
Definition NoMaxMemoryUsage : Z := 0.
Definition DefaultMaxSize : Z := 100000.
Definition NoExpiration : Z := -1.

(** ** Outcomes

    A call ends normally, ends in a run-time panic (a nil pointer is
    dereferenced), or is still running when the fuel given to its loop is
    used up. *)

Inductive Outcome (A : Type) : Type :=
  | Done (a : A)
  | Panic
  | OutOfFuel.
Arguments Done {A} a.
Arguments Panic {A}.
Arguments OutOfFuel {A}.

#[global] Instance Outcome_ret : MRet Outcome := fun _ a => Done a.
#[global] Instance Outcome_bind : MBind Outcome := fun _ _ k m =>
  match m with
  | Done a => k a
  | Panic => Panic
  | OutOfFuel => OutOfFuel
  end.

Definition completes {A} (o : Outcome A) : Prop := exists a, o = Done a.

(** ** Data model *)

(** Modelled from the spec: the eviction policy type, declared outside the
    given sources; "policy ∈ {FIFO, LRU, LFU}". *)
Inductive EvictionPolicy : Type :=
  | FirstInFirstOut
  | LeastRecentlyUsed
  | LeastFrequentUsed.

#[global] Instance EvictionPolicy_eq_dec : EqDecision EvictionPolicy.
Proof. solve_decision. Defined.

(** Modelled from the spec: the statistics record, declared outside the given
    sources; four [uint64] counters, copied field by field in [Stats]. *)
Record Statistics : Type := mkStatistics {
  EvictedKeys : Z;
  ExpiredKeys : Z;
  Hits : Z;
  Misses : Z
}.

Abbreviation eptr := positive (only parsing).   (* *Entry *)
Abbreviation lptr := positive (only parsing).   (* *list.Element *)

(** Modelled from the spec: the entry record, declared outside the given
    sources; its fields are those the sources read and write. *)
Record Entry (V : Type) : Type := mkEntry {
  Key : string;
  Value : V;
  RelevantTimestamp : Z;
  Expiration : Z;
  next : option eptr;
  previous : option eptr;
  frequencyParent : option lptr
}.
Arguments mkEntry {V}.
Arguments Key {V}.
Arguments Value {V}.
Arguments RelevantTimestamp {V}.
Arguments Expiration {V}.
Arguments next {V}.
Arguments previous {V}.
Arguments frequencyParent {V}.

(** frequency.go: [FrequencyItem]. *)
Record FrequencyItem : Type := mkFrequencyItem {
  Entries : gset eptr;
  Freq : Z
}.

(** The frequency index [c.freqs] is a [container/list]: the elements in
    order, each with its address and the item it carries.  An element that
    was removed from the list is no longer in the sequence. *)
Abbreviation FreqList := (list (lptr * FrequencyItem)) (only parsing).

(** gocache.go: [Cache].  The mutex and the janitor channel are not part of
    the record; locking is modelled by the events of [Op] below.  [heap],
    [nextEntry] and [nextElement] are the store and its allocation points. *)
Record Cache (V : Type) : Type := mkCache {
  maxSize : Z;
  maxMemoryUsage : Z;
  evictionPolicy : EvictionPolicy;
  stats : Statistics;
  entries : gmap string eptr;
  head : option eptr;
  tail : option eptr;
  freqs : FreqList;
  memoryUsage : Z;
  forceNilInterfaceOnNilPointer : bool;
  heap : eptr -> Entry V;
  nextEntry : eptr;
  nextElement : lptr
}.
Arguments mkCache {V}.
Arguments maxSize {V}.
Arguments maxMemoryUsage {V}.
Arguments evictionPolicy {V}.
Arguments stats {V}.
Arguments entries {V}.
Arguments head {V}.
Arguments tail {V}.
Arguments freqs {V}.
Arguments memoryUsage {V}.
Arguments forceNilInterfaceOnNilPointer {V}.
Arguments heap {V}.
Arguments nextEntry {V}.
Arguments nextElement {V}.

(** What the cache needs to know of the payload type [interface{}]. *)
Class Payload (V : Type) : Type := {
  (** the nil interface value *)
  vnil : V;
  (** [value != nil && Kind() == reflect.Ptr && IsNil()] *)
  is_typed_nil_ptr : V -> bool;
  (** [Entry.SizeInBytes], a function of the key and the value; the size
      estimator is outside the given sources and is left abstract. *)
  size_in_bytes : string -> V -> Z
}.

(** Go leaves the order of [range] over a map unspecified: the order is a
    parameter, any enumeration of the keys. *)
Class RangeOrder : Type := {
  range_map : forall {A : Type}, gmap string A -> list (string * A);
  range_map_perm : forall {A : Type} (m : gmap string A),
    range_map m ≡ₚ map_to_list m;
  range_set : gset eptr -> list eptr;
  range_set_perm : forall s, range_set s ≡ₚ elements s
}.

(** [MatchPattern] is outside the given sources; the claims proved here do
    not depend on what it answers. *)
Class PatternMatcher : Type := MatchPattern : string -> string -> bool.

(** gocache.go: the errors. *)
Inductive Error : Type :=
  | ErrKeyDoesNotExist
  | ErrKeyHasNoExpiration
  | ErrJanitorAlreadyRunning.

(** What a call does to the mutex and to the state the mutex guards, in
    program order. *)
Inductive Event : Type :=
  | EvLock
  | EvUnlock
  | EvRLock
  | EvRUnlock
  | EvRead
  | EvWrite.

#[global] Instance Event_eq_dec : EqDecision Event.
Proof. solve_decision. Defined.

Section Model.
Context {V : Type} `{Payload V} `{RangeOrder} `{PatternMatcher}.

#[local] Abbreviation Cache := (Cache V).
#[local] Abbreviation Entry := (Entry V).

(** *** Field updates *)

Definition set_next (x : option eptr) (e : Entry) : Entry :=
  mkEntry (Key e) (Value e) (RelevantTimestamp e) (Expiration e) x (previous e)
    (frequencyParent e).
Definition set_previous (x : option eptr) (e : Entry) : Entry :=
  mkEntry (Key e) (Value e) (RelevantTimestamp e) (Expiration e) (next e) x
    (frequencyParent e).
Definition set_frequencyParent (x : option lptr) (e : Entry) : Entry :=
  mkEntry (Key e) (Value e) (RelevantTimestamp e) (Expiration e) (next e)
    (previous e) x.
Definition set_Value (x : V) (e : Entry) : Entry :=
  mkEntry (Key e) x (RelevantTimestamp e) (Expiration e) (next e) (previous e)
    (frequencyParent e).
Definition set_RelevantTimestamp (x : Z) (e : Entry) : Entry :=
  mkEntry (Key e) (Value e) x (Expiration e) (next e) (previous e)
    (frequencyParent e).
Definition set_Expiration (x : Z) (e : Entry) : Entry :=
  mkEntry (Key e) (Value e) (RelevantTimestamp e) x (next e) (previous e)
    (frequencyParent e).

Definition set_stats (x : Statistics) (c : Cache) : Cache :=
  mkCache (maxSize c) (maxMemoryUsage c) (evictionPolicy c) x (entries c)
    (head c) (tail c) (freqs c) (memoryUsage c)
    (forceNilInterfaceOnNilPointer c) (heap c) (nextEntry c) (nextElement c).
Definition set_entries (x : gmap string eptr) (c : Cache) : Cache :=
  mkCache (maxSize c) (maxMemoryUsage c) (evictionPolicy c) (stats c) x
    (head c) (tail c) (freqs c) (memoryUsage c)
    (forceNilInterfaceOnNilPointer c) (heap c) (nextEntry c) (nextElement c).
Definition set_head (x : option eptr) (c : Cache) : Cache :=
  mkCache (maxSize c) (maxMemoryUsage c) (evictionPolicy c) (stats c)
    (entries c) x (tail c) (freqs c) (memoryUsage c)
    (forceNilInterfaceOnNilPointer c) (heap c) (nextEntry c) (nextElement c).
Definition set_tail (x : option eptr) (c : Cache) : Cache :=
  mkCache (maxSize c) (maxMemoryUsage c) (evictionPolicy c) (stats c)
    (entries c) (head c) x (freqs c) (memoryUsage c)
    (forceNilInterfaceOnNilPointer c) (heap c) (nextEntry c) (nextElement c).
Definition set_freqs (x : FreqList) (c : Cache) : Cache :=
  mkCache (maxSize c) (maxMemoryUsage c) (evictionPolicy c) (stats c)
    (entries c) (head c) (tail c) x (memoryUsage c)
    (forceNilInterfaceOnNilPointer c) (heap c) (nextEntry c) (nextElement c).
Definition set_memoryUsage (x : Z) (c : Cache) : Cache :=
  mkCache (maxSize c) (maxMemoryUsage c) (evictionPolicy c) (stats c)
    (entries c) (head c) (tail c) (freqs c) x
    (forceNilInterfaceOnNilPointer c) (heap c) (nextEntry c) (nextElement c).
Definition set_heap (x : eptr -> Entry) (c : Cache) : Cache :=
  mkCache (maxSize c) (maxMemoryUsage c) (evictionPolicy c) (stats c)
    (entries c) (head c) (tail c) (freqs c) (memoryUsage c)
    (forceNilInterfaceOnNilPointer c) x (nextEntry c) (nextElement c).
Definition set_nextEntry (x : eptr) (c : Cache) : Cache :=
  mkCache (maxSize c) (maxMemoryUsage c) (evictionPolicy c) (stats c)
    (entries c) (head c) (tail c) (freqs c) (memoryUsage c)
    (forceNilInterfaceOnNilPointer c) (heap c) x (nextElement c).
Definition set_nextElement (x : lptr) (c : Cache) : Cache :=
  mkCache (maxSize c) (maxMemoryUsage c) (evictionPolicy c) (stats c)
    (entries c) (head c) (tail c) (freqs c) (memoryUsage c)
    (forceNilInterfaceOnNilPointer c) (heap c) (nextEntry c) x.

(** [*p = f( *p )]: one write to the entry at address [p]. *)
Definition update (p : eptr) (f : Entry -> Entry) (c : Cache) : Cache :=
  set_heap (<[p := f (heap c p)]> (heap c)) c.

Definition count_evicted (c : Cache) : Cache :=
  set_stats (mkStatistics (wrap_uint64 (EvictedKeys (stats c) + 1))
               (ExpiredKeys (stats c)) (Hits (stats c)) (Misses (stats c))) c.
Definition count_expired (c : Cache) : Cache :=
  set_stats (mkStatistics (EvictedKeys (stats c))
               (wrap_uint64 (ExpiredKeys (stats c) + 1)) (Hits (stats c))
               (Misses (stats c))) c.
Definition count_hits (n : Z) (c : Cache) : Cache :=
  set_stats (mkStatistics (EvictedKeys (stats c)) (ExpiredKeys (stats c))
               (wrap_uint64 (Hits (stats c) + n)) (Misses (stats c))) c.
Definition count_miss (c : Cache) : Cache :=
  set_stats (mkStatistics (EvictedKeys (stats c)) (ExpiredKeys (stats c))
               (Hits (stats c)) (wrap_uint64 (Misses (stats c) + 1))) c.

(** [len(c.entries)] *)
Definition len_entries (c : Cache) : Z := Z.of_nat (size (entries c)).

(** *** Entry methods (declared outside the given sources) *)

Definition SizeInBytes (e : Entry) : Z := size_in_bytes (Key e) (Value e).

(** Modelled from the spec: [Entry.Expired] is outside the given sources.
    "expiration (absolute nanosecond instant, or the sentinel never)";
    "if expiration ≠ never, then reading the entry after that instant must
    behave as if absent". *)
Definition Expired (now : Z) (e : Entry) : bool :=
  negb (Expiration e =? NoExpiration) && (Expiration e <? now).

(** Modelled from the spec: [Entry.Accessed] is outside the given sources.
    It records the access instant ("relevant_timestamp"; GetAll "does not
    update the last access timestamp", unlike Get). *)
Definition Accessed (now : Z) (e : Entry) : Entry := set_RelevantTimestamp now e.

(** *** Recency chain (eviction.go) *)

(** [removeExistingEntryReferences]: unlink [entry] and repair its
    neighbours, the head and the tail.  Every field is read from the store at
    the moment the source reads it. *)
Definition removeExistingEntryReferences (entry : eptr) (c : Cache) : Cache :=
  let c :=
    if bool_decide (tail c = Some entry) && bool_decide (head c = Some entry)
    then set_head None (set_tail None c)
    else if bool_decide (tail c = Some entry)
    then set_tail (previous (heap c entry)) c
    else if bool_decide (head c = Some entry)
    then set_head (next (heap c entry)) c
    else c in
  let c :=
    match previous (heap c entry) with
    | Some p => update p (set_next (next (heap c entry))) c
    | None => c
    end in
  let c :=
    match next (heap c entry) with
    | Some n => update n (set_previous (previous (heap c entry))) c
    | None => c
    end in
  update entry (fun e => set_previous None (set_next None e)) c.

(** [moveExistingEntryToHead] *)
Definition moveExistingEntryToHead (entry : eptr) (c : Cache) : Cache :=
  let c :=
    if negb (bool_decide (head c = Some entry) && bool_decide (tail c = Some entry))
    then removeExistingEntryReferences entry c
    else c in
  if bool_decide (head c = Some entry) then c
  else
    let c := update entry (fun e => set_previous None (set_next (head c) e)) c in
    let c :=
      match head c with
      | Some h => update h (set_previous (Some entry)) c
      | None => c
      end in
    set_head (Some entry) c.

(** *** Frequency index (frequency.go, over container/list) *)

(** The position and the item of the element at address [l], if it is in
    the list. *)
Fixpoint find_element (l : lptr) (fs : FreqList) : option (nat * FrequencyItem) :=
  match fs with
  | [] => None
  | (l', it) :: fs' =>
      if bool_decide (l' = l) then Some (O, it)
      else match find_element l fs' with
           | Some (i, it') => Some (S i, it')
           | None => None
           end
  end.

(** [List.Front] *)
Definition Front (fs : FreqList) : option (lptr * FrequencyItem) := fs !! O.

(** [List.Remove]: nothing happens when the element is not in the list. *)
Definition remove_element (l : lptr) (fs : FreqList) : FreqList :=
  filter (fun x => x.1 <> l) fs.

(** Edit in place the entry set of the item carried by the element at
    address [l]. *)
Definition edit_entries (l : lptr) (f : gset eptr -> gset eptr) (fs : FreqList)
    : FreqList :=
  (fun x => if bool_decide (x.1 = l)
            then (x.1, mkFrequencyItem (f (Entries x.2)) (Freq x.2))
            else x) <$> fs.

(** The body of [removeEntryFromFrequencyList] for an element [l] that is
    not nil.  For an element already removed from the list, the entry set
    that is edited is unreachable afterwards and [Remove] does nothing. *)
Definition remove_from_element (l : lptr) (item : eptr) (c : Cache) : Cache :=
  match find_element l (freqs c) with
  | None => c
  | Some (_, frequencyItem) =>
      let es := Entries frequencyItem ∖ {[item]} in
      if bool_decide (size es = O)
      then set_freqs (remove_element l (freqs c)) c
      else set_freqs (edit_entries l (fun s => s ∖ {[item]}) (freqs c)) c
  end.

(** [removeEntryFromFrequencyList]: [listItem.Value] of a nil [listItem]
    panics. *)
Definition removeEntryFromFrequencyList (listItem : option lptr) (item : eptr)
    (c : Cache) : Outcome Cache :=
  match listItem with
  | None => Panic
  | Some l => Done (remove_from_element l item c)
  end.

(** Insert [x] after position [i]. *)
Definition insert_after (i : nat) (x : lptr * FrequencyItem) (fs : FreqList)
    : FreqList :=
  take (S i) fs ++ x :: drop (S i) fs.

(** [PushFront] (no position) or [InsertAfter] the element at [position] of
    a new item with an empty entry set. *)
Definition new_element (nextFrequencyAmount : Z) (position : option nat)
    (c : Cache) : lptr * Cache :=
  let newFrequencyItem := mkFrequencyItem ∅ nextFrequencyAmount in
  let l := nextElement c in
  let fs :=
    match position with
    | None => (l, newFrequencyItem) :: freqs c
    | Some i => insert_after i (l, newFrequencyItem) (freqs c)
    end in
  (l, set_nextElement (Pos.succ l) (set_freqs fs c)).

(** [incrementEntryFrequency].  When [entry.frequencyParent] designates an
    element that was removed from the list, [Next] is nil, [InsertAfter]
    returns nil and [nextFrequency.Value] panics. *)
Definition incrementEntryFrequency (entry : eptr) (c : Cache) : Outcome Cache :=
  let currentFrequency := frequencyParent (heap c entry) in
  (* the amount to reach, the candidate element, and where a new one goes *)
  '(nextFrequencyAmount, candidate, position) ←
    match currentFrequency with
    | None => Done (1, Front (freqs c), None)
    | Some l =>
        match find_element l (freqs c) with
        | None => Panic
        | Some (i, it) => Done (Freq it + 1, freqs c !! S i, Some i)
        end
    end;
  let '(nextFrequency, c) :=
    match candidate with
    | Some (l', it') =>
        if bool_decide (Freq it' = nextFrequencyAmount) then (l', c)
        else new_element nextFrequencyAmount position c
    | None => new_element nextFrequencyAmount position c
    end in
  let c := update entry (set_frequencyParent (Some nextFrequency)) c in
  let c :=
    set_freqs (edit_entries nextFrequency (fun s => {[entry]} ∪ s) (freqs c)) c in
  match currentFrequency with
  | Some l => removeEntryFromFrequencyList (Some l) entry c
  | None => Done c
  end.

(** *** Eviction (eviction.go) *)

(** [if c.maxMemoryUsage != NoMaxMemoryUsage { c.memoryUsage -= e.SizeInBytes() }] *)
Definition release_memory (e : Entry) (c : Cache) : Cache :=
  if bool_decide (maxMemoryUsage c <> NoMaxMemoryUsage)
  then set_memoryUsage (wrap_int (memoryUsage c - SizeInBytes e)) c
  else c.

(** [if c.maxMemoryUsage != NoMaxMemoryUsage { c.memoryUsage += e.SizeInBytes() }] *)
Definition charge_memory (e : Entry) (c : Cache) : Cache :=
  if bool_decide (maxMemoryUsage c <> NoMaxMemoryUsage)
  then set_memoryUsage (wrap_int (memoryUsage c + SizeInBytes e)) c
  else c.

(** The body of the [range] loop of [evict] under LFU, for one entry of the
    front element [item]. *)
Definition evict_entry (item : lptr) (entry : eptr) (c : Cache) : Cache :=
  let oldEntry := entry in
  let c := removeExistingEntryReferences oldEntry c in
  let c := set_entries (delete (Key (heap c oldEntry)) (entries c)) c in
  let c := remove_from_element item entry c in
  let c := count_evicted c in
  release_memory (heap c oldEntry) c.

(** [evict] *)
Definition evict (c : Cache) : Cache :=
  if bool_decide (tail c = None) || bool_decide (len_entries c = 0) then c
  else if bool_decide (evictionPolicy c = LeastFrequentUsed) then
    match Front (freqs c) with
    | Some (item, it) =>
        foldl (fun c entry => evict_entry item entry c) c (range_set (Entries it))
    | None => c
    end
  else
    match tail c with
    | Some oldTail =>
        let c := removeExistingEntryReferences oldTail c in
        let c := set_entries (delete (Key (heap c oldTail)) (entries c)) c in
        let c := release_memory (heap c oldTail) c in
        count_evicted c
    | None => c
    end.

(** *** Lookup and removal *)

(** [get] *)
Definition get (c : Cache) (key : string) : option eptr := entries c !! key.

(** [(c *Cache) delete]; the name [delete] is the map operation here. *)
Definition delete_entry (key : string) (c : Cache) : Outcome (bool * Cache) :=
  match entries c !! key with
  | Some entry =>
      let c := release_memory (heap c entry) c in
      c ← (if bool_decide (evictionPolicy c = LeastFrequentUsed)
           then removeEntryFromFrequencyList (frequencyParent (heap c entry)) entry c
           else Done c);
      let c := removeExistingEntryReferences entry c in
      Done (true, set_entries (delete key (entries c)) c)
  | None => Done (false, c)
  end.

(** *** Critical sections of the Set and Get families *)

(** The loop [for c.memoryUsage > c.maxMemoryUsage && len(c.entries) > 0]
    of [SetWithTTL]. *)
Fixpoint evict_loop (fuel : nat) (c : Cache) : Outcome Cache :=
  if (maxMemoryUsage c <? memoryUsage c) && (0 <? len_entries c) then
    match fuel with
    | O => OutOfFuel
    | S fuel' => evict_loop fuel' (evict c)
    end
  else Done c.

Definition expiration_for (ttl now : Z) : Z :=
  if bool_decide (ttl <> NoExpiration) then wrap_int (now + ttl) else NoExpiration.

(** [SetWithTTL] from the expiration assignment to the end: bounds and
    the LFU access. *)
Definition SetWithTTL_bounds (fuel : nat) (entry : eptr) (ttl now : Z)
    (c : Cache) : Outcome Cache :=
  let c := update entry (set_Expiration (expiration_for ttl now)) c in
  if bool_decide (maxSize c = NoMaxSize)
     && bool_decide (maxMemoryUsage c = NoMaxMemoryUsage)
  then Done c
  else
    let c :=
      if bool_decide (maxSize c <> NoMaxSize) && (maxSize c <? len_entries c)
      then evict c else c in
    c ← (if bool_decide (maxMemoryUsage c <> NoMaxMemoryUsage)
            && (maxMemoryUsage c <? memoryUsage c)
         then evict_loop fuel c else Done c);
    if bool_decide (evictionPolicy c = LeastFrequentUsed)
    then incrementEntryFrequency entry c
    else Done c.

(** [SetWithTTL], the branch of a key that is not in the map: a new entry is
    allocated, linked at the head, mapped and charged. *)
Definition create_entry (key : string) (value : V) (now : Z) (c : Cache)
    : eptr * Cache :=
  let entry := nextEntry c in
  let c := set_nextEntry (Pos.succ entry) c in
  let c := set_heap
             (<[entry := mkEntry key value now 0 (head c) None None]> (heap c))
             c in
  let c :=
    match head c with
    | None => set_tail (Some entry) c
    | Some h => update h (set_previous (Some entry)) c
    end in
  let c := set_head (Some entry) c in
  let c := set_entries (<[key := entry]> (entries c)) c in
  (entry, charge_memory (heap c entry) c).

(** [SetWithTTL] between [Lock] and [Unlock]; [value] has been normalised. *)
Definition SetWithTTL_locked (fuel : nat) (key : string) (value : V)
    (ttl now : Z) (c : Cache) : Outcome (unit * Cache) :=
  let instant := bool_decide (ttl <> NoExpiration) && (ttl <? 1) in
  match get c key with
  | None =>
      if instant then Done (tt, c)
      else
        let '(entry, c) := create_entry key value now c in
        c ← SetWithTTL_bounds fuel entry ttl now c;
        Done (tt, c)
  | Some entry =>
      if instant then
        '(_, c) ← delete_entry key c;
        Done (tt, c)
      else
        let c := release_memory (heap c entry) c in
        let c := update entry (set_Value value) c in
        let c := update entry (set_RelevantTimestamp now) c in
        let c := charge_memory (heap c entry) c in
        let c := moveExistingEntryToHead entry c in
        c ← SetWithTTL_bounds fuel entry ttl now c;
        Done (tt, c)
  end.

(** [Get] between [Lock] and [Unlock]: the entry that was hit, if any.  The
    source reads [entry.Value] in its [return], after [Unlock]. *)
Definition Get_locked (key : string) (now : Z) (c : Cache)
    : Outcome (option eptr * Cache) :=
  match get c key with
  | None => Done (None, count_miss c)
  | Some entry =>
      if Expired now (heap c entry) then
        let c := count_expired c in
        '(_, c) ← delete_entry key c;
        Done (None, c)
      else
        let c := count_hits 1 c in
        let moved :=
          if bool_decide (evictionPolicy c = LeastRecentlyUsed) then
            let c := update entry (Accessed now) c in
            if bool_decide (head c = Some entry) then inl c
            else inr (moveExistingEntryToHead entry c)
          else inr c in
        match moved with
        | inl c => Done (Some entry, c)
        | inr c =>
            c ← (if bool_decide (evictionPolicy c = LeastFrequentUsed)
                 then incrementEntryFrequency entry c
                 else Done c);
            Done (Some entry, c)
        end
  end.

(** The [range] loop of [GetAll]: expired entries are deleted, the others
    collected. *)
Fixpoint GetAll_loop (now : Z) (kes : list (string * eptr))
    (found : gmap string V) (c : Cache) : Outcome (gmap string V * Cache) :=
  match kes with
  | [] => Done (found, c)
  | (key, entry) :: kes' =>
      if Expired now (heap c entry) then
        '(_, c) ← delete_entry key c;
        GetAll_loop now kes' found c
      else GetAll_loop now kes' (<[key := Value (heap c entry)]> found) c
  end.

(** [GetAll] between [Lock] and [Unlock]. *)
Definition GetAll_locked (now : Z) (c : Cache)
    : Outcome (gmap string V * Cache) :=
  '(found, c) ← GetAll_loop now (range_map (entries c)) ∅ c;
  Done (found, count_hits (Z.of_nat (size found)) c).

(** The loop of [DeleteAll]. *)
Fixpoint DeleteAll_loop (keys : list string) (numberOfKeysDeleted : Z)
    (c : Cache) : Outcome (Z * Cache) :=
  match keys with
  | [] => Done (numberOfKeysDeleted, c)
  | key :: keys' =>
      '(ok, c) ← delete_entry key c;
      DeleteAll_loop keys'
        (if ok : bool then numberOfKeysDeleted + 1 else numberOfKeysDeleted) c
  end.

(** [Clear] between [Lock] and [Unlock]. *)
Definition Clear_locked (c : Cache) : Cache :=
  set_tail None (set_head None (set_memoryUsage 0 (set_entries ∅ c))).

(** The [range] loop of [GetKeysByPattern]. *)
Fixpoint GetKeysByPattern_loop (pattern : string) (limit now : Z)
    (kes : list (string * eptr)) (matchingKeys : list string) (c : Cache)
    : list string :=
  match kes with
  | [] => matchingKeys
  | (key, value) :: kes' =>
      if Expired now (heap c value)
      then GetKeysByPattern_loop pattern limit now kes' matchingKeys c
      else if MatchPattern pattern key then
        let matchingKeys := matchingKeys ++ [key] in
        if (0 <? limit) && (limit <=? Z.of_nat (List.length matchingKeys))
        then matchingKeys
        else GetKeysByPattern_loop pattern limit now kes' matchingKeys c
      else GetKeysByPattern_loop pattern limit now kes' matchingKeys c
  end.

(** *** Public operations

    A public operation is a program over the cache that also records what it
    does to the mutex: [Lock], [Unlock], [RLock], [RUnlock] where the source
    calls them, and one [EvRead] or [EvWrite] for each stretch of code that
    reads or writes the guarded state. *)

Definition Op (A : Type) : Type := Cache -> Outcome (A * Cache) * list Event.

Definition op_ret {A} (a : A) : Op A := fun c => (Done (a, c), []).

Definition op_bind {A B} (m : Op A) (k : A -> Op B) : Op B := fun c =>
  match m c with
  | (Done (a, c'), t) => let (r, t') := k a c' in (r, t ++ t')
  | (Panic, t) => (Panic, t)
  | (OutOfFuel, t) => (OutOfFuel, t)
  end.

#[local] Notation "x <- m ;; k" := (op_bind m (fun x => k))
  (at level 100, m at next level, right associativity).
#[local] Notation "m ;; k" := (op_bind m (fun _ => k))
  (at level 100, right associativity).

Definition emit (e : Event) : Op unit := fun c => (Done (tt, c), [e]).
Definition Lock : Op unit := emit EvLock.
Definition Unlock : Op unit := emit EvUnlock.
Definition RLock : Op unit := emit EvRLock.
Definition RUnlock : Op unit := emit EvRUnlock.

(** A read of a configuration field, fixed at construction. *)
Definition config {A} (f : Cache -> A) : Op A := fun c => (Done (f c, c), []).
(** A read of the guarded state. *)
Definition reads {A} (f : Cache -> A) : Op A := fun c => (Done (f c, c), [EvRead]).
(** A stretch of code that writes the guarded state. *)
Definition writes {A} (f : Cache -> Outcome (A * Cache)) : Op A :=
  fun c => (f c, [EvWrite]).
Definition modifies (f : Cache -> Cache) : Op unit :=
  fun c => (Done (tt, f c), [EvWrite]).

Definition run {A} (op : Op A) (c : Cache) : Outcome (A * Cache) := (op c).1.
Definition trace {A} (op : Op A) (c : Cache) : list Event := (op c).2.

(** [SetWithTTL] *)
Definition SetWithTTL (fuel : nat) (key : string) (value : V) (ttl now : Z)
    : Op unit :=
  force <- config forceNilInterfaceOnNilPointer ;;
  let value := if force && is_typed_nil_ptr value then vnil else value in
  Lock ;;
  writes (SetWithTTL_locked fuel key value ttl now) ;;
  Unlock.

(** [Set] *)
Definition Set_ (fuel : nat) (key : string) (value : V) (now : Z) : Op unit :=
  SetWithTTL fuel key value NoExpiration now.

(** [SetAll]: the pairs in the order the [range] over the argument yields
    them. *)
Fixpoint SetAll_loop (fuel : nat) (kvs : list (string * V)) (now : Z) : Op unit :=
  match kvs with
  | [] => op_ret tt
  | (key, value) :: kvs' =>
      SetWithTTL fuel key value NoExpiration now ;; SetAll_loop fuel kvs' now
  end.
Definition SetAll (fuel : nat) (kvs : gmap string V) (now : Z) : Op unit :=
  SetAll_loop fuel (range_map kvs) now.

(** [Get].  The value of the entry is read after [Unlock]. *)
Definition Get (key : string) (now : Z) : Op (V * bool) :=
  Lock ;;
  r <- writes (Get_locked key now) ;;
  Unlock ;;
  match r with
  | None => op_ret (vnil, false)
  | Some entry =>
      value <- reads (fun c => Value (heap c entry)) ;;
      op_ret (value, true)
  end.

(** [GetValue] *)
Definition GetValue (key : string) (now : Z) : Op V :=
  r <- Get key now ;; op_ret r.1.

(** [GetByKeys] *)
Fixpoint GetByKeys_loop (keys : list string) (now : Z) (found : gmap string V)
    : Op (gmap string V) :=
  match keys with
  | [] => op_ret found
  | key :: keys' =>
      r <- Get key now ;; GetByKeys_loop keys' now (<[key := r.1]> found)
  end.
Definition GetByKeys (keys : list string) (now : Z) : Op (gmap string V) :=
  GetByKeys_loop keys now ∅.

(** [GetAll] *)
Definition GetAll (now : Z) : Op (gmap string V) :=
  Lock ;;
  r <- writes (GetAll_locked now) ;;
  Unlock ;;
  op_ret r.

(** [GetKeysByPattern] *)
Definition GetKeysByPattern (pattern : string) (limit now : Z)
    : Op (list string) :=
  Lock ;;
  r <- reads (fun c =>
         GetKeysByPattern_loop pattern limit now (range_map (entries c)) [] c) ;;
  Unlock ;;
  op_ret r.

(** [Delete] *)
Definition Delete (key : string) : Op bool :=
  Lock ;;
  ok <- writes (delete_entry key) ;;
  Unlock ;;
  op_ret ok.

(** [DeleteAll] *)
Definition DeleteAll (keys : list string) : Op Z :=
  Lock ;;
  n <- writes (DeleteAll_loop keys 0) ;;
  Unlock ;;
  op_ret n.

(** [DeleteKeysByPattern] *)
Definition DeleteKeysByPattern (pattern : string) (now : Z) : Op Z :=
  keys <- GetKeysByPattern pattern 0 now ;;
  DeleteAll keys.

(** [Count] *)
Definition Count : Op Z :=
  RLock ;;
  count <- reads len_entries ;;
  RUnlock ;;
  op_ret count.

(** [Clear] *)
Definition Clear : Op unit :=
  Lock ;;
  modifies Clear_locked ;;
  Unlock.

(** [TTL].  The entry is read after [RUnlock]. *)
Definition TTL (key : string) (now : Z) : Op (Z * option Error) :=
  RLock ;;
  r <- reads (fun c => get c key) ;;
  RUnlock ;;
  match r with
  | None => op_ret (0, Some ErrKeyDoesNotExist)
  | Some entry =>
      expiration <- reads (fun c => Expiration (heap c entry)) ;;
      if bool_decide (expiration = NoExpiration)
      then op_ret (0, Some ErrKeyHasNoExpiration)
      else
        expiration <- reads (fun c => Expiration (heap c entry)) ;;
        let timeUntilExpiration := saturate_int (expiration - now) in
        if timeUntilExpiration <? 0
        then op_ret (0, Some ErrKeyDoesNotExist)
        else op_ret (timeUntilExpiration, None)
  end.

(** [Expire].  The source takes no lock here. *)
Definition Expire (key : string) (ttl now : Z) : Op bool :=
  r <- reads (fun c => get c key) ;;
  match r with
  | None => op_ret false
  | Some entry =>
      expired <- reads (fun c => Expired now (heap c entry)) ;;
      if expired : bool then op_ret false
      else
        modifies (update entry (set_Expiration (expiration_for ttl now))) ;;
        op_ret true
  end.

(** [Stats] *)
Definition Stats : Op Statistics :=
  RLock ;;
  s <- reads (fun c => mkStatistics (EvictedKeys (stats c)) (ExpiredKeys (stats c))
                         (Hits (stats c)) (Misses (stats c))) ;;
  RUnlock ;;
  op_ret s.

(** [MemoryUsage].  The source takes no lock here. *)
Definition MemoryUsage : Op Z := reads memoryUsage.

(** [MaxSize], [MaxMemoryUsage], [EvictionPolicy] *)
Definition MaxSize : Op Z := config maxSize.
Definition MaxMemoryUsage : Op Z := config maxMemoryUsage.
Definition EvictionPolicy_ : Op EvictionPolicy := config evictionPolicy.

(** *** The janitor (one shift, between [Lock] and [Unlock]) *)

Definition JanitorShiftTarget : Z := 25.
Definition JanitorMaxIterationsPerShift : nat := 1000.

(** The walk from [current] toward the head.  [remaining] is
    [JanitorMaxIterationsPerShift - steps]; the result is the new
    [lastTraversedNode]. *)
Fixpoint janitor_walk (remaining : nat) (expiredEntriesFound : Z)
    (current : option eptr) (now : Z) (c : Cache)
    : Outcome (option eptr * Cache) :=
  match current, remaining with
  | None, _ => Done (None, c)
  | Some _, O => Done (current, c)
  | Some cur, S remaining' =>
      '(found, saved, c) ←
        (if Expired now (heap c cur) then
           (* [previous = current.previous], read before [delete] unlinks *)
           let saved := previous (heap c cur) in
           '(_, c) ← delete_entry (Key (heap c cur)) c;
           Done (expiredEntriesFound + 1, saved, count_expired c)
         else Done (expiredEntriesFound, None, c));
      if bool_decide (Some cur = head c) then Done (None, c)
      else
        let current :=
          match saved with
          | Some p => Some p
          | None => previous (heap c cur)
          end in
        if bool_decide (remaining' = O) || (JanitorShiftTarget <=? found)
        then Done (current, c)
        else janitor_walk remaining' found current now c
  end.

(** One shift of the janitor on a cache, from the cursor [lastTraversedNode]
    of the previous shift. *)
Definition janitor_shift (lastTraversedNode : option eptr) (now : Z) (c : Cache)
    : Outcome (option eptr * Cache) :=
  match tail c with
  | None => Done (lastTraversedNode, c)
  | Some t =>
      let current :=
        match lastTraversedNode with
        | Some l =>
            if bool_decide (get c (Key (heap c l)) = Some l) then l else t
        | None => t
        end in
      janitor_walk JanitorMaxIterationsPerShift 0 (Some current) now c
  end.

Definition JanitorShift (lastTraversedNode : option eptr) (now : Z)
    : Op (option eptr) :=
  Lock ;;
  r <- writes (janitor_shift lastTraversedNode now) ;;
  Unlock ;;
  op_ret r.

(** *** Construction (gocache.go) *)

Inductive CacheOption : Type :=
  | WithMaxMemoryUsage (maxMemoryUsageInBytes : Z)
  | WithMaxSize (maxSize : Z)
  | WithEvictionPolicy (policy : EvictionPolicy)
  | WithForceNilInterfaceOnNilPointer (forceNilInterfaceOnNilPointer : bool).

Definition apply_option (c : Cache) (o : CacheOption) : Cache :=
  match o with
  | WithMaxMemoryUsage n =>
      mkCache (maxSize c) (if n <? 0 then NoMaxMemoryUsage else n)
        (evictionPolicy c) (stats c) (entries c) (head c) (tail c) (freqs c)
        (memoryUsage c) (forceNilInterfaceOnNilPointer c) (heap c)
        (nextEntry c) (nextElement c)
  | WithMaxSize n =>
      let n := if n <? 0 then NoMaxSize else n in
      mkCache n (maxMemoryUsage c) (evictionPolicy c) (stats c)
        (if bool_decide (n <> NoMaxSize) && bool_decide (len_entries c = 0)
         then ∅ else entries c)
        (head c) (tail c) (freqs c) (memoryUsage c)
        (forceNilInterfaceOnNilPointer c) (heap c) (nextEntry c) (nextElement c)
  | WithEvictionPolicy policy =>
      mkCache (maxSize c) (maxMemoryUsage c) policy (stats c) (entries c)
        (head c) (tail c)
        (if bool_decide (policy = LeastFrequentUsed) then [] else freqs c)
        (memoryUsage c) (forceNilInterfaceOnNilPointer c) (heap c)
        (nextEntry c) (nextElement c)
  | WithForceNilInterfaceOnNilPointer b =>
      mkCache (maxSize c) (maxMemoryUsage c) (evictionPolicy c) (stats c)
        (entries c) (head c) (tail c) (freqs c) (memoryUsage c) b (heap c)
        (nextEntry c) (nextElement c)
  end.

(** [NewCache] *)
Definition NewCache (opts : list CacheOption) : Cache :=
  foldl apply_option
    (mkCache DefaultMaxSize NoMaxMemoryUsage FirstInFirstOut
       (mkStatistics 0 0 0 0) ∅ None None [] 0 true
       (fun _ => mkEntry EmptyString vnil 0 0 None None None) 1%positive
       1%positive)
    opts.

(** *** Histories of calls *)

Inductive Call : Type :=
  | CallSet (key : string) (value : V)
  | CallSetWithTTL (key : string) (value : V) (ttl : Z)
  | CallSetAll (kvs : gmap string V)
  | CallGet (key : string)
  | CallGetValue (key : string)
  | CallGetByKeys (keys : list string)
  | CallGetAll
  | CallGetKeysByPattern (pattern : string) (limit : Z)
  | CallDelete (key : string)
  | CallDeleteAll (keys : list string)
  | CallDeleteKeysByPattern (pattern : string)
  | CallCount
  | CallClear
  | CallTTL (key : string)
  | CallExpire (key : string) (ttl : Z)
  | CallStats
  | CallMemoryUsage
  | JanitorTick (lastTraversedNode : option eptr).

Definition forget {A} (op : Op A) : Op unit := _ <- op ;; op_ret tt.

(** The call [cl] made at instant [now], with [fuel] for its loops. *)
Definition call (fuel : nat) (now : Z) (cl : Call) : Op unit :=
  match cl with
  | CallSet key value => Set_ fuel key value now
  | CallSetWithTTL key value ttl => SetWithTTL fuel key value ttl now
  | CallSetAll kvs => SetAll fuel kvs now
  | CallGet key => forget (Get key now)
  | CallGetValue key => forget (GetValue key now)
  | CallGetByKeys keys => forget (GetByKeys keys now)
  | CallGetAll => forget (GetAll now)
  | CallGetKeysByPattern pattern limit =>
      forget (GetKeysByPattern pattern limit now)
  | CallDelete key => forget (Delete key)
  | CallDeleteAll keys => forget (DeleteAll keys)
  | CallDeleteKeysByPattern pattern => forget (DeleteKeysByPattern pattern now)
  | CallCount => forget Count
  | CallClear => Clear
  | CallTTL key => forget (TTL key now)
  | CallExpire key ttl => forget (Expire key ttl now)
  | CallStats => forget Stats
  | CallMemoryUsage => forget MemoryUsage
  | JanitorTick l => forget (JanitorShift l now)
  end.

(** The caches that a program can hold: a new cache, then calls that
    completed (and shifts of the janitor), each at some instant. *)
Inductive reachable : Cache -> Prop :=
  | reachable_new (opts : list CacheOption) : reachable (NewCache opts)
  | reachable_call (c c' : Cache) (fuel : nat) (now : Z) (cl : Call) :
      reachable c ->
      run (call fuel now cl) c = Done (tt, c') ->
      reachable c'.

(** Runs a history from a cache; the instants are given with the calls. *)
Fixpoint run_calls (fuel : nat) (cls : list (Z * Call)) (c : Cache)
    : Outcome Cache :=
  match cls with
  | [] => Done c
  | (now, cl) :: cls' =>
      '(_, c) ← run (call fuel now cl) c;
      run_calls fuel cls' c
  end.

(** *** Lock discipline *)

Inductive LockState : Type := Unlocked | WriteLocked | ReadLocked.

(** Every read of the guarded state happens with the mutex held, every
    write with the mutex held exclusively, and the mutex is used in pairs. *)
Fixpoint guarded_from (st : LockState) (t : list Event) : bool :=
  match t with
  | [] => true
  | EvLock :: t' =>
      match st with Unlocked => guarded_from WriteLocked t' | _ => false end
  | EvUnlock :: t' =>
      match st with WriteLocked => guarded_from Unlocked t' | _ => false end
  | EvRLock :: t' =>
      match st with Unlocked => guarded_from ReadLocked t' | _ => false end
  | EvRUnlock :: t' =>
      match st with ReadLocked => guarded_from Unlocked t' | _ => false end
  | EvRead :: t' =>
      match st with Unlocked => false | _ => guarded_from st t' end
  | EvWrite :: t' =>
      match st with WriteLocked => guarded_from st t' | _ => false end
  end.

Definition guarded (t : list Event) : bool := guarded_from Unlocked t.

End Model.

Arguments Op V A : clear implicits.
Arguments Call V : clear implicits.

(** ** A concrete payload: character strings

    Used to run the operations on concrete histories. *)

(** Modelled from the spec: the size estimator is outside the given sources.
    "byte/character sequences cost their length"; "a key's estimated size
    contributes to its entry's total". *)
#[global] Instance string_payload : Payload string := {|
  vnil := EmptyString;
  is_typed_nil_ptr := fun _ => false;
  size_in_bytes := fun key value =>
    Z.of_nat (String.length key) + Z.of_nat (String.length value)
|}.

(** One admissible order for [range]: the enumeration of the map library. *)
#[global] Instance canonical_order : RangeOrder := {|
  range_map := fun A m => map_to_list m;
  range_map_perm := fun A m => reflexivity (map_to_list m);
  range_set := fun s => elements s;
  range_set_perm := fun s => reflexivity (elements s)
|}.

(** Modelled from the spec: the pattern matcher is outside the given
    sources.  "[*] matches any substring including empty; [?] matches
    exactly one character ... all other characters match literally". *)
Fixpoint glob (pattern key : list ascii) : bool :=
  match pattern with
  | [] => match key with [] => true | _ => false end
  | p :: pattern' =>
      if bool_decide (p = "*"%char) then
        (fix star (key : list ascii) : bool :=
           glob pattern' key
           || match key with [] => false | _ :: key' => star key' end) key
      else
        match key with
        | [] => false
        | k :: key' =>
            (bool_decide (p = "?"%char) || bool_decide (p = k))
            && glob pattern' key'
        end
  end.

#[global] Instance glob_matcher : PatternMatcher :=
  fun pattern key =>
    glob (list_ascii_of_string pattern) (list_ascii_of_string key).

(** ** Specification: invariants and observations *)

(** Frequency counts grow strictly along the index, from above [lo]. *)
Fixpoint increasing (lo : Z) (fs : FreqList) : Prop :=
  match fs with
  | [] => True
  | x :: fs' => lo < Freq x.2 /\ increasing (Freq x.2) fs'
  end.

Definition is_done {A} (o : Outcome A) : bool :=
  match o with Done _ => true | _ => false end.

Section Specification.
Context {V : Type} `{Payload V} `{RangeOrder} `{PatternMatcher}.


(** The invariant of the frequency index, for the entries mapped by [m].
    [exM l q] excuses the member [q] of the element [l] from pointing back
    to [l]; [exN l] excuses the element [l] from being non-empty. *)
Record freq_inv (m : gmap string eptr) (exM : lptr -> eptr -> Prop)
    (exN : lptr -> Prop) (c : Cache V) : Prop := {
  inv_key : forall k p, m !! k = Some p -> Key (heap c p) = k;
  inv_mapped_fresh : forall k p, m !! k = Some p -> (p < nextEntry c)%positive;
  inv_parent : forall k p l,
    m !! k = Some p -> frequencyParent (heap c p) = Some l ->
    exists it, (l, it) ∈ freqs c /\ p ∈ Entries it;
  inv_member : forall l it q,
    (l, it) ∈ freqs c -> q ∈ Entries it -> ~ exM l q ->
    frequencyParent (heap c q) = Some l /\ (q < nextEntry c)%positive;
  inv_nonempty : forall l it, (l, it) ∈ freqs c -> ~ exN l -> Entries it <> ∅;
  inv_increasing : increasing 0 (freqs c);
  inv_addr_nodup : NoDup (freqs c).*1;
  inv_addr_fresh : forall l it, (l, it) ∈ freqs c -> (l < nextElement c)%positive
}.

Definition no_member : lptr -> eptr -> Prop := fun _ _ => False.
Definition no_element : lptr -> Prop := fun _ => False.

Definition lfu_inv (c : Cache V) : Prop :=
  freq_inv (entries c) no_member no_element c.

(** Two caches that the frequency invariant cannot tell apart. *)
Definition same_view (c c' : Cache V) : Prop :=
  freqs c' = freqs c /\ nextEntry c' = nextEntry c /\
  nextElement c' = nextElement c /\
  forall p, Key (heap c' p) = Key (heap c p) /\
            frequencyParent (heap c' p) = frequencyParent (heap c p).

(** A field update that leaves the key and the frequency pointer alone. *)
Definition keeps_view (f : Entry V -> Entry V) : Prop :=
  forall e, Key (f e) = Key e /\ frequencyParent (f e) = frequencyParent e.

(** [op] keeps [P] whenever it completes. *)
Definition op_preserves {A} (P : Cache V -> Prop) (op : Op V A) : Prop :=
  forall c r c', P c -> run op c = Done (r, c') -> P c'.

(** What [TTL] answers, read off the entry that [key] maps to. *)
Definition TTL_answer (key : string) (now : Z) (c : Cache V) : Z * option Error :=
  match entries c !! key with
  | None => (0, Some ErrKeyDoesNotExist)
  | Some entry =>
      let expiration := Expiration (heap c entry) in
      if bool_decide (expiration = NoExpiration) then (0, Some ErrKeyHasNoExpiration)
      else if bool_decide (expiration < now) then (0, Some ErrKeyDoesNotExist)
      else (expiration - now, None)
  end.

(** The statistics and the configuration of [c'] are those of [c]. *)
Definition same_counters (c c' : Cache V) : Prop :=
  stats c' = stats c /\ evictionPolicy c' = evictionPolicy c
  /\ maxSize c' = maxSize c /\ maxMemoryUsage c' = maxMemoryUsage c.

(** The cache after the history [cls], when every call of it completes. *)
Definition after (fuel : nat) (cls : list (Z * Call V)) (c : Cache V) : Cache V :=
  match run_calls fuel cls c with
  | Done c' => c'
  | _ => c
  end.

(** The entries met from [p] along [next], at most [n] of them. *)
Fixpoint walk (n : nat) (h : eptr -> Entry V) (p : option eptr) : list eptr :=
  match n, p with
  | S n', Some q => q :: walk n' h (next (h q))
  | _, _ => []
  end.

(** The recency chain as the specification describes it. *)
Definition chain_described (c : Cache V) : Prop :=
  let path := walk (size (entries c)) (heap c) (head c) in
  (head c = None <-> tail c = None)
  /\ (tail c = None <-> entries c = ∅)
  /\ (forall h, head c = Some h -> previous (heap c h) = None)
  /\ (forall t, tail c = Some t -> next (heap c t) = None)
  /\ length path = size (entries c)
  /\ last path = tail c
  /\ NoDup path
  /\ (forall p, (exists key, entries c !! key = Some p) <-> p ∈ path).

(** The entries of [l] are linked in this order, the first one after
    [prev]. *)
Fixpoint linked (h : eptr -> Entry V) (prev : option eptr) (l : list eptr)
    : Prop :=
  match l with
  | [] => True
  | p :: l' =>
      previous (h p) = prev /\ next (h p) = l' !! O /\ linked h (Some p) l'
  end.

(** The estimated sizes of the entries of [l], added up. *)
Definition sizes (h : eptr -> Entry V) (l : list eptr) : Z :=
  foldr (fun p z => SizeInBytes (h p) + z) 0 l.

(** [l] is the recency chain of [c], from the head to the tail, and holds
    the entries of the map; the memory counter is the sum of their sizes. *)
Record chain_inv (c : Cache V) (l : list eptr) : Prop := {
  chain_nodup : NoDup l;
  chain_head : head c = l !! O;
  chain_tail : tail c = last l;
  chain_linked : linked (heap c) None l;
  chain_map : forall k p,
    entries c !! k = Some p <-> p ∈ l /\ Key (heap c p) = k;
  chain_fresh : forall p, p ∈ l -> (p < nextEntry c)%positive;
  chain_memory :
    memoryUsage c = if bool_decide (maxMemoryUsage c <> NoMaxMemoryUsage)
                    then wrap_int (sizes (heap c) l) else 0
}.

(** [c'] differs from [c] in the links of the chain at most: the head, the
    tail, and the [next] and [previous] fields. *)
Definition only_links (c c' : Cache V) : Prop :=
  maxSize c' = maxSize c /\ maxMemoryUsage c' = maxMemoryUsage c
  /\ evictionPolicy c' = evictionPolicy c /\ stats c' = stats c
  /\ entries c' = entries c /\ freqs c' = freqs c
  /\ memoryUsage c' = memoryUsage c
  /\ forceNilInterfaceOnNilPointer c' = forceNilInterfaceOnNilPointer c
  /\ nextEntry c' = nextEntry c /\ nextElement c' = nextElement c
  /\ forall q, heap c' q
               = set_next (next (heap c' q))
                   (set_previous (previous (heap c' q)) (heap c q)).

(** [c'] has the chain, the map and the memory counter of [c]. *)
Definition same_chain (c c' : Cache V) : Prop :=
  head c' = head c /\ tail c' = tail c /\ entries c' = entries c
  /\ nextEntry c' = nextEntry c /\ memoryUsage c' = memoryUsage c
  /\ maxMemoryUsage c' = maxMemoryUsage c
  /\ forall q, next (heap c' q) = next (heap c q)
               /\ previous (heap c' q) = previous (heap c q)
               /\ Key (heap c' q) = Key (heap c q)
               /\ SizeInBytes (heap c' q) = SizeInBytes (heap c q).

(** A cache under FIFO or LRU whose chain holds the entries of the map,
    within the size bound. *)
Definition recency_inv (c : Cache V) : Prop :=
  evictionPolicy c <> LeastFrequentUsed
  /\ 0 <= maxSize c /\ 0 <= maxMemoryUsage c
  /\ exists l, chain_inv c l
               /\ (maxSize c <> NoMaxSize -> Z.of_nat (length l) <= maxSize c).

(** The configuration of [c'] is that of [c]. *)
Definition same_config (c c' : Cache V) : Prop :=
  evictionPolicy c' = evictionPolicy c /\ maxSize c' = maxSize c
  /\ maxMemoryUsage c' = maxMemoryUsage c.

(** The state of the mutex after the events [t]. *)
Fixpoint lock_after (st : LockState) (t : list Event) : LockState :=
  match t with
  | [] => st
  | EvLock :: t' => lock_after WriteLocked t'
  | EvRLock :: t' => lock_after ReadLocked t'
  | EvUnlock :: t' | EvRUnlock :: t' => lock_after Unlocked t'
  | EvRead :: t' | EvWrite :: t' => lock_after st t'
  end.

(** [op] keeps the lock discipline on every cache, and gives the mutex back
    when it completes. *)
Definition disciplined {A} (op : Op V A) : Prop :=
  forall c, guarded (trace op c) = true
            /\ (is_done (run op c) = true ->
                lock_after Unlocked (trace op c) = Unlocked).

(** The operations that keep the lock discipline: all but [Expire], [TTL],
    [MemoryUsage] and the three that read the value of an entry after
    [Unlock], [Get], [GetValue] and [GetByKeys]. *)
Definition locks_properly (cl : Call V) : bool :=
  match cl with
  | CallExpire _ _ | CallTTL _ | CallMemoryUsage
  | CallGet _ | CallGetValue _ | CallGetByKeys _ => false
  | _ => true
  end.

(** What [Get] answers and the cache it leaves: the critical section, then
    the read of the value of the entry that was hit. *)
Definition Get_answer (key : string) (now : Z) (c : Cache V)
    : Outcome ((V * bool) * Cache V) :=
  '(r, c) ← Get_locked key now c;
  Done (match r with
        | Some entry => (Value (heap c entry), true)
        | None => (vnil, false)
        end, c).

(** The entries of [c'] carry the keys, the values and the expirations they
    carry in [c]. *)
Definition same_contents (c c' : Cache V) : Prop :=
  forall q, Key (heap c' q) = Key (heap c q)
            /\ Value (heap c' q) = Value (heap c q)
            /\ Expiration (heap c' q) = Expiration (heap c q).

(** The pairs that [GetKeysByPattern] keeps. *)
Definition live_match (pattern : string) (now : Z) (c : Cache V)
    (ke : string * eptr) : bool :=
  negb (Expired now (heap c ke.2)) && MatchPattern pattern ke.1.

(** From [c] to [c'], [n] entries that had expired at [now] were removed
    and counted, and nothing else changed in the map, in the contents of
    the entries or in the statistics. *)
Definition swept (now n : Z) (c c' : Cache V) : Prop :=
  (forall k p, entries c' !! k = Some p -> entries c !! k = Some p)
  /\ (forall k p, entries c !! k = Some p -> entries c' !! k = None ->
        Expired now (heap c p) = true)
  /\ same_contents c c'
  /\ 0 <= n /\ len_entries c' = len_entries c - n
  /\ wrap_uint64 (ExpiredKeys (stats c'))
     = wrap_uint64 (ExpiredKeys (stats c) + n)
  /\ EvictedKeys (stats c') = EvictedKeys (stats c)
  /\ Hits (stats c') = Hits (stats c)
  /\ Misses (stats c') = Misses (stats c).

(** The arguments of the options of one kind, in the order of the list. *)
Definition size_options (opts : list CacheOption) : list Z :=
  omap (fun o => match o with WithMaxSize n => Some n | _ => None end) opts.
Definition memory_options (opts : list CacheOption) : list Z :=
  omap (fun o => match o with WithMaxMemoryUsage n => Some n | _ => None end)
    opts.
Definition policy_options (opts : list CacheOption) : list EvictionPolicy :=
  omap (fun o => match o with WithEvictionPolicy p => Some p | _ => None end)
    opts.

(** The value of the key [k] at [now]: the value of its entry when it has
    one that has not expired, nil otherwise. *)
Definition value_at (now : Z) (c : Cache V) (k : string) : V :=
  match entries c !! k with
  | Some p => if Expired now (heap c p) then vnil else Value (heap c p)
  | None => vnil
  end.


End Specification.

(** ** Concrete caches and histories *)

Open Scope string_scope.

(** [NewCache(WithMaxMemoryUsage(1), WithEvictionPolicy(LeastFrequentUsed))] *)
Definition lfu_one_byte : Cache string :=
  NewCache [WithMaxMemoryUsage 1; WithEvictionPolicy LeastFrequentUsed].

(** [NewCache(WithMaxMemoryUsage(10), WithEvictionPolicy(LeastFrequentUsed))] *)
Definition lfu_ten_bytes : Cache string :=
  NewCache [WithMaxMemoryUsage 10; WithEvictionPolicy LeastFrequentUsed].

(** [NewCache(WithMaxSize(1), WithEvictionPolicy(LeastFrequentUsed))] *)
Definition lfu_size_one : Cache string :=
  NewCache [WithMaxSize 1; WithEvictionPolicy LeastFrequentUsed].

(** [NewCache(WithMaxSize(3), WithEvictionPolicy(LeastFrequentUsed))] *)
Definition lfu_size_three : Cache string :=
  NewCache [WithMaxSize 3; WithEvictionPolicy LeastFrequentUsed].

(** [NewCache(WithMaxSize(NoMaxSize), WithEvictionPolicy(LeastFrequentUsed))] *)
Definition lfu_unbounded : Cache string :=
  NewCache [WithMaxSize NoMaxSize; WithEvictionPolicy LeastFrequentUsed].

(** [NewCache(WithMaxSize(3))] *)
Definition fifo_size_three : Cache string := NewCache [WithMaxSize 3].

(** [NewCache(WithMaxSize(3), WithEvictionPolicy(LeastRecentlyUsed))] *)
Definition lru_size_three : Cache string :=
  NewCache [WithMaxSize 3; WithEvictionPolicy LeastRecentlyUsed].

(** [NewCache(WithMaxMemoryUsage(10))] *)
Definition fifo_ten_bytes : Cache string := NewCache [WithMaxMemoryUsage 10].

(** The scenario of TestCache. *)
Definition history_lru_test : list (Z * Call string) :=
  [(0, CallSet "1" "1"); (0, CallSet "2" "2"); (0, CallSet "3" "3");
   (0, CallSet "4" "4"); (0, CallGet "4"); (0, CallGet "3"); (0, CallGet "2");
   (0, CallGet "1"); (0, CallSet "5" "5")].

(** One key set, the cache cleared, two other keys set with a [Get] between
    them. *)
Definition history_overflow : list (Z * Call string) :=
  [(0, CallSet "a" "v"); (0, CallClear); (0, CallSet "x" "v");
   (0, CallGet "x"); (0, CallSet "y" "v")].

(** One key set, the cache cleared, the same key set again and read, then
    another key set. *)
Definition history_stale_key : list (Z * Call string) :=
  [(0, CallSet "a" "v"); (0, CallClear); (0, CallSet "a" "v");
   (0, CallGet "a"); (0, CallSet "b" "v")].

(** One key set, the cache cleared, the same key set again with a value
    larger than the bound. *)
Definition history_oversized : list (Z * Call string) :=
  [(0, CallSet "a" "v"); (0, CallClear);
   (0, CallSet "a" "vvvvvvvvvvvvvvvvvvvvvvvvv")].

(** The scenario of TestCache_EvictionsWithLFU. *)
Definition history_lfu_test : list (Z * Call string) :=
  [(0, CallSet "1" "value"); (0, CallSet "2" "value"); (0, CallSet "3" "value");
   (0, CallGet "1"); (0, CallSet "4" "value")].

(** Two keys, one of them expired at instant 50. *)
Definition history_expiring : list (Z * Call string) :=
  [(0, CallSet "key1" "value1"); (0, CallSetWithTTL "key3" "value3" 10)].

Close Scope string_scope.

(** ** Proofs *)


Section FreqLists.
Implicit Types (fs : FreqList) (l : lptr) (it : FrequencyItem).

Lemma find_element_Some l fs i it :
  find_element l fs = Some (i, it) -> fs !! i = Some (l, it).
Proof.
  revert i. induction fs as [|[l' it'] fs IH]; intros i; simpl; [done|].
  case_bool_decide as Hl.
  - intros [= <- <-]. by subst.
  - destruct (find_element l fs) as [[j it'']|]; [|done].
    intros [= <- <-]. simpl. by apply IH.
Qed.

Lemma find_element_elem_of l fs i it :
  find_element l fs = Some (i, it) -> (l, it) ∈ fs.
Proof. intros Hf. eapply list_elem_of_lookup_2, find_element_Some, Hf. Qed.

Lemma find_element_None l fs :
  find_element l fs = None -> forall it, (l, it) ∉ fs.
Proof.
  induction fs as [|[l' it'] fs IH]; simpl; intros Hf it.
  - apply not_elem_of_nil.
  - case_bool_decide as Hl; [done|].
    destruct (find_element l fs) as [[j it'']|] eqn:E; [done|].
    rewrite elem_of_cons. intros [[= -> ->]|Hin]; [done|]. by eapply IH.
Qed.

Lemma find_element_is_Some l it fs :
  (l, it) ∈ fs -> NoDup fs.*1 -> exists i, find_element l fs = Some (i, it).
Proof.
  induction fs as [|[l' it'] fs IH]; simpl; intros Hin Hnd.
  - by apply elem_of_nil in Hin.
  - apply NoDup_cons in Hnd as [Hl' Hnd]. case_bool_decide as Hl.
    + subst l'. apply elem_of_cons in Hin as [[= ->]|Hin]; [by eexists|].
      exfalso. apply Hl'. apply list_elem_of_fmap. by exists (l, it).
    + apply elem_of_cons in Hin as [[= -> ->]|Hin]; [done|].
      destruct (IH Hin Hnd) as [i ->]. by eexists.
Qed.

Lemma elem_of_remove_element x l fs :
  x ∈ remove_element l fs <-> x.1 <> l /\ x ∈ fs.
Proof. unfold remove_element. by rewrite list_elem_of_filter. Qed.

Lemma elem_of_edit_entries l' it' l f fs :
  (l', it') ∈ edit_entries l f fs <->
  exists it0, (l', it0) ∈ fs /\
    it' = if bool_decide (l' = l)
          then mkFrequencyItem (f (Entries it0)) (Freq it0) else it0.
Proof.
  unfold edit_entries. rewrite list_elem_of_fmap. split.
  - intros [[l0 it0] [Heq Hin]]. simpl in Heq.
    case_bool_decide as Hl; injection Heq as -> ->; exists it0;
      (split; [done|]).
    + by rewrite bool_decide_eq_true_2.
    + by rewrite bool_decide_eq_false_2.
  - intros [it0 [Hin ->]]. exists (l', it0). split; [|done]. simpl.
    by case_bool_decide.
Qed.

Lemma fst_edit_entries l f fs : (edit_entries l f fs).*1 = fs.*1.
Proof.
  unfold edit_entries. rewrite <- list_fmap_compose. apply list_fmap_ext.
  intros i [l0 it0] _. simpl. by case_bool_decide.
Qed.

Lemma increasing_weaken lo lo' fs : lo' <= lo -> increasing lo fs -> increasing lo' fs.
Proof. destruct fs as [|x fs]; simpl; [done|]. intros ? [? ?]. split; [lia|done]. Qed.

Lemma increasing_remove_element lo l fs :
  increasing lo fs -> increasing lo (remove_element l fs).
Proof.
  unfold remove_element. revert lo.
  induction fs as [|x fs IH]; intros lo Hinc; [done|].
  destruct Hinc as [Hlo Hfs].
  rewrite filter_cons. case_decide.
  - split; [done|]. by apply IH.
  - apply IH. eapply increasing_weaken; [|done]. lia.
Qed.

Lemma increasing_edit_entries lo l f fs :
  increasing lo fs -> increasing lo (edit_entries l f fs).
Proof.
  unfold edit_entries. revert lo.
  induction fs as [|x fs IH]; intros lo; simpl; [done|]. intros [Hlo Hfs].
  assert (Freq (if bool_decide (x.1 = l)
                then (x.1, mkFrequencyItem (f (Entries x.2)) (Freq x.2))
                else x).2 = Freq x.2) as -> by (by case_bool_decide).
  split; [done|]. by apply IH.
Qed.

Lemma increasing_insert_after lo i x l it fs :
  increasing lo fs ->
  fs !! i = Some (l, it) ->
  Freq x.2 = Freq it + 1 ->
  (forall y, fs !! S i = Some y -> Freq y.2 <> Freq it + 1) ->
  increasing lo (insert_after i x fs).
Proof.
  unfold insert_after. revert lo i.
  induction fs as [|y fs IH]; intros lo i Hinc Hi Hx Hnext; [done|].
  destruct Hinc as [Hlo Hinc]. destruct i as [|i]; simpl in *.
  - injection Hi as ->. simpl in *.
    split; [done|]. split; [lia|].
    destruct fs as [|z fs]; simpl in *; [done|].
    destruct Hinc as [Hz Hinc]. split; [|done].
    specialize (Hnext z eq_refl). lia.
  - split; [done|]. by eapply IH.
Qed.

Lemma increasing_lookup_lo lo fs i x :
  increasing lo fs -> fs !! i = Some x -> lo < Freq x.2.
Proof.
  revert lo i. induction fs as [|z fs IH]; intros lo i Hinc Hi; [done|].
  destruct Hinc as [Hlo Hinc]. destruct i as [|i]; simpl in *.
  - by injection Hi as ->.
  - transitivity (Freq z.2); [done|]. by eapply IH.
Qed.

Lemma increasing_lookup_lt lo fs i j x y :
  increasing lo fs -> (i < j)%nat -> fs !! i = Some x -> fs !! j = Some y ->
  Freq x.2 < Freq y.2.
Proof.
  revert lo i j. induction fs as [|z fs IH]; intros lo i j Hinc Hij Hi Hj; [done|].
  destruct Hinc as [Hlo Hinc].
  destruct j as [|j]; [lia|]. destruct i as [|i]; simpl in *.
  - injection Hi as ->. by eapply increasing_lookup_lo.
  - eapply (IH _ i j); eauto. lia.
Qed.

Lemma elem_of_insert_after y i x fs :
  y ∈ insert_after i x fs <-> y = x \/ y ∈ fs.
Proof.
  assert (y ∈ fs <-> y ∈ take (S i) fs \/ y ∈ drop (S i) fs) as ->.
  { by rewrite <- elem_of_app, take_drop. }
  unfold insert_after. rewrite elem_of_app, elem_of_cons. tauto.
Qed.

Lemma fst_insert_after i x fs :
  (insert_after i x fs).*1 ≡ₚ x.1 :: fs.*1.
Proof.
  unfold insert_after. rewrite fmap_app, fmap_cons.
  rewrite <- Permutation_middle. constructor.
  by rewrite <- fmap_app, take_drop.
Qed.

End FreqLists.


Section Views.
Context {V : Type} `{Payload V}.
Implicit Types (c : Cache V) (p q : eptr) (l : lptr).

Lemma same_view_refl c : same_view c c.
Proof. by repeat split. Qed.

Lemma same_view_trans c1 c2 c3 :
  same_view c1 c2 -> same_view c2 c3 -> same_view c1 c3.
Proof.
  intros (?&?&?&H12) (?&?&?&H23). repeat split; try congruence.
  - destruct (H12 p), (H23 p). congruence.
  - destruct (H12 p), (H23 p). congruence.
Qed.

Lemma freq_inv_view m exM exN c c' :
  same_view c c' -> freq_inv m exM exN c -> freq_inv m exM exN c'.
Proof.
  intros (Hf&Hne&Hnl&Hh) [].
  assert (forall p, Key (heap c' p) = Key (heap c p)) as HK by (intros; apply Hh).
  assert (forall p, frequencyParent (heap c' p) = frequencyParent (heap c p))
    as HP by (intros; apply Hh).
  constructor; intros *; rewrite ?Hf, ?Hne, ?Hnl, ?HK, ?HP; eauto.
Qed.

Lemma freq_inv_weaken m (exM exM' : lptr -> eptr -> Prop)
    (exN exN' : lptr -> Prop) c :
  (forall l q, exM l q -> exM' l q) -> (forall l, exN l -> exN' l) ->
  freq_inv m exM exN c -> freq_inv m exM' exN' c.
Proof. intros HM HN []. constructor; eauto. Qed.

Lemma freq_inv_subseteq m m' exM exN c :
  m' ⊆ m -> freq_inv m exM exN c -> freq_inv m' exM exN c.
Proof.
  intros Hsub []. constructor; eauto.
  - intros k p Hk. eapply inv_key0, lookup_weaken, Hsub. done.
  - intros k p Hk. eapply inv_mapped_fresh0, lookup_weaken, Hsub. done.
  - intros k p l Hk. eapply inv_parent0, lookup_weaken, Hsub. done.
Qed.

Lemma sv_update c0 p f c :
  keeps_view f -> same_view c0 c -> same_view c0 (update p f c).
Proof.
  intros Hf Hc. eapply same_view_trans; [exact Hc|].
  repeat split; simpl; unfold insert, fn_insert; case_decide; subst;
    try done; apply Hf.
Qed.

Lemma sv_set_head c0 x c : same_view c0 c -> same_view c0 (set_head x c).
Proof. intros Hc. eapply same_view_trans; [exact Hc|]. by repeat split. Qed.
Lemma sv_set_tail c0 x c : same_view c0 c -> same_view c0 (set_tail x c).
Proof. intros Hc. eapply same_view_trans; [exact Hc|]. by repeat split. Qed.
Lemma sv_set_stats c0 x c : same_view c0 c -> same_view c0 (set_stats x c).
Proof. intros Hc. eapply same_view_trans; [exact Hc|]. by repeat split. Qed.
Lemma sv_set_memoryUsage c0 x c :
  same_view c0 c -> same_view c0 (set_memoryUsage x c).
Proof. intros Hc. eapply same_view_trans; [exact Hc|]. by repeat split. Qed.
Lemma sv_set_entries c0 x c : same_view c0 c -> same_view c0 (set_entries x c).
Proof. intros Hc. eapply same_view_trans; [exact Hc|]. by repeat split. Qed.

Lemma keeps_view_set_next x : keeps_view (V:=V) (set_next x).
Proof. by intros e. Qed.
Lemma keeps_view_set_previous x : keeps_view (V:=V) (set_previous x).
Proof. by intros e. Qed.
Lemma keeps_view_set_Value x : keeps_view (V:=V) (set_Value x).
Proof. by intros e. Qed.
Lemma keeps_view_set_RelevantTimestamp x :
  keeps_view (V:=V) (set_RelevantTimestamp x).
Proof. by intros e. Qed.
Lemma keeps_view_set_Expiration x : keeps_view (V:=V) (set_Expiration x).
Proof. by intros e. Qed.
Lemma keeps_view_unlink :
  keeps_view (V:=V) (fun e => set_previous None (set_next None e)).
Proof. by intros e. Qed.
Lemma keeps_view_link x :
  keeps_view (V:=V) (fun e => set_previous None (set_next x e)).
Proof. by intros e. Qed.
Lemma keeps_view_Accessed now : keeps_view (V:=V) (Accessed now).
Proof. by intros e. Qed.

End Views.

Create HintDb view discriminated.
#[export] Hint Resolve same_view_refl sv_update sv_set_head sv_set_tail
  sv_set_stats sv_set_memoryUsage sv_set_entries keeps_view_set_next
  keeps_view_set_previous keeps_view_set_Value keeps_view_set_RelevantTimestamp
  keeps_view_set_Expiration keeps_view_unlink keeps_view_link
  keeps_view_Accessed : view.

(** Splits the goal along the tests of the code, then closes each branch
    with the lemmas on views. *)
Ltac view_cases :=
  repeat first
    [ progress auto with view
    | match goal with
      | |- context [bool_decide ?P] => destruct (bool_decide P)
      | |- context [match ?x with _ => _ end] => destruct x
      end; simpl ].

Section ChainViews.
Context {V : Type} `{Payload V}.
Implicit Types (c : Cache V) (p q : eptr) (l : lptr).

Lemma sv_removeExistingEntryReferences c0 p c :
  same_view c0 c -> same_view c0 (removeExistingEntryReferences p c).
Proof. intros Hc. unfold removeExistingEntryReferences. view_cases. Qed.

Lemma sv_moveExistingEntryToHead c0 p c :
  same_view c0 c -> same_view c0 (moveExistingEntryToHead p c).
Proof.
  intros Hc. unfold moveExistingEntryToHead.
  assert (same_view c0
    (if negb (bool_decide (head c = Some p) && bool_decide (tail c = Some p))
     then removeExistingEntryReferences p c else c)) as Hc'.
  { destruct (negb _); auto using sv_removeExistingEntryReferences. }
  revert Hc'. generalize (if negb (bool_decide (head c = Some p) && bool_decide (tail c = Some p))
     then removeExistingEntryReferences p c else c). clear Hc c.
  intros c Hc. view_cases.
Qed.

Lemma sv_release_memory c0 e c :
  same_view c0 c -> same_view c0 (release_memory e c).
Proof. intros Hc. unfold release_memory. view_cases. Qed.
Lemma sv_charge_memory c0 e c :
  same_view c0 c -> same_view c0 (charge_memory e c).
Proof. intros Hc. unfold charge_memory. view_cases. Qed.
Lemma sv_count_evicted c0 c : same_view c0 c -> same_view c0 (count_evicted c).
Proof. intros Hc. unfold count_evicted. view_cases. Qed.
Lemma sv_count_expired c0 c : same_view c0 c -> same_view c0 (count_expired c).
Proof. intros Hc. unfold count_expired. view_cases. Qed.
Lemma sv_count_hits c0 n c : same_view c0 c -> same_view c0 (count_hits n c).
Proof. intros Hc. unfold count_hits. view_cases. Qed.
Lemma sv_count_miss c0 c : same_view c0 c -> same_view c0 (count_miss c).
Proof. intros Hc. unfold count_miss. view_cases. Qed.

End ChainViews.

#[export] Hint Resolve sv_removeExistingEntryReferences
  sv_moveExistingEntryToHead sv_release_memory sv_charge_memory
  sv_count_evicted sv_count_expired sv_count_hits sv_count_miss : view.

Section FreqInv.
Context {V : Type} `{Payload V}.
Implicit Types (c : Cache V) (p q : eptr) (l : lptr) (m : gmap string eptr).

Lemma nodup_fst_unique (fs : list (lptr * FrequencyItem)) l it it' :
  NoDup fs.*1 -> (l, it) ∈ fs -> (l, it') ∈ fs -> it = it'.
Proof.
  intros Hnd Hin Hin'.
  destruct (find_element_is_Some _ _ _ Hin Hnd) as [i Hi].
  destruct (find_element_is_Some _ _ _ Hin' Hnd) as [i' Hi']. congruence.
Qed.

Lemma nodup_fst_remove_element l (fs : list (lptr * FrequencyItem)) :
  NoDup fs.*1 -> NoDup (remove_element l fs).*1.
Proof.
  unfold remove_element. induction fs as [|x fs IH]; [done|].
  rewrite fmap_cons, NoDup_cons, filter_cons. intros [Hx Hnd].
  case_decide; [|by apply IH].
  rewrite fmap_cons, NoDup_cons. split; [|by apply IH].
  rewrite list_elem_of_fmap in Hx |- *. intros (y & Hy & Hin).
  apply Hx. exists y. split; [done|]. by apply list_elem_of_filter in Hin as [_ ?].
Qed.

Lemma freq_inv_remove_from_element m l p c :
  freq_inv m (fun l0 q => l0 = l /\ q = p) no_element c ->
  (forall k, m !! k = Some p -> frequencyParent (heap c p) <> Some l) ->
  freq_inv m no_member no_element (remove_from_element l p c).
Proof.
  intros Hinv Hpre. unfold remove_from_element.
  destruct (find_element l (freqs c)) as [[i it]|] eqn:Hfind.
  2:{ destruct Hinv as [Hkey Hmfresh Hparent Hmember Hnonempty Hinc Hnodup Hafresh].
      constructor; eauto. intros l0 it0 q Hin Hq _.
      eapply Hmember; eauto. intros [-> _].
      by eapply find_element_None. }
  apply find_element_elem_of in Hfind.
  destruct Hinv as [Hkey Hmfresh Hparent Hmember Hnonempty Hinc Hnodup Hafresh].
  case_bool_decide as Hsize.
  - apply size_empty_inv in Hsize.
    constructor; simpl; eauto.
    + intros k q lq Hk Hpar. destruct (Hparent _ _ _ Hk Hpar) as [itq [Hin Hq]].
      exists itq. split; [|done]. apply elem_of_remove_element. split; [|done].
      simpl. intros ->.
      assert (itq = it) as -> by eauto using nodup_fst_unique.
      destruct (decide (q = p)) as [->|Hne]; [by eapply Hpre|].
      apply (not_elem_of_empty (C:=gset eptr) q). rewrite <- Hsize.
      apply elem_of_difference. split; [done|]. by rewrite elem_of_singleton.
    + intros l0 it0 q [Hl0 Hin]%elem_of_remove_element Hq _.
      eapply Hmember; eauto. by intros [? _].
    + intros l0 it0 [Hl0 Hin]%elem_of_remove_element _. eauto.
    + by apply increasing_remove_element.
    + by apply nodup_fst_remove_element.
    + intros l0 it0 [Hl0 Hin]%elem_of_remove_element. eauto.
  - constructor; simpl; eauto.
    + intros k q lq Hk Hpar. destruct (Hparent _ _ _ Hk Hpar) as [itq [Hin Hq]].
      eexists. split; [apply elem_of_edit_entries; eauto|].
      case_bool_decide as Hlq; [|done]. subst lq. simpl.
      assert (q <> p) by (intros ->; by eapply Hpre).
      apply elem_of_difference. split; [done|]. by rewrite elem_of_singleton.
    + intros l0 it' q (it0 & Hin & ->)%elem_of_edit_entries Hq _.
      case_bool_decide as Hl0; simpl in Hq.
      * apply elem_of_difference in Hq as [Hq Hne].
        eapply Hmember; eauto. intros [_ ->]. by apply Hne, elem_of_singleton.
      * eapply Hmember; eauto. by intros [? _].
    + intros l0 it' (it0 & Hin & ->)%elem_of_edit_entries _.
      case_bool_decide as Hl0; simpl; [|eauto]. subst l0.
      assert (it0 = it) as -> by eauto using nodup_fst_unique.
      intros Hempty. apply Hsize. by rewrite Hempty.
    + by apply increasing_edit_entries.
    + by rewrite fst_edit_entries.
    + intros l0 it' (it0 & Hin & ->)%elem_of_edit_entries. eauto.
Qed.

Lemma freq_inv_add m (exN : lptr -> Prop) l' p c :
  freq_inv m no_member exN c ->
  (exists it', (l', it') ∈ freqs c) ->
  (p < nextEntry c)%positive ->
  (forall l, exN l -> l = l') ->
  freq_inv m
    (fun l q => l <> l' /\ q = p /\ frequencyParent (heap c p) = Some l)
    no_element
    (set_freqs (edit_entries l' (fun s => {[p]} ∪ s) (freqs c))
       (update p (set_frequencyParent (Some l')) c)).
Proof.
  intros [Hkey Hmfresh Hparent Hmember Hnonempty Hinc Hnodup Hafresh] [it' Hit'] Hp HexN.
  assert (forall q, Key (heap (update p (set_frequencyParent (Some l')) c) q)
                    = Key (heap c q)) as HK.
  { intros q. simpl. unfold insert, fn_insert. case_decide; by subst. }
  assert (forall q, q <> p ->
            frequencyParent (heap (update p (set_frequencyParent (Some l')) c) q)
            = frequencyParent (heap c q)) as HPne.
  { intros q Hq. simpl. unfold insert, fn_insert. by case_decide. }
  assert (frequencyParent (heap (update p (set_frequencyParent (Some l')) c) p)
          = Some l') as HPeq.
  { simpl. unfold insert, fn_insert. by case_decide. }
  assert (nextEntry (update p (set_frequencyParent (Some l')) c) = nextEntry c)
    as HnE by done.
  assert (nextElement (update p (set_frequencyParent (Some l')) c)
          = nextElement c) as HnL by done.
  remember (update p (set_frequencyParent (Some l')) c) as c1 eqn:Hc1.
  constructor; cbn [heap freqs nextEntry nextElement set_freqs];
    rewrite ?HnE, ?HnL.
  - intros k q Hk. rewrite HK. eauto.
  - eauto.
  - intros k q lq Hk Hpar. destruct (decide (q = p)) as [->|Hq].
    + rewrite HPeq in Hpar. injection Hpar as <-.
      eexists. split; [apply elem_of_edit_entries; eauto|].
      rewrite bool_decide_eq_true_2 by done. simpl.
      apply elem_of_union. left. by apply elem_of_singleton.
    + rewrite HPne in Hpar by done.
      destruct (Hparent _ _ _ Hk Hpar) as [itq [Hin Hitq]].
      eexists. split; [apply elem_of_edit_entries; eauto|].
      case_bool_decide; simpl; [|done]. apply elem_of_union. by right.
  - intros l0 it q (it0 & Hin & ->)%elem_of_edit_entries Hq Hex.
    case_bool_decide as Hl0.
    + subst l0. simpl in Hq. destruct (decide (q = p)) as [->|Hne].
      * by rewrite HPeq.
      * rewrite HPne by done.
        apply elem_of_union in Hq as [Hq%elem_of_singleton|Hq]; [done|].
        eapply Hmember; eauto.
    + destruct (Hmember _ _ _ Hin Hq) as [Hpar Hfresh]; [by intros []|].
      destruct (decide (q = p)) as [->|Hne].
      * exfalso. apply Hex. done.
      * by rewrite HPne.
  - intros l0 it (it0 & Hin & ->)%elem_of_edit_entries _.
    case_bool_decide as Hl0; simpl.
    + intros Hempty. apply (not_elem_of_empty (C:=gset eptr) p).
      rewrite <- Hempty. apply elem_of_union. left. by apply elem_of_singleton.
    + eapply Hnonempty; eauto.
  - by apply increasing_edit_entries.
  - by rewrite fst_edit_entries.
  - intros l0 it (it0 & Hin & ->)%elem_of_edit_entries. eauto.
Qed.

Lemma fresh_element_not_in m exM exN c :
  freq_inv m exM exN c -> nextElement c ∉ (freqs c).*1.
Proof.
  intros [Hkey Hmfresh Hparent Hmember Hnonempty Hinc Hnodup Hafresh].
  intros ([l it] & Hl & Hin)%list_elem_of_fmap. simpl in Hl.
  apply Hafresh in Hin. lia.
Qed.

Lemma freq_inv_new_element m a pos c :
  freq_inv m no_member no_element c ->
  match pos with
  | None => a = 1 /\ forall x, Front (freqs c) = Some x -> Freq x.2 <> 1
  | Some i =>
      exists l it, freqs c !! i = Some (l, it) /\ a = Freq it + 1 /\
        forall y, freqs c !! S i = Some y -> Freq y.2 <> Freq it + 1
  end ->
  freq_inv m no_member (fun l => l = nextElement c) (new_element a pos c).2
  /\ (new_element a pos c).1 = nextElement c
  /\ (exists it', (nextElement c, it') ∈ freqs (new_element a pos c).2)
  /\ heap (new_element a pos c).2 = heap c
  /\ nextEntry (new_element a pos c).2 = nextEntry c
  /\ entries (new_element a pos c).2 = entries c.
Proof.
  intros Hinv Hpos. pose proof (fresh_element_not_in _ _ _ _ Hinv) as Hnew.
  destruct Hinv as [Hkey Hmfresh Hparent Hmember Hnonempty Hinc Hnodup Hafresh].
  unfold new_element. cbn [fst snd].
  set (x := (nextElement c, mkFrequencyItem ∅ a)).
  set (fs := match pos with
             | Some i => insert_after i x (freqs c)
             | None => x :: freqs c
             end).
  assert (forall y, y ∈ fs <-> y = x \/ y ∈ freqs c) as Hfs.
  { intros y. subst fs. destruct pos; [apply elem_of_insert_after|].
    apply elem_of_cons. }
  split; [|split; [done|split; [|done]]].
  2:{ eexists. apply Hfs. by left. }
  constructor; cbn [heap freqs nextEntry nextElement set_freqs set_nextElement];
    eauto.
  - intros k p l Hk Hpar. destruct (Hparent _ _ _ Hk Hpar) as (it & Hin & Hp).
    exists it. split; [|done]. apply Hfs. by right.
  - intros l it q [Heq|Hin]%Hfs Hq _.
    + injection Heq as -> ->. by apply not_elem_of_empty in Hq.
    + eapply Hmember; eauto.
  - intros l it [Heq|Hin]%Hfs Hne.
    + injection Heq as -> ->. done.
    + eapply Hnonempty; eauto.
  - subst fs. destruct pos as [i|].
    + destruct Hpos as (l & it & Hi & -> & Hnext).
      eapply increasing_insert_after; eauto.
    + destruct Hpos as [-> Hfront]. split; [simpl; lia|]. simpl.
      destruct (freqs c) as [|y fs'] eqn:Hfreqs; [done|].
      destruct Hinc as [Hlo Hinc]. split; [|done].
      specialize (Hfront y eq_refl). lia.
  - subst fs. destruct pos as [i|].
    + rewrite fst_insert_after. apply NoDup_cons. done.
    + rewrite fmap_cons. apply NoDup_cons. done.
  - intros l it [Heq|Hin]%Hfs.
    + injection Heq as -> ->. lia.
    + apply Hafresh in Hin. lia.
Qed.

Lemma nodup_fst_lookup_ne (fs : list (lptr * FrequencyItem)) i j x y :
  NoDup fs.*1 -> fs !! i = Some x -> fs !! j = Some y -> i <> j -> x.1 <> y.1.
Proof.
  intros Hnd Hi Hj Hij Heq. apply Hij.
  eapply NoDup_lookup; [exact Hnd| |].
  - apply list_lookup_fmap_Some. by exists x.
  - apply list_lookup_fmap_Some. by exists y.
Qed.

Lemma freq_inv_increment m p c c' :
  freq_inv m no_member no_element c ->
  (p < nextEntry c)%positive ->
  incrementEntryFrequency p c = Done c' ->
  freq_inv m no_member no_element c' /\ nextEntry c' = nextEntry c
  /\ entries c' = entries c.
Proof.
  intros Hinv Hp. unfold incrementEntryFrequency.
  pose proof Hinv as
    [Hkey Hmfresh Hparent Hmember Hnonempty Hinc Hnodup Hafresh].
  destruct (frequencyParent (heap c p)) as [l|] eqn:Hpar.
  - destruct (find_element l (freqs c)) as [[i it]|] eqn:Hfind; [|done].
    apply find_element_Some in Hfind. cbn [mbind Outcome_bind].
    assert (exists l1 c1,
      (match freqs c !! S i with
       | Some (l', it') =>
           if bool_decide (Freq it' = Freq it + 1) then (l', c)
           else new_element (Freq it + 1) (Some i) c
       | None => new_element (Freq it + 1) (Some i) c
       end) = (l1, c1)
      /\ freq_inv m no_member (fun l0 => l0 = l1) c1
      /\ (exists it1, (l1, it1) ∈ freqs c1)
      /\ heap c1 = heap c /\ nextEntry c1 = nextEntry c
      /\ entries c1 = entries c /\ l1 <> l)
      as (l1 & c1 & -> & Hinv1 & Hl1 & Hheap & HnE & Hent & Hne).
    { assert (nextElement c <> l) as Hfresh.
      { apply list_elem_of_lookup_2, Hafresh in Hfind. lia. }
      pose proof (freq_inv_new_element m (Freq it + 1) (Some i) c Hinv) as Hnew.
      destruct (freqs c !! S i) as [[l' it']|] eqn:Hnext.
      - case_bool_decide as Hfreq.
        + exists l', c. split; [done|]. split.
          { eapply freq_inv_weaken; [| |exact Hinv]; done. }
          split; [eauto using list_elem_of_lookup_2|]. split; [done|].
          split; [done|]. split; [done|].
          refine (nodup_fst_lookup_ne _ (S i) i (l', it') (l, it) Hnodup Hnext
                    Hfind _). lia.
        + destruct Hnew as (? & Hl1 & ? & ? & ? & ?).
          { exists l, it. split; [done|]. split; [done|].
            intros y Hy. assert (y = (l', it')) as -> by congruence. done. }
          destruct (new_element (Freq it + 1) (Some i) c) as [l1 c1].
          simpl in *. subst l1. by exists (nextElement c), c1.
      - destruct Hnew as (? & Hl1 & ? & ? & ? & ?).
        { exists l, it. split; [done|]. split; [done|]. intros y Hy. congruence. }
        destruct (new_element (Freq it + 1) (Some i) c) as [l1 c1].
        simpl in *. subst l1. by exists (nextElement c), c1. }
    intros [= <-]. unfold removeEntryFromFrequencyList in *.
    split.
    2:{ unfold remove_from_element. cbn [freqs set_freqs].
        repeat case_match; cbn; done. }
    apply freq_inv_remove_from_element.
    + eapply freq_inv_weaken;
        [| |apply (freq_inv_add m (fun l0 => l0 = l1) l1 p c1)]; eauto.
      * intros l0 q (_ & -> & Hold). rewrite Hheap, Hpar in Hold.
        by injection Hold as ->.
      * by rewrite HnE.
    + intros k Hk. cbn. unfold insert, fn_insert. rewrite decide_True by done.
      cbn. congruence.
  - cbn [mbind Outcome_bind].
    assert (exists l1 c1,
      (match Front (freqs c) with
       | Some (l', it') =>
           if bool_decide (Freq it' = 1) then (l', c)
           else new_element 1 None c
       | None => new_element 1 None c
       end) = (l1, c1)
      /\ freq_inv m no_member (fun l0 => l0 = l1) c1
      /\ (exists it1, (l1, it1) ∈ freqs c1)
      /\ heap c1 = heap c /\ nextEntry c1 = nextEntry c
      /\ entries c1 = entries c)
      as (l1 & c1 & -> & Hinv1 & Hl1 & Hheap & HnE & Hent).
    { pose proof (freq_inv_new_element m 1 None c Hinv) as Hnew.
      unfold Front in *.
      destruct (freqs c !! O) as [[l' it']|] eqn:Hfront.
      - case_bool_decide as Hfreq.
        + exists l', c. split; [done|]. split.
          { eapply freq_inv_weaken; [| |exact Hinv]; done. }
          split; [eauto using list_elem_of_lookup_2|]. done.
        + destruct Hnew as (? & Hl1 & ? & ? & ? & ?).
          { split; [done|]. intros y Hy.
            assert (y = (l', it')) as -> by congruence. done. }
          destruct (new_element 1 None c) as [l1 c1].
          simpl in *. subst l1. by exists (nextElement c), c1.
      - destruct Hnew as (? & Hl1 & ? & ? & ? & ?).
        { split; [done|]. intros y Hy. congruence. }
        destruct (new_element 1 None c) as [l1 c1].
        simpl in *. subst l1. by exists (nextElement c), c1. }
    intros [= <-]. split; [|done].
    eapply freq_inv_weaken;
      [| |apply (freq_inv_add m (fun l0 => l0 = l1) l1 p c1)]; eauto.
    + intros l0 q (_ & -> & Hold). rewrite Hheap, Hpar in Hold. done.
    + by rewrite HnE.
Qed.

End FreqInv.

Section Entries.
Context {V : Type} `{Payload V}.
Implicit Types (c : Cache V) (p q : eptr) (l : lptr) (m : gmap string eptr).

Lemma entries_removeExistingEntryReferences p c :
  entries (removeExistingEntryReferences p c) = entries c.
Proof. unfold removeExistingEntryReferences. by repeat case_match. Qed.

Lemma entries_moveExistingEntryToHead p c :
  entries (moveExistingEntryToHead p c) = entries c.
Proof.
  unfold moveExistingEntryToHead.
  set (c1 := if negb _ then _ else c).
  assert (entries c1 = entries c) as <-.
  { subst c1. destruct (negb _); [|done].
    apply entries_removeExistingEntryReferences. }
  generalize c1. intros c2. by repeat case_match.
Qed.

Lemma entries_release_memory e c : entries (release_memory e c) = entries c.
Proof. unfold release_memory. by case_match. Qed.
Lemma entries_charge_memory e c : entries (charge_memory e c) = entries c.
Proof. unfold charge_memory. by case_match. Qed.
Lemma entries_remove_from_element l p c :
  entries (remove_from_element l p c) = entries c.
Proof. unfold remove_from_element. by repeat case_match. Qed.

Lemma lfu_inv_intro c m :
  entries c = m -> freq_inv m no_member no_element c -> lfu_inv c.
Proof. intros <-. done. Qed.

Lemma same_view_remove_from_element_nextEntry l p c :
  nextEntry (remove_from_element l p c) = nextEntry c.
Proof. unfold remove_from_element. by repeat case_match. Qed.

Lemma not_mapped_after_delete m exM exN c p k :
  freq_inv m exM exN c -> delete (Key (heap c p)) m !! k = Some p -> False.
Proof.
  intros Hinv [Hk Hm]%lookup_delete_Some. apply Hk.
  eapply inv_key; eauto.
Qed.

Lemma Key_removeExistingEntryReferences p q c :
  Key (heap (removeExistingEntryReferences p c) q) = Key (heap c q).
Proof.
  assert (same_view c (removeExistingEntryReferences p c)) as (_&_&_&Hh)
    by auto with view. apply Hh.
Qed.

Lemma entries_evict_entry item p c :
  entries (evict_entry item p c) = delete (Key (heap c p)) (entries c).
Proof.
  unfold evict_entry. rewrite entries_release_memory.
  cbn [entries count_evicted set_stats]. rewrite entries_remove_from_element.
  cbn [entries set_entries].
  by rewrite entries_removeExistingEntryReferences,
    Key_removeExistingEntryReferences.
Qed.

Lemma nextEntry_evict_entry item p c :
  nextEntry (evict_entry item p c) = nextEntry c.
Proof.
  unfold evict_entry.
  match goal with |- nextEntry (release_memory ?e (count_evicted ?c3)) = _ =>
    assert (same_view c3 (release_memory e (count_evicted c3))) as (_&->&_)
      by auto with view end.
  rewrite same_view_remove_from_element_nextEntry. cbn [nextEntry set_entries].
  assert (same_view c (removeExistingEntryReferences p c)) as (_&->&_)
    by auto with view. done.
Qed.

Lemma lfu_inv_evict_entry item p c :
  lfu_inv c ->
  lfu_inv (evict_entry item p c) /\ nextEntry (evict_entry item p c) = nextEntry c.
Proof.
  intros Hinv. split; [|apply nextEntry_evict_entry].
  eapply lfu_inv_intro; [apply entries_evict_entry|]. unfold evict_entry.
  eapply freq_inv_view;
    [|apply (freq_inv_remove_from_element _ item p
               (set_entries
                  (delete (Key (heap (removeExistingEntryReferences p c) p))
                     (entries (removeExistingEntryReferences p c)))
                  (removeExistingEntryReferences p c)))].
  - auto with view.
  - eapply freq_inv_weaken with (exM := no_member) (exN := no_element);
      [done|done|].
    eapply freq_inv_view with (c := c); [auto with view|].
    eapply freq_inv_subseteq; [apply delete_subseteq|exact Hinv].
  - intros k Hk. exfalso. eapply not_mapped_after_delete; eauto.
Qed.

Lemma lfu_inv_evict_entries item ps c :
  lfu_inv c ->
  lfu_inv (foldl (fun c entry => evict_entry item entry c) c ps)
  /\ nextEntry (foldl (fun c entry => evict_entry item entry c) c ps)
     = nextEntry c.
Proof.
  revert c. induction ps as [|p ps IH]; intros c Hinv; [done|]. simpl.
  destruct (lfu_inv_evict_entry item p c Hinv) as [Hinv' HnE].
  destruct (IH _ Hinv') as [? ->]. done.
Qed.

Context `{RangeOrder}.

Lemma lfu_inv_evict c :
  lfu_inv c -> lfu_inv (evict c) /\ nextEntry (evict c) = nextEntry c.
Proof.
  intros Hinv. unfold evict.
  destruct (_ || _); [done|]. case_bool_decide.
  - destruct (Front (freqs c)) as [[item it]|]; [|done].
    by apply lfu_inv_evict_entries.
  - destruct (tail c) as [oldTail|]; [|done].
    split.
    + eapply lfu_inv_intro with
        (m := delete (Key (heap c oldTail)) (entries c)).
      * cbn [entries count_evicted set_stats].
        rewrite entries_release_memory. cbn [entries set_entries].
        by rewrite entries_removeExistingEntryReferences,
          Key_removeExistingEntryReferences.
      * eapply freq_inv_view with (c := c); [auto 10 with view|].
        eapply freq_inv_subseteq; [apply delete_subseteq|exact Hinv].
    + match goal with |- nextEntry ?c' = _ =>
        assert (same_view c c') as (_&->&_) by auto 10 with view end. done.
Qed.

Lemma lfu_inv_evict_loop fuel c c' :
  lfu_inv c -> evict_loop fuel c = Done c' ->
  lfu_inv c' /\ nextEntry c' = nextEntry c.
Proof.
  revert c. induction fuel as [|fuel IH]; intros c Hinv; simpl.
  - destruct (_ && _); [done|]. by intros [= <-].
  - destruct (_ && _); [|by intros [= <-]].
    destruct (lfu_inv_evict c Hinv) as [Hinv' HnE]. intros Hloop.
    destruct (IH _ Hinv' Hloop) as [? ->]. done.
Qed.

Lemma lfu_inv_delete_entry key c b c' :
  lfu_inv c -> delete_entry key c = Done (b, c') ->
  lfu_inv c' /\ nextEntry c' = nextEntry c.
Proof.
  intros Hinv. unfold delete_entry.
  destruct (entries c !! key) as [p|] eqn:Hkey; [|by intros [= <- <-]].
  set (c1 := release_memory (heap c p) c).
  assert (same_view c c1) as Hv1 by (subst c1; auto with view).
  assert (entries c1 = entries c) as He1 by apply entries_release_memory.
  assert (freq_inv (delete key (entries c)) no_member no_element c1) as Hinv1.
  { eapply freq_inv_view; [exact Hv1|].
    eapply freq_inv_subseteq; [apply delete_subseteq|exact Hinv]. }
  assert (forall c2, (c2 = c1 \/ exists l, c2 = remove_from_element l p c1 /\
                        frequencyParent (heap c1 p) = Some l) ->
            freq_inv (delete key (entries c)) no_member no_element c2
            /\ entries c2 = entries c /\ nextEntry c2 = nextEntry c) as Hstep.
  { intros c2 [->|(l & -> & Hpar)].
    - split; [done|]. split; [done|]. apply Hv1.
    - split; [|split].
      + apply freq_inv_remove_from_element.
        * eapply freq_inv_weaken; [| |exact Hinv1]; done.
        * intros k [Hk Hm]%lookup_delete_Some. exfalso. apply Hk.
          transitivity (Key (heap c p)); [symmetry|]; eapply inv_key; eauto.
      + by rewrite entries_remove_from_element.
      + rewrite same_view_remove_from_element_nextEntry. apply Hv1. }
  assert (forall c2, freq_inv (delete key (entries c)) no_member no_element c2
            /\ entries c2 = entries c /\ nextEntry c2 = nextEntry c ->
     let c' := set_entries (delete key (entries (removeExistingEntryReferences p c2)))
                 (removeExistingEntryReferences p c2) in
     lfu_inv c' /\ nextEntry c' = nextEntry c) as Hfin.
  { intros c2 (Hinv2 & He2 & HnE2) c3. split.
    - eapply lfu_inv_intro; [|eapply freq_inv_view; [|exact Hinv2]].
      + subst c3. cbn [entries set_entries].
        by rewrite entries_removeExistingEntryReferences, He2.
      + subst c3. auto with view.
    - rewrite <- HnE2. subst c3. cbn [nextEntry set_entries].
      assert (same_view c2 (removeExistingEntryReferences p c2)) as (_&->&_)
        by auto with view. done. }
  fold c1. case_bool_decide as Hpol.
  - unfold removeEntryFromFrequencyList.
    destruct (frequencyParent (heap c1 p)) as [l|] eqn:Hpar; [|done].
    cbn [mbind Outcome_bind]. intros [= <- <-].
    apply Hfin, Hstep. right. eauto.
  - cbn [mbind Outcome_bind]. intros [= <- <-]. apply Hfin, Hstep. by left.
Qed.

End Entries.

(** Reduces [entries] of a cache that went through operations that leave
    the map alone. *)
Ltac entries_simpl :=
  repeat first
    [ rewrite entries_release_memory
    | rewrite entries_charge_memory
    | rewrite entries_moveExistingEntryToHead
    | rewrite entries_removeExistingEntryReferences
    | progress cbn [entries update set_heap set_head set_tail set_stats
                    set_memoryUsage set_nextEntry set_entries count_hits count_miss
                    count_expired count_evicted] ].

Section Critical.
Context {V : Type} `{Payload V} `{RangeOrder}.
Implicit Types (c : Cache V) (p q : eptr) (l : lptr) (m : gmap string eptr).

Lemma lfu_inv_same c c' :
  same_view c c' -> entries c' = entries c -> lfu_inv c -> lfu_inv c'.
Proof.
  intros Hv He Hinv. eapply lfu_inv_intro; [exact He|].
  eapply freq_inv_view; eauto.
Qed.

Lemma lfu_inv_SetWithTTL_bounds fuel entry ttl now c c' :
  lfu_inv c -> (entry < nextEntry c)%positive ->
  SetWithTTL_bounds fuel entry ttl now c = Done c' -> lfu_inv c'.
Proof.
  intros Hinv Hentry. unfold SetWithTTL_bounds.
  set (c1 := update entry (set_Expiration (expiration_for ttl now)) c).
  assert (lfu_inv c1 /\ nextEntry c1 = nextEntry c) as [Hinv1 HnE1].
  { split; [|done]. eapply lfu_inv_same; [| |exact Hinv]; [|done].
    subst c1. auto with view. }
  clearbody c1. destruct (_ && _); [by intros [= <-]|].
  set (c2 := if _ && _ then evict c1 else c1).
  assert (lfu_inv c2 /\ nextEntry c2 = nextEntry c) as [Hinv2 HnE2].
  { subst c2. destruct (_ && _); [|done].
    destruct (lfu_inv_evict c1 Hinv1) as [? ->]. done. }
  clearbody c2.
  destruct (if _ && _ then evict_loop fuel c2 else Done c2)
    as [c3| |] eqn:Hloop; [|done|done].
  assert (lfu_inv c3 /\ nextEntry c3 = nextEntry c) as [Hinv3 HnE3].
  { destruct (_ && _).
    - destruct (lfu_inv_evict_loop _ _ _ Hinv2 Hloop) as [? ->]. done.
    - by injection Hloop as <-. }
  cbn [mbind Outcome_bind].
  destruct (bool_decide (evictionPolicy c3 = _)); [|by intros [= <-]].
  intros Hincr.
  eapply freq_inv_increment in Hincr as (Hinv' & HnE' & He'); [| exact Hinv3 |].
  - by eapply lfu_inv_intro.
  - by rewrite HnE3.
Qed.

Lemma lfu_inv_alloc key value now c :
  lfu_inv c ->
  freq_inv (<[key := nextEntry c]> (entries c)) no_member no_element
    (set_heap
       (<[nextEntry c := mkEntry key value now 0 (head c) None None]> (heap c))
       (set_nextEntry (Pos.succ (nextEntry c)) c)).
Proof.
  intros [Hkey Hmfresh Hparent Hmember Hnonempty Hinc Hnodup Hafresh].
  remember (nextEntry c) as p eqn:Hp.
  set (c2 := set_heap _ _).
  assert (forall q, (q < p)%positive -> heap c2 q = heap c q) as Hold.
  { intros q Hq. subst c2. cbn. unfold insert, fn_insert.
    rewrite decide_False; [done|]. lia. }
  assert (heap c2 p = mkEntry key value now 0 (head c) None None) as Hnew.
  { subst c2. cbn. unfold insert, fn_insert. by rewrite decide_True. }
  assert (nextEntry c2 = Pos.succ p) as HnE by done.
  assert (freqs c2 = freqs c) as Hfs by done.
  assert (nextElement c2 = nextElement c) as HnL by done.
  clearbody c2. constructor; rewrite ?HnE, ?Hfs, ?HnL; eauto.
  - intros k q [[-> <-]|[Hk Hq]]%lookup_insert_Some.
    + by rewrite Hnew.
    + rewrite Hold; eauto.
  - intros k q [[-> <-]|[Hk Hq]]%lookup_insert_Some; [lia|].
    apply Hmfresh in Hq. lia.
  - intros k q l [[-> <-]|[Hk Hq]]%lookup_insert_Some.
    + by rewrite Hnew.
    + rewrite Hold; eauto.
  - intros l it q Hin Hq _. destruct (Hmember _ _ _ Hin Hq) as [Hpar Hfresh];
      [by intros []|].
    rewrite Hold by done. split; [done|]. lia.
Qed.

Lemma lfu_inv_create_entry key value now c :
  lfu_inv c ->
  lfu_inv (create_entry key value now c).2
  /\ ((create_entry key value now c).1
      < nextEntry (create_entry key value now c).2)%positive.
Proof.
  intros Hinv. pose proof (lfu_inv_alloc key value now c Hinv) as Halloc.
  unfold create_entry. cbn [fst snd]. split.
  - eapply lfu_inv_intro; [|eapply freq_inv_view; [|exact Halloc]].
    + entries_simpl. destruct (head _); by entries_simpl.
    + destruct (head _); auto 10 with view.
  - match goal with |- (_ < nextEntry ?c')%positive =>
      assert (nextEntry c' = Pos.succ (nextEntry c)) as ->
    end; [|lia].
    rewrite (proj1 (proj2 (sv_charge_memory _ _ _ (same_view_refl _)))).
    cbn [nextEntry set_entries set_head]. by destruct (head _).
Qed.

Lemma lfu_inv_SetWithTTL_locked fuel key value ttl now c c' :
  lfu_inv c ->
  SetWithTTL_locked fuel key value ttl now c = Done (tt, c') -> lfu_inv c'.
Proof.
  intros Hinv. unfold SetWithTTL_locked, get.
  destruct (entries c !! key) as [entry|] eqn:Hget.
  - destruct (_ && _).
    + destruct (delete_entry key c) as [[b c1]| |] eqn:Hdel; [|done|done].
      cbn [mbind Outcome_bind]. intros [= <-].
      by eapply lfu_inv_delete_entry.
    + match goal with
      | |- (?m ≫= _) = _ -> _ => destruct m as [c1| |] eqn:Hb; [|done|done]
      end.
      cbn [mbind Outcome_bind]. intros [= <-].
      eapply lfu_inv_SetWithTTL_bounds in Hb; [done| |].
      * eapply lfu_inv_same; [| |exact Hinv].
        -- auto 10 with view.
        -- by entries_simpl.
      * match goal with |- (_ < nextEntry ?c')%positive =>
          assert (same_view c c') as (_&->&_) by auto 10 with view end.
        eapply inv_mapped_fresh; eauto.
  - destruct (_ && _); [by intros [= <-]|].
    destruct (create_entry key value now c) as [entry c0] eqn:Hcreate.
    destruct (SetWithTTL_bounds fuel entry ttl now c0) as [c1| |] eqn:Hb;
      [|done|done].
    cbn [mbind Outcome_bind]. intros [= <-].
    destruct (lfu_inv_create_entry key value now c Hinv) as [Hinv0 Hfresh].
    rewrite Hcreate in Hinv0, Hfresh.
    by eapply lfu_inv_SetWithTTL_bounds in Hb.
Qed.

Lemma lfu_inv_Get_locked key now c r c' :
  lfu_inv c -> Get_locked key now c = Done (r, c') -> lfu_inv c'.
Proof.
  intros Hinv. unfold Get_locked, get.
  destruct (entries c !! key) as [entry|] eqn:Hget.
  2:{ intros [= <- <-]. eapply lfu_inv_same; [| |exact Hinv]; auto with view. }
  destruct (Expired _ _).
  - destruct (delete_entry key _) as [[b c1]| |] eqn:Hdel; [|done|done].
    cbn [mbind Outcome_bind]. intros [= <- <-].
    eapply lfu_inv_delete_entry in Hdel as [? _]; [done|].
    eapply lfu_inv_same; [| |exact Hinv]; auto with view.
  - set (c1 := count_hits 1 c).
    assert (lfu_inv c1 /\ nextEntry c1 = nextEntry c) as [Hinv1 HnE1].
    { split; [|done]. eapply lfu_inv_same; [| |exact Hinv]; subst c1;
        auto with view. }
    clearbody c1.
    set (moved := if bool_decide (evictionPolicy c1 = LeastRecentlyUsed)
                  then _ else _).
    assert (exists c2, (moved = inl c2 \/ moved = inr c2)
              /\ lfu_inv c2 /\ nextEntry c2 = nextEntry c) as (c2 & Hm & Hinv2 & HnE2).
    { subst moved. destruct (bool_decide (evictionPolicy c1 = _)).
      - destruct (bool_decide (head _ = _)); eexists; (split; [eauto|]);
          (split; [eapply lfu_inv_same; [| |exact Hinv1];
                     [auto with view|by entries_simpl]|]);
          rewrite <- HnE1.
        + done.
        + match goal with |- nextEntry ?c' = _ =>
            assert (same_view c1 c') as (_&->&_) by auto with view end. done.
      - eauto. }
    clearbody moved. destruct Hm as [-> | ->].
    { intros [= <- <-]. done. }
    destruct (bool_decide (evictionPolicy c2 = _)).
    + destruct (incrementEntryFrequency entry c2) as [c3| |] eqn:Hincr;
        [|done|done].
      cbn [mbind Outcome_bind]. intros [= <- <-].
      eapply freq_inv_increment in Hincr as (Hinv' & HnE' & He');
        [| exact Hinv2 |].
      * by eapply lfu_inv_intro.
      * rewrite HnE2. eapply inv_mapped_fresh; eauto.
    + cbn [mbind Outcome_bind]. intros [= <- <-]. done.
Qed.

Lemma lfu_inv_GetAll_loop now kes found c r c' :
  lfu_inv c -> GetAll_loop now kes found c = Done (r, c') -> lfu_inv c'.
Proof.
  revert found c. induction kes as [|[key entry] kes IH]; intros found c Hinv;
    simpl; [by intros [= <- <-]|].
  destruct (Expired _ _); [|by apply IH].
  destruct (delete_entry key c) as [[b c1]| |] eqn:Hdel; [|done|done].
  cbn [mbind Outcome_bind]. apply IH.
  by eapply lfu_inv_delete_entry in Hdel as [? _].
Qed.

Lemma lfu_inv_GetAll_locked now c r c' :
  lfu_inv c -> GetAll_locked now c = Done (r, c') -> lfu_inv c'.
Proof.
  intros Hinv. unfold GetAll_locked.
  destruct (GetAll_loop _ _ _ _) as [[found c1]| |] eqn:Hloop; [|done|done].
  cbn [mbind Outcome_bind]. intros [= <- <-].
  apply lfu_inv_GetAll_loop in Hloop; [|done].
  eapply lfu_inv_same; [| |exact Hloop]; auto with view.
Qed.

Lemma lfu_inv_DeleteAll_loop keys n c r c' :
  lfu_inv c -> DeleteAll_loop keys n c = Done (r, c') -> lfu_inv c'.
Proof.
  revert n c. induction keys as [|key keys IH]; intros n c Hinv;
    simpl; [by intros [= <- <-]|].
  destruct (delete_entry key c) as [[b c1]| |] eqn:Hdel; [|done|done].
  cbn [mbind Outcome_bind]. apply IH.
  by eapply lfu_inv_delete_entry in Hdel as [? _].
Qed.

Lemma lfu_inv_Clear_locked c : lfu_inv c -> lfu_inv (Clear_locked c).
Proof.
  intros Hinv. eapply lfu_inv_intro with (m := ∅); [done|].
  eapply freq_inv_view with (c := c); [unfold Clear_locked; auto 10 with view|].
  eapply freq_inv_subseteq; [apply map_empty_subseteq|exact Hinv].
Qed.

Lemma lfu_inv_janitor_walk remaining found current now c r c' :
  lfu_inv c -> janitor_walk remaining found current now c = Done (r, c') ->
  lfu_inv c'.
Proof.
  revert found current c.
  induction remaining as [|remaining IH]; intros found current c Hinv;
    destruct current as [cur|]; simpl; try by intros [= <- <-].
  match goal with
  | |- (?m ≫= _) = _ -> _ =>
      destruct m as [[[found1 previous1] c1]| |] eqn:Hstep; [|done|done]
  end.
  assert (lfu_inv c1) as Hinv1.
  { destruct (Expired _ _); [|by injection Hstep as <- <- <-].
    destruct (delete_entry _ c) as [[b c2]| |] eqn:Hdel; [|done|done].
    cbn [mbind Outcome_bind] in Hstep. injection Hstep as <- <- <-.
    eapply lfu_inv_delete_entry in Hdel as [? _]; [|done].
    eapply lfu_inv_same; [| |eassumption]; auto with view. }
  cbn [mbind Outcome_bind].
  destruct (bool_decide (Some cur = _)); [by intros [= <- <-]|].
  destruct (_ || _); [by intros [= <- <-]|]. by apply IH.
Qed.

Lemma lfu_inv_janitor_shift lastTraversedNode now c r c' :
  lfu_inv c -> janitor_shift lastTraversedNode now c = Done (r, c') ->
  lfu_inv c'.
Proof.
  intros Hinv. unfold janitor_shift.
  destruct (tail c); [|by intros [= <- <-]]. by apply lfu_inv_janitor_walk.
Qed.

End Critical.

Section Ops.
Context {V : Type} `{Payload V} `{RangeOrder} `{PatternMatcher}.
Implicit Types (c : Cache V) (P : Cache V -> Prop).


Lemma op_preserves_ret {A} P (a : A) : op_preserves P (op_ret a).
Proof. intros c r c' HP [= <- <-]. done. Qed.

Lemma op_preserves_bind {A B} P (m : Op V A) (k : A -> Op V B) :
  op_preserves P m -> (forall a, op_preserves P (k a)) ->
  op_preserves P (op_bind m k).
Proof.
  intros Hm Hk c r c' HP. unfold run, op_bind.
  destruct (m c) as [[[a c1]| |] t] eqn:Hmc; [|done|done].
  destruct (k a c1) as [r1 t1] eqn:Hkc. simpl. intros ->.
  eapply (Hk a c1); [|unfold run; by rewrite Hkc].
  eapply (Hm c); [done|unfold run; by rewrite Hmc].
Qed.

Lemma op_preserves_emit P e : op_preserves P (emit e).
Proof. intros c r c' HP [= <- <-]. done. Qed.
Lemma op_preserves_config {A} P (f : Cache V -> A) : op_preserves P (config f).
Proof. intros c r c' HP [= <- <-]. done. Qed.
Lemma op_preserves_reads {A} P (f : Cache V -> A) : op_preserves P (reads f).
Proof. intros c r c' HP [= <- <-]. done. Qed.
Lemma op_preserves_writes {A} (P : Cache V -> Prop)
    (f : Cache V -> Outcome (A * Cache V)) :
  (forall c r c', P c -> f c = Done (r, c') -> P c') -> op_preserves P (writes f).
Proof. intros Hf c r c' HP Hrun. by eapply Hf. Qed.
Lemma op_preserves_modifies (P : Cache V -> Prop) (f : Cache V -> Cache V) :
  (forall c, P c -> P (f c)) -> op_preserves P (modifies f).
Proof. intros Hf c r c' HP [= <- <-]. auto. Qed.

Lemma op_preserves_forget {A} P (op : Op V A) :
  op_preserves P op -> op_preserves P (forget op).
Proof.
  intros Hop. unfold forget. apply op_preserves_bind; [done|].
  intros a. apply op_preserves_ret.
Qed.

End Ops.

(** Decomposes a public operation into its steps. *)
Ltac op_steps :=
  repeat first
    [ apply op_preserves_bind; [|intros ?]
    | apply op_preserves_ret
    | apply op_preserves_emit
    | apply op_preserves_config
    | apply op_preserves_reads ].

(** *** From the critical sections to the calls *)

Section Calls.
Context {V : Type} `{Payload V} `{RangeOrder} `{PatternMatcher}.
Variable P : Cache V -> Prop.
Hypothesis P_SetWithTTL_locked : forall fuel key value ttl now c r c',
  P c -> SetWithTTL_locked fuel key value ttl now c = Done (r, c') -> P c'.
Hypothesis P_Get_locked : forall key now c r c',
  P c -> Get_locked key now c = Done (r, c') -> P c'.
Hypothesis P_GetAll_locked : forall now c r c',
  P c -> GetAll_locked now c = Done (r, c') -> P c'.
Hypothesis P_delete_entry : forall key c r c',
  P c -> delete_entry key c = Done (r, c') -> P c'.
Hypothesis P_DeleteAll_loop : forall keys n c r c',
  P c -> DeleteAll_loop keys n c = Done (r, c') -> P c'.
Hypothesis P_Clear_locked : forall c, P c -> P (Clear_locked c).
Hypothesis P_janitor_shift : forall lastTraversedNode now c r c',
  P c -> janitor_shift lastTraversedNode now c = Done (r, c') -> P c'.
Hypothesis P_Expiration : forall p x c,
  P c -> P (update p (set_Expiration x) c).

(** A property kept by the critical sections is kept by every call. *)
Lemma op_preserves_call fuel now cl : op_preserves P (call fuel now cl).
Proof.
  assert (forall fuel key value ttl now,
            op_preserves P (SetWithTTL fuel key value ttl now)) as HSet.
  { intros. unfold SetWithTTL, Lock, Unlock. op_steps.
    apply op_preserves_writes. intros c r c'. apply P_SetWithTTL_locked. }
  assert (forall key now, op_preserves P (Get key now)) as HGet.
  { intros. unfold Get, Lock, Unlock. op_steps.
    - apply op_preserves_writes. intros c r c'. apply P_Get_locked.
    - match goal with
      | |- op_preserves _ (match ?r with _ => _ end) => destruct r
      end; op_steps. }
  assert (forall pattern limit now,
            op_preserves P (GetKeysByPattern pattern limit now)) as HKeys.
  { intros. unfold GetKeysByPattern, Lock, Unlock. op_steps. }
  assert (forall keys, op_preserves P (DeleteAll keys)) as HDeleteAll.
  { intros. unfold DeleteAll, Lock, Unlock. op_steps.
    apply op_preserves_writes. intros c r c'. apply P_DeleteAll_loop. }
  destruct cl; cbn [call]; try apply op_preserves_forget.
  - apply HSet.
  - apply HSet.
  - unfold SetAll. generalize (range_map kvs). intros kvl.
    induction kvl as [|[key value] kvl IH]; cbn [SetAll_loop].
    + apply op_preserves_ret.
    + apply op_preserves_bind; [apply HSet|done].
  - apply HGet.
  - unfold GetValue.
    apply op_preserves_bind; [apply HGet|intros r; apply op_preserves_ret].
  - unfold GetByKeys. generalize (∅ : gmap string V).
    induction keys as [|key keys IH]; intros found; cbn [GetByKeys_loop].
    + apply op_preserves_ret.
    + apply op_preserves_bind; [apply HGet|intros r; apply IH].
  - unfold GetAll, Lock, Unlock. op_steps. apply op_preserves_writes.
    intros c r c'. apply P_GetAll_locked.
  - apply HKeys.
  - unfold Delete, Lock, Unlock. op_steps. apply op_preserves_writes.
    intros c r c'. apply P_delete_entry.
  - apply HDeleteAll.
  - unfold DeleteKeysByPattern.
    apply op_preserves_bind; [apply HKeys|intros keys; apply HDeleteAll].
  - unfold Count, RLock, RUnlock. op_steps.
  - unfold Clear, Lock, Unlock. op_steps.
    apply op_preserves_modifies, P_Clear_locked.
  - unfold TTL, RLock, RUnlock. op_steps. destruct a0 as [entry|]; op_steps.
    case_bool_decide; op_steps. destruct (_ <? _); op_steps.
  - unfold Expire. op_steps. destruct a as [entry|]; op_steps.
    destruct a; op_steps. apply op_preserves_modifies. apply P_Expiration.
  - unfold Stats, RLock, RUnlock. op_steps.
  - unfold MemoryUsage. op_steps.
  - unfold JanitorShift, Lock, Unlock. op_steps. apply op_preserves_writes.
    intros c r c'. apply P_janitor_shift.
Qed.

End Calls.

Section Reachable.
Context {V : Type} `{Payload V} `{RangeOrder} `{PatternMatcher}.
Implicit Types (c : Cache V).

Lemma lfu_inv_call fuel now cl : op_preserves (V:=V) lfu_inv (call fuel now cl).
Proof.
  apply (op_preserves_call lfu_inv).
  - intros fuel' key value ttl now' c [] c'. apply lfu_inv_SetWithTTL_locked.
  - exact lfu_inv_Get_locked.
  - exact lfu_inv_GetAll_locked.
  - intros key c r c' Hinv Hdel.
    by eapply lfu_inv_delete_entry in Hdel as [? _].
  - exact lfu_inv_DeleteAll_loop.
  - exact lfu_inv_Clear_locked.
  - exact lfu_inv_janitor_shift.
  - intros p x c Hinv. eapply lfu_inv_same; [| |exact Hinv]; auto with view.
Qed.

Lemma lfu_inv_NewCache opts : lfu_inv (V:=V) (NewCache opts).
Proof.
  unfold NewCache.
  set (c0 := mkCache _ _ _ _ _ _ _ _ _ _ _ _ _).
  assert (entries c0 = ∅ /\ freqs c0 = []) as Hc0 by done.
  clearbody c0. revert c0 Hc0.
  induction opts as [|o opts IH]; intros c0 [He Hf]; simpl.
  - constructor; rewrite ?He, ?Hf; try done.
    + intros l it q Hin. by apply elem_of_nil in Hin.
    + intros l it Hin. by apply elem_of_nil in Hin.
    + constructor.
    + intros l it Hin. by apply elem_of_nil in Hin.
  - apply IH. destruct o; simpl; rewrite ?He, ?Hf; repeat case_match; done.
Qed.

Lemma reachable_lfu_inv c : reachable c -> lfu_inv c.
Proof.
  induction 1 as [opts|c c' fuel now cl _ IH Hrun].
  - apply lfu_inv_NewCache.
  - eapply lfu_inv_call; eauto.
Qed.

End Reachable.

Section Loop.
Context {V : Type} `{Payload V} `{RangeOrder}.

Lemma evict_LFU_empty_index (c : Cache V) :
  evictionPolicy c = LeastFrequentUsed -> freqs c = [] -> evict c = c.
Proof.
  intros Hpol Hfs. unfold evict. destruct (_ || _); [done|].
  rewrite bool_decide_eq_true_2 by done. by rewrite Hfs.
Qed.

Lemma evict_loop_stuck fuel (c : Cache V) :
  evict c = c ->
  (maxMemoryUsage c <? memoryUsage c) && (0 <? len_entries c) = true ->
  evict_loop fuel c = OutOfFuel.
Proof.
  intros Hev Hcond. induction fuel as [|fuel IH]; simpl; rewrite Hcond; [done|].
  by rewrite Hev.
Qed.

Lemma create_entry_fields key value now (c : Cache V) :
  let c' := (create_entry key value now c).2 in
  (create_entry key value now c).1 = nextEntry c
  /\ evictionPolicy c' = evictionPolicy c /\ freqs c' = freqs c
  /\ maxMemoryUsage c' = maxMemoryUsage c /\ maxSize c' = maxSize c
  /\ stats c' = stats c
  /\ entries c' = <[key := nextEntry c]> (entries c)
  /\ head c' = Some (nextEntry c)
  /\ memoryUsage c' =
       if bool_decide (maxMemoryUsage c <> NoMaxMemoryUsage)
       then wrap_int (memoryUsage c + size_in_bytes key value)
       else memoryUsage c.
Proof.
  unfold create_entry, charge_memory, SizeInBytes. cbn [fst snd].
  destruct (head c) as [h|] eqn:Hhead; cbn; rewrite ?Hhead; cbn;
    unfold insert at 1 2, fn_insert;
    destruct (bool_decide (maxMemoryUsage c <> NoMaxMemoryUsage)); cbn;
    repeat split; try done.
  - unfold insert, fn_insert. destruct (decide (h = nextEntry c)) as [->|];
      cbn; rewrite ?decide_True by done; done.
  - unfold insert, fn_insert. by rewrite decide_True.
Qed.

Lemma SetWithTTL_locked_LFU_over_memory fuel key value ttl now (c : Cache V) :
  evictionPolicy c = LeastFrequentUsed ->
  freqs c = [] ->
  entries c !! key = None ->
  ttl = NoExpiration \/ 1 <= ttl ->
  maxMemoryUsage c <> NoMaxMemoryUsage ->
  maxMemoryUsage c < wrap_int (memoryUsage c + size_in_bytes key value) ->
  SetWithTTL_locked fuel key value ttl now c = OutOfFuel.
Proof.
  intros Hpol Hfs Hkey Httl Hmax Hover. unfold SetWithTTL_locked, get.
  rewrite Hkey.
  assert ((bool_decide (ttl <> NoExpiration) && (ttl <? 1)) = false) as ->.
  { destruct Httl as [->|Httl]; [done|].
    apply andb_false_iff. right. apply Z.ltb_ge. lia. }
  pose proof (create_entry_fields key value now c) as Hfields.
  destruct (create_entry key value now c) as [entry c1]. cbn [fst snd] in Hfields.
  destruct Hfields as (_ & Hpol1 & Hfs1 & Hmax1 & Hsize1 & _ & Hent1 & _ & Hmem1).
  rewrite bool_decide_eq_true_2 in Hmem1 by done.
  assert (SetWithTTL_bounds fuel entry ttl now c1 = OutOfFuel) as ->; [|done].
  unfold SetWithTTL_bounds.
  set (c2 := update _ _ c1).
  assert (evictionPolicy c2 = evictionPolicy c1 /\ freqs c2 = freqs c1
          /\ maxMemoryUsage c2 = maxMemoryUsage c1
          /\ memoryUsage c2 = memoryUsage c1
          /\ entries c2 = entries c1) as (Hpol2 & Hfs2 & Hmax2 & Hmem2 & Hent2)
    by done.
  clearbody c2.
  rewrite (bool_decide_eq_false_2 (maxMemoryUsage c2 = _)), andb_false_r
    by congruence.
  assert (evict c2 = c2) as Hev by (apply evict_LFU_empty_index; congruence).
  assert ((if bool_decide (maxSize c2 <> NoMaxSize) && (maxSize c2 <? len_entries c2)
           then evict c2 else c2) = c2) as ->.
  { by destruct (_ && _). }
  rewrite (bool_decide_eq_true_2 (maxMemoryUsage c2 <> _)) by congruence.
  assert ((maxMemoryUsage c2 <? memoryUsage c2) = true) as Hlt.
  { apply Z.ltb_lt. congruence. }
  rewrite Hlt. cbn [andb]. rewrite evict_loop_stuck; [done|done|].
  rewrite Hlt. cbn [andb]. apply Z.ltb_lt. unfold len_entries.
  rewrite Hent2, Hent1, map_size_insert_None by done. lia.
Qed.

End Loop.


Section TTL.
Context {V : Type}.


Lemma saturate_int_neg z : z < 0 -> saturate_int z < 0.
Proof.
  unfold saturate_int, min_int, max_int. intros Hz.
  destruct (Z.ltb_spec z (- 2 ^ 63)); [lia|].
  destruct (Z.ltb_spec (2 ^ 63 - 1) z); lia.
Qed.

Lemma saturate_int_id z : min_int <= z <= max_int -> saturate_int z = z.
Proof.
  unfold saturate_int. intros Hz.
  destruct (Z.ltb_spec z min_int); [lia|].
  destruct (Z.ltb_spec max_int z); lia.
Qed.

Lemma TTL_run key now (c : Cache V) :
  0 <= now ->
  (forall entry, entries c !! key = Some entry ->
     Expiration (heap c entry) <= max_int) ->
  run (TTL key now) c = Done (TTL_answer key now c, c).
Proof.
  intros Hnow Hrange. unfold run, TTL, TTL_answer, op_bind, RLock, RUnlock,
    emit, reads, op_ret, get. cbn [fst snd].
  destruct (entries c !! key) as [entry|] eqn:Hkey; [|done]. cbn [fst snd].
  specialize (Hrange entry eq_refl).
  case_bool_decide as Hnever; [done|]. cbn [fst snd].
  case_bool_decide as Hpast.
  - pose proof (saturate_int_neg (Expiration (heap c entry) - now)) as Hneg.
    destruct (Z.ltb_spec (saturate_int (Expiration (heap c entry) - now)) 0);
      [done|lia].
  - rewrite saturate_int_id by (unfold min_int, max_int in *; lia).
    destruct (Z.ltb_spec (Expiration (heap c entry) - now) 0); [lia|done].
Qed.
End TTL.

Section Locks.
Context {V : Type}.

Lemma Expire_trace_unguarded key ttl now (c : Cache V) :
  guarded (trace (Expire key ttl now) c) = false.
Proof.
  unfold trace, Expire. unfold op_bind at 1. unfold reads at 1.
  by match goal with |- context [let (_, _) := ?x in _] => destruct x end.
Qed.
End Locks.


Section Counters.
Context {V : Type} `{Payload V} `{RangeOrder} `{PatternMatcher}.
Implicit Types (c : Cache V).

Lemma same_counters_refl c : same_counters c c.
Proof. by repeat split. Qed.

Lemma same_counters_trans c1 c2 c3 :
  same_counters c1 c2 -> same_counters c2 c3 -> same_counters c1 c3.
Proof. intros (?&?&?&?) (?&?&?&?). repeat split; congruence. Qed.

Lemma sc_removeExistingEntryReferences p c :
  same_counters c (removeExistingEntryReferences p c).
Proof. unfold removeExistingEntryReferences. by repeat case_match. Qed.

Lemma sc_release_memory e c : same_counters c (release_memory e c).
Proof. unfold release_memory. by case_match. Qed.

Lemma sc_remove_from_element l p c : same_counters c (remove_from_element l p c).
Proof. unfold remove_from_element. by repeat case_match. Qed.

Lemma sc_delete_entry key c ok c' :
  delete_entry key c = Done (ok, c') -> same_counters c c'.
Proof.
  unfold delete_entry. destruct (entries c !! key) as [entry|];
    [|intros [= <- <-]; apply same_counters_refl].
  set (c1 := release_memory _ c).
  assert (same_counters c c1) as Hc1 by apply sc_release_memory. clearbody c1.
  destruct (if bool_decide _ then _ else _) as [c2| |] eqn:Hrem; [|done|done].
  assert (same_counters c1 c2) as Hc2.
  { destruct (bool_decide _).
    - unfold removeEntryFromFrequencyList in Hrem.
      destruct (frequencyParent _); [|done]. injection Hrem as <-.
      apply sc_remove_from_element.
    - injection Hrem as <-. apply same_counters_refl. }
  cbn [mbind Outcome_bind]. intros [= <- <-].
  eapply same_counters_trans; [exact Hc1|].
  eapply same_counters_trans; [exact Hc2|].
  eapply same_counters_trans; [apply sc_removeExistingEntryReferences|done].
Qed.

Lemma delete_entry_completes key c :
  evictionPolicy c <> LeastFrequentUsed -> completes (delete_entry key c).
Proof.
  intros Hpol. unfold delete_entry, completes.
  destruct (entries c !! key) as [entry|]; [|by eexists].
  destruct (sc_release_memory (heap c entry) c) as (_ & Hp & _).
  rewrite bool_decide_eq_false_2 by congruence. by eexists.
Qed.

Lemma sc_DeleteAll_loop keys n c r c' :
  DeleteAll_loop keys n c = Done (r, c') -> same_counters c c'.
Proof.
  revert n c. induction keys as [|key keys IH]; intros n c; simpl;
    [intros [= <- <-]; apply same_counters_refl|].
  destruct (delete_entry key c) as [[ok c1]| |] eqn:Hdel; [|done|done].
  cbn [mbind Outcome_bind]. intros Hloop.
  eapply same_counters_trans; [by eapply sc_delete_entry|by eapply IH].
Qed.

Lemma sc_GetAll_loop now kes found c r c' :
  GetAll_loop now kes found c = Done (r, c') -> same_counters c c'.
Proof.
  revert found c. induction kes as [|[key entry] kes IH]; intros found c; simpl;
    [intros [= <- <-]; apply same_counters_refl|].
  destruct (Expired _ _); [|by apply IH].
  destruct (delete_entry key c) as [[ok c1]| |] eqn:Hdel; [|done|done].
  cbn [mbind Outcome_bind]. intros Hloop.
  eapply same_counters_trans; [by eapply sc_delete_entry|by eapply IH].
Qed.

(** Runs of the operations, reduced to their critical sections. *)
Lemma run_exclusive {A} (f : Cache V -> Outcome (A * Cache V)) c :
  run (op_bind Lock (fun _ => op_bind (writes f) (fun r =>
         op_bind Unlock (fun _ => op_ret r)))) c = f c.
Proof.
  unfold run, op_bind, Lock, Unlock, emit, writes, op_ret. cbn.
  by destruct (f c) as [[r c']| |].
Qed.

Lemma run_Delete key c : run (Delete key) c = delete_entry key c.
Proof. apply run_exclusive. Qed.
Lemma run_DeleteAll keys c : run (DeleteAll keys) c = DeleteAll_loop keys 0 c.
Proof. apply run_exclusive. Qed.
Lemma run_Get key now c : run (Get key now) c = Get_answer key now c.
Proof.
  unfold run, Get, Get_answer, op_bind, Lock, Unlock, emit, writes, reads,
    op_ret. cbn.
  by destruct (Get_locked key now c) as [[[entry|] c']| |].
Qed.

Lemma Get_answer_inv key now c r c' :
  Get_answer key now c = Done (r, c') ->
  exists r0, Get_locked key now c = Done (r0, c').
Proof.
  unfold Get_answer.
  destruct (Get_locked key now c) as [[r0 c0]| |]; cbn [mbind Outcome_bind];
    [|discriminate..].
  intros [= _ <-]. by eexists.
Qed.

(** [Get_answer] case by case. *)
Lemma Get_answer_eq key now c :
  Get_answer key now c
  = match get c key with
    | None => Done ((vnil, false), count_miss c)
    | Some entry =>
        if Expired now (heap c entry) then
          let c := count_expired c in
          '(_, c) ← delete_entry key c;
          Done ((vnil, false), c)
        else
          let c := count_hits 1 c in
          let moved :=
            if bool_decide (evictionPolicy c = LeastRecentlyUsed) then
              let c := update entry (Accessed now) c in
              if bool_decide (head c = Some entry) then inl c
              else inr (moveExistingEntryToHead entry c)
            else inr c in
          match moved with
          | inl c => Done ((Value (heap c entry), true), c)
          | inr c =>
              c ← (if bool_decide (evictionPolicy c = LeastFrequentUsed)
                   then incrementEntryFrequency entry c
                   else Done c);
              Done ((Value (heap c entry), true), c)
          end
    end.
Proof.
  unfold Get_answer, Get_locked.
  destruct (get c key) as [entry|]; [|done].
  destruct (Expired now (heap c entry)).
  { cbv zeta. by destruct (delete_entry key (count_expired c)) as [[b c1]| |]. }
  cbv zeta.
  destruct (bool_decide (evictionPolicy (count_hits 1 c) = LeastRecentlyUsed)).
  - destruct (bool_decide (head _ = Some entry)); [done|].
    by destruct (if bool_decide _ then _ else _) as [c1| |].
  - by destruct (if bool_decide _ then _ else _) as [c1| |].
Qed.
Lemma run_GetAll now c : run (GetAll now) c = GetAll_locked now c.
Proof. apply run_exclusive. Qed.
Lemma run_Clear c : run Clear c = Done (tt, Clear_locked c).
Proof. done. Qed.
Lemma run_GetKeysByPattern pattern limit now c :
  run (GetKeysByPattern pattern limit now) c =
  Done (GetKeysByPattern_loop pattern limit now (range_map (entries c)) [] c, c).
Proof. done. Qed.
Lemma run_DeleteKeysByPattern pattern now c :
  run (DeleteKeysByPattern pattern now) c =
  DeleteAll_loop
    (GetKeysByPattern_loop pattern 0 now (range_map (entries c)) [] c) 0 c.
Proof.
  unfold DeleteKeysByPattern, run. unfold op_bind at 1.
  pose proof (run_GetKeysByPattern pattern 0 now c) as Hkeys. unfold run in Hkeys.
  destruct (GetKeysByPattern pattern 0 now c) as [o t]. simpl in Hkeys. subst o.
  pose proof (run_DeleteAll
    (GetKeysByPattern_loop pattern 0 now (range_map (entries c)) [] c) c) as Hdel.
  unfold run in Hdel. by destruct (DeleteAll _ c) as [o t'].
Qed.
Lemma run_SetWithTTL fuel key value ttl now c :
  run (SetWithTTL fuel key value ttl now) c =
  SetWithTTL_locked fuel key
    (if forceNilInterfaceOnNilPointer c && is_typed_nil_ptr value
     then vnil else value) ttl now c.
Proof.
  unfold run, SetWithTTL, op_bind, config, Lock, Unlock, emit, writes. cbn.
  by destruct (SetWithTTL_locked _ _ _ _ _ _) as [[[] c']| |].
Qed.
Lemma run_Expire key ttl now c :
  run (Expire key ttl now) c =
  match entries c !! key with
  | None => Done (false, c)
  | Some entry =>
      if Expired now (heap c entry) then Done (false, c)
      else Done (true, update entry (set_Expiration (expiration_for ttl now)) c)
  end.
Proof.
  unfold run, Expire, op_bind, reads, modifies, op_ret, get. cbn.
  destruct (entries c !! key) as [entry|]; [|done]. cbn.
  by destruct (Expired now (heap c entry)).
Qed.
Lemma run_Count c : run Count c = Done (len_entries c, c).
Proof. done. Qed.

End Counters.

Section Histories.
Context {V : Type} `{Payload V} `{RangeOrder} `{PatternMatcher}.





Lemma after_done fuel cls (c : Cache V) :
  is_done (run_calls fuel cls c) = true ->
  run_calls fuel cls c = Done (after fuel cls c).
Proof. unfold after. by destruct (run_calls fuel cls c). Qed.

Lemma run_calls_reachable fuel cls (c c' : Cache V) :
  reachable c -> run_calls fuel cls c = Done c' -> reachable c'.
Proof.
  revert c. induction cls as [|[now cl] cls IH]; intros c Hc; simpl.
  - by intros [= <-].
  - destruct (run (call fuel now cl) c) as [[[] c1]| |] eqn:Hrun; [|done|done].
    cbn [mbind Outcome_bind]. apply IH. by eapply reachable_call.
Qed.

Lemma after_reachable fuel cls (c : Cache V) :
  reachable c -> is_done (run_calls fuel cls c) = true ->
  reachable (after fuel cls c).
Proof.
  intros Hc Hdone. eapply run_calls_reachable; [exact Hc|].
  by apply after_done.
Qed.
End Histories.


(** *** The recency chain under FIFO and LRU *)

Section Chain.
Context {V : Type} `{Payload V} `{RangeOrder}.
Implicit Types (c : Cache V) (p q : eptr) (l : list eptr)
  (h : eptr -> Entry V).

(** Membership in lists built with [::] and [++], with [NoDup] facts. *)
Ltac list_solver :=
  repeat match goal with
  | H : NoDup (_ :: _) |- _ => apply NoDup_cons in H as [? ?]
  end;
  repeat (rewrite ?elem_of_cons, ?elem_of_app in * );
  intuition congruence.

Lemma linked_frame h h' prev l :
  (forall q, q ∈ l -> next (h' q) = next (h q)
                      /\ previous (h' q) = previous (h q)) ->
  linked h prev l -> linked h' prev l.
Proof.
  revert prev. induction l as [|p l IH]; intros prev Hsame; [done|].
  intros (Hprev & Hnext & Hl). simpl.
  destruct (Hsame p) as [-> ->]; [apply list_elem_of_here|].
  repeat split; try done. apply IH; [|done].
  intros q Hq. apply Hsame. by apply list_elem_of_further.
Qed.

Lemma linked_previous h prev l1 p l2 :
  linked h prev (l1 ++ p :: l2) ->
  previous (h p) = match last l1 with Some a => Some a | None => prev end.
Proof.
  revert prev. induction l1 as [|a l1 IH]; intros prev; cbn [app linked].
  - by intros [? _].
  - intros (_ & _ & Hl). rewrite (IH _ Hl), last_cons.
    by destruct (last l1).
Qed.

Lemma linked_next h prev l1 p l2 :
  linked h prev (l1 ++ p :: l2) -> next (h p) = l2 !! O.
Proof.
  revert prev. induction l1 as [|a l1 IH]; intros prev; simpl.
  - by intros (_ & ? & _).
  - intros (_ & _ & Hl). eauto.
Qed.

(** Unlinking [p]: what the links of the other entries become. *)
Lemma linked_remove h h' prev l1 p l2 :
  NoDup (l1 ++ p :: l2) ->
  (forall a, prev = Some a -> a ∉ l1 ++ p :: l2) ->
  (forall q, q <> p ->
     next (h' q) = (if decide (previous (h p) = Some q)
                    then next (h p) else next (h q))
     /\ previous (h' q) = (if decide (next (h p) = Some q)
                           then previous (h p) else previous (h q))) ->
  linked h prev (l1 ++ p :: l2) -> linked h' prev (l1 ++ l2).
Proof.
  intros Hnd Hprev Hh'. revert prev Hprev Hnd.
  induction l1 as [|a l1 IH]; intros prev Hprev Hnd Hl.
  - simpl in *. destruct Hl as (Hpp & Hpn & Hl).
    apply NoDup_cons in Hnd as [Hp Hnd].
    destruct l2 as [|n l2]; [done|]. destruct Hl as (Hnp & Hnn & Hl).
    simpl in Hpn. assert (n <> p) as Hnp' by list_solver.
    destruct (Hh' n Hnp') as [Hn1 Hn2].
    rewrite Hpp, Hpn in Hn1, Hn2. rewrite decide_True in Hn2 by done.
    rewrite decide_False in Hn1.
    2:{ intros ->. eapply Hprev; [done|]. list_solver. }
    repeat split; [done|congruence|].
    eapply linked_frame; [|exact Hl]. intros q Hq.
    apply NoDup_cons in Hnd as [Hn Hnd].
    assert (q <> p) as Hqp by list_solver.
    assert (q <> n) as Hqn by list_solver.
    destruct (Hh' q Hqp) as [Hq1 Hq2]. rewrite Hpp, Hpn in Hq1, Hq2.
    rewrite decide_False in Hq2 by congruence.
    rewrite decide_False in Hq1; [done|].
    intros ->. eapply Hprev; [done|]. list_solver.
  - pose proof (linked_previous _ _ _ _ _ Hl) as Hpp.
    pose proof (linked_next _ _ _ _ _ Hl) as Hpn.
    cbn [app] in Hnd, Hl |- *. destruct Hl as (Hap & Han & Hl).
    apply NoDup_cons in Hnd as [Ha Hnd].
    assert (a <> p) as Hap' by list_solver.
    destruct (Hh' a Hap') as [Ha1 Ha2].
    rewrite decide_False in Ha2.
    2:{ rewrite Hpn. intros Hl2. apply list_elem_of_lookup_2 in Hl2.
        list_solver. }
    split; [congruence|]. split.
    + destruct l1 as [|b l1].
      * simpl in *. rewrite decide_True in Ha1 by done. congruence.
      * rewrite decide_False in Ha1.
        2:{ rewrite Hpp. rewrite last_cons_cons.
            destruct (last (b :: l1)) as [lst|] eqn:Hlast.
            - intros [= ->]. apply last_Some_elem_of in Hlast. list_solver.
            - intros ->. eapply Hprev; [done|]. list_solver. }
        rewrite Ha1, Han. done.
    + apply IH; [|done|done]. intros a' [= <-]. done.
Qed.

Lemma linked_push h h' p l :
  p ∉ l -> NoDup l ->
  previous (h' p) = None -> next (h' p) = l !! O ->
  (forall q, q <> p ->
     next (h' q) = next (h q)
     /\ previous (h' q) = (if decide (l !! O = Some q)
                           then Some p else previous (h q))) ->
  linked h None l -> linked h' None (p :: l).
Proof.
  intros Hp Hnd Hpp Hpn Hh' Hl. cbn [linked]. repeat split; [done..|].
  destruct l as [|a l]; [done|]. destruct Hl as (Hap & Han & Hl).
  assert (a <> p) as Hap' by list_solver.
  destruct (Hh' a Hap') as [Ha1 Ha2]. simpl in Ha2.
  rewrite decide_True in Ha2 by done. cbn [linked].
  repeat split; [done|congruence|].
  eapply linked_frame; [|exact Hl]. intros q Hq.
  assert (q <> p) as Hqp by list_solver.
  assert (q <> a) as Hqa by list_solver.
  destruct (Hh' q Hqp) as [Hq1 Hq2]. simpl in Hq2.
  rewrite decide_False in Hq2 by congruence. done.
Qed.

Lemma only_links_refl c : only_links c c.
Proof. repeat split. intros q. by destruct (heap c q). Qed.

Lemma only_links_trans c1 c2 c3 :
  only_links c1 c2 -> only_links c2 c3 -> only_links c1 c3.
Proof.
  intros (?&?&?&?&?&?&?&?&?&?&H12) (?&?&?&?&?&?&?&?&?&?&H23).
  repeat split; try congruence.
  intros q. rewrite (H23 q) at 1. rewrite (H12 q) at 1. done.
Qed.

Lemma only_links_update c0 p f c :
  (forall e, f e = set_next (next (f e)) (set_previous (previous (f e)) e)) ->
  only_links c0 c -> only_links c0 (update p f c).
Proof.
  intros Hf Hc. eapply only_links_trans; [exact Hc|].
  repeat split. intros q. simpl. unfold insert, fn_insert.
  case_decide; subst; [apply Hf|]. by destruct (heap c q).
Qed.

Lemma only_links_set_head c0 x c :
  only_links c0 c -> only_links c0 (set_head x c).
Proof.
  intros Hc. eapply only_links_trans; [exact Hc|].
  repeat split. intros q. simpl. by destruct (heap c q).
Qed.
Lemma only_links_set_tail c0 x c :
  only_links c0 c -> only_links c0 (set_tail x c).
Proof.
  intros Hc. eapply only_links_trans; [exact Hc|].
  repeat split. intros q. simpl. by destruct (heap c q).
Qed.

Lemma links_set_next x (e : Entry V) :
  set_next x e
  = set_next (next (set_next x e)) (set_previous (previous (set_next x e)) e).
Proof. by destruct e. Qed.
Lemma links_set_previous x (e : Entry V) :
  set_previous x e
  = set_next (next (set_previous x e))
      (set_previous (previous (set_previous x e)) e).
Proof. by destruct e. Qed.
Lemma links_link x y (e : Entry V) :
  set_previous y (set_next x e)
  = set_next (next (set_previous y (set_next x e)))
      (set_previous (previous (set_previous y (set_next x e))) e).
Proof. by destruct e. Qed.

Lemma only_links_removeExistingEntryReferences c0 p c :
  only_links c0 c -> only_links c0 (removeExistingEntryReferences p c).
Proof.
  intros Hc. unfold removeExistingEntryReferences.
  apply only_links_update; [intros e; apply links_link|].
  repeat first
    [ assumption
    | apply only_links_update; [intros e; first [apply links_set_next | apply links_set_previous]|]
    | apply only_links_set_head | apply only_links_set_tail
    | match goal with
      | |- context [bool_decide ?P] => destruct (bool_decide P)
      | |- context [match ?x with _ => _ end] => destruct x
      end; simpl ].
Qed.

Lemma head_removeExistingEntryReferences p c :
  head (removeExistingEntryReferences p c)
  = if bool_decide (head c = Some p)
    then (if bool_decide (tail c = Some p) then None else next (heap c p))
    else head c.
Proof.
  unfold removeExistingEntryReferences.
  destruct (bool_decide (tail c = Some p)) eqn:Ht,
    (bool_decide (head c = Some p)) eqn:Hh; simpl;
    repeat case_match; simpl; done.
Qed.

Lemma tail_removeExistingEntryReferences p c :
  tail (removeExistingEntryReferences p c)
  = if bool_decide (tail c = Some p)
    then (if bool_decide (head c = Some p) then None else previous (heap c p))
    else tail c.
Proof.
  unfold removeExistingEntryReferences.
  destruct (bool_decide (tail c = Some p)) eqn:Ht,
    (bool_decide (head c = Some p)) eqn:Hh; simpl;
    repeat case_match; simpl; done.
Qed.

(** The links after [removeExistingEntryReferences]. *)
Lemma links_removeExistingEntryReferences p c :
  previous (heap c p) <> Some p -> next (heap c p) <> Some p ->
  let c' := removeExistingEntryReferences p c in
  next (heap c' p) = None /\ previous (heap c' p) = None
  /\ forall q, q <> p ->
       next (heap c' q) = (if decide (previous (heap c p) = Some q)
                           then next (heap c p) else next (heap c q))
       /\ previous (heap c' q) = (if decide (next (heap c p) = Some q)
                                  then previous (heap c p)
                                  else previous (heap c q)).
Proof.
  intros Hprev Hnext. unfold removeExistingEntryReferences.
  set (c1 := if bool_decide (tail c = Some p) && bool_decide (head c = Some p)
             then _ else _).
  assert (heap c1 = heap c) as Hc1.
  { unfold c1. by repeat case_bool_decide. }
  clearbody c1. cbv zeta.
  rewrite Hc1.
  destruct (previous (heap c p)) as [a|] eqn:Ha;
    destruct (next (heap c p)) as [n|] eqn:Hn; simpl;
    unfold insert, fn_insert; simpl.
  all: rewrite ?Hc1.
  all: repeat (case_decide; subst; try congruence); simpl;
    rewrite ?Hn, ?Ha; simpl.
  all: repeat split; try done.
  all: unfold insert, fn_insert;
    repeat (case_decide; subst; simplify_eq; try congruence); simpl;
    rewrite ?Hc1; try done.
Qed.

Lemma NoDup_middle l1 p l2 :
  NoDup (l1 ++ p :: l2) -> (p ∉ l1) /\ (p ∉ l2) /\ NoDup (l1 ++ l2).
Proof.
  intros Hnd. apply NoDup_app in Hnd as (Hl1 & Hdis & Hl2).
  apply NoDup_cons in Hl2 as [Hp Hl2]. repeat split; [| done |].
  - intros Hin. apply (Hdis _ Hin). apply list_elem_of_here.
  - apply NoDup_app. repeat split; [done| |done].
    intros x Hx Hx2. apply (Hdis _ Hx). by apply list_elem_of_further.
Qed.

(** Unlinking an entry of the chain leaves the chain of the others. *)
Lemma chain_unlink c l1 p l2 :
  NoDup (l1 ++ p :: l2) ->
  head c = (l1 ++ p :: l2) !! O -> tail c = last (l1 ++ p :: l2) ->
  linked (heap c) None (l1 ++ p :: l2) ->
  let c' := removeExistingEntryReferences p c in
  head c' = (l1 ++ l2) !! O /\ tail c' = last (l1 ++ l2)
  /\ linked (heap c') None (l1 ++ l2)
  /\ next (heap c' p) = None /\ previous (heap c' p) = None.
Proof.
  intros Hnd Hhead Htail Hl c'.
  destruct (NoDup_middle _ _ _ Hnd) as (Hp1 & Hp2 & Hnd').
  pose proof (linked_previous _ _ _ _ _ Hl) as Hpp.
  pose proof (linked_next _ _ _ _ _ Hl) as Hpn.
  assert (previous (heap c p) <> Some p) as Hpp'.
  { rewrite Hpp. destruct (last l1) as [a|] eqn:Hlast; [|done].
    intros [= ->]. by apply last_Some_elem_of in Hlast. }
  assert (next (heap c p) <> Some p) as Hpn'.
  { rewrite Hpn. intros Hin. by apply list_elem_of_lookup_2 in Hin. }
  destruct (links_removeExistingEntryReferences p c Hpp' Hpn')
    as (Hn & Hpr & Hothers).
  fold c' in Hn, Hpr, Hothers.
  assert (bool_decide (head c = Some p) = bool_decide (l1 = [])) as Hh.
  { rewrite Hhead. destruct l1 as [|a l1]; simpl.
    - by rewrite !bool_decide_eq_true_2.
    - rewrite !bool_decide_eq_false_2; [done..|].
      intros [= ->]. apply Hp1, list_elem_of_here. }
  assert (bool_decide (tail c = Some p) = bool_decide (l2 = [])) as Ht.
  { rewrite Htail, last_app_cons. destruct l2 as [|b l2].
    - by rewrite !bool_decide_eq_true_2.
    - rewrite !bool_decide_eq_false_2; [done..|].
      rewrite last_cons_cons. intros Hlast.
      by apply last_Some_elem_of in Hlast. }
  repeat split; [| | |done|done].
  - unfold c'. rewrite head_removeExistingEntryReferences, Hh, Ht.
    destruct l1 as [|a l1]; simpl; [|by rewrite Hhead].
    destruct l2 as [|b l2]; simpl; [done|]. by rewrite Hpn.
  - unfold c'. rewrite tail_removeExistingEntryReferences, Hh, Ht.
    destruct l2 as [|b l2]; simpl.
    + rewrite app_nil_r. destruct l1 as [|a l1]; simpl; [done|].
      rewrite Hpp. by destruct (last (a :: l1)) eqn:Hlast.
    + rewrite Htail, !last_app_cons. by rewrite last_cons_cons.
  - eapply linked_remove; [exact Hnd|done|exact Hothers|exact Hl].
Qed.

Lemma wrap_int_add_l a b : wrap_int (wrap_int a + b) = wrap_int (a + b).
Proof.
  unfold wrap_int. f_equal.
  replace ((a + 2 ^ 63) mod 2 ^ 64 - 2 ^ 63 + b + 2 ^ 63)
    with ((a + 2 ^ 63) mod 2 ^ 64 + b) by lia.
  rewrite Zplus_mod_idemp_l. f_equal. lia.
Qed.

Lemma wrap_int_sub_l a b : wrap_int (wrap_int a - b) = wrap_int (a - b).
Proof. apply (wrap_int_add_l a (- b)). Qed.

Lemma sizes_app h l1 l2 : sizes h (l1 ++ l2) = sizes h l1 + sizes h l2.
Proof. induction l1 as [|a l1 IH]; simpl; [done|]. rewrite IH. lia. Qed.

Lemma sizes_ext h h' l :
  (forall q, q ∈ l -> SizeInBytes (h' q) = SizeInBytes (h q)) ->
  sizes h' l = sizes h l.
Proof.
  induction l as [|a l IH]; intros Hsame; simpl; [done|].
  rewrite Hsame by apply list_elem_of_here. rewrite IH; [done|].
  intros q Hq. apply Hsame. by apply list_elem_of_further.
Qed.

Lemma sizes_middle h l1 p l2 :
  sizes h (l1 ++ p :: l2) = sizes h (l1 ++ l2) + SizeInBytes (h p).
Proof. rewrite !sizes_app. simpl. lia. Qed.

(** The map has as many keys as the chain has entries. *)
Lemma chain_inv_size c l :
  chain_inv c l -> size (entries c) = length l.
Proof.
  intros [Hnd _ _ _ Hmap _ _].
  rewrite <- (length_fmap (fun p => (Key (heap c p), p)) l).
  rewrite <- length_map_to_list. apply Permutation_length.
  apply NoDup_Permutation.
  - apply NoDup_map_to_list.
  - apply NoDup_fmap_2; [|done]. by intros p q [= _ ->].
  - intros [k p]. rewrite elem_of_map_to_list, Hmap, list_elem_of_fmap.
    split.
    + intros [Hp <-]. by exists p.
    + by intros (q & [= -> ->] & Hq).
Qed.

Lemma chain_inv_frame c c' l :
  same_chain c c' -> chain_inv c l -> chain_inv c' l.
Proof.
  intros (Hh & Ht & He & Hn & Hm & Hmm & Hheap)
    [Hnd Hhead Htail Hl Hmap Hfresh Hmem].
  split.
  - done.
  - congruence.
  - congruence.
  - eapply linked_frame; [|exact Hl]. intros q _.
    by destruct (Hheap q) as (? & ? & _).
  - intros k p. rewrite He, Hmap.
    by destruct (Hheap p) as (_ & _ & -> & _).
  - intros p Hp. rewrite Hn. auto.
  - rewrite Hm, Hmm, Hmem. case_bool_decide; [|done]. f_equal.
    symmetry. apply sizes_ext. intros q _.
    by destruct (Hheap q) as (_ & _ & _ & ?).
Qed.

(** What is left of the invariant when [p] leaves the chain and its key
    the map. *)
Lemma chain_inv_remove c c' l1 p l2 :
  chain_inv c (l1 ++ p :: l2) ->
  head c' = (l1 ++ l2) !! O -> tail c' = last (l1 ++ l2) ->
  linked (heap c') None (l1 ++ l2) ->
  entries c' = delete (Key (heap c p)) (entries c) ->
  (forall q, Key (heap c' q) = Key (heap c q)
             /\ SizeInBytes (heap c' q) = SizeInBytes (heap c q)) ->
  nextEntry c' = nextEntry c -> maxMemoryUsage c' = maxMemoryUsage c ->
  memoryUsage c' = (if bool_decide (maxMemoryUsage c <> NoMaxMemoryUsage)
                    then wrap_int (memoryUsage c - SizeInBytes (heap c p))
                    else memoryUsage c) ->
  chain_inv c' (l1 ++ l2).
Proof.
  intros [Hnd Hhead Htail Hl Hmap Hfresh Hmem] Hh' Ht' Hl' He' Hheap Hn' Hmm'
    Hm'.
  destruct (NoDup_middle _ _ _ Hnd) as (Hp1 & Hp2 & Hnd').
  split; try done.
  - intros k q. destruct (Hheap q) as [-> _]. rewrite He'.
    rewrite lookup_delete_Some, Hmap. rewrite elem_of_app, elem_of_cons.
    rewrite elem_of_app. split.
    + intros (Hk & [?|[->|?]] & Hq); [tauto|congruence|tauto].
    + intros (Hq & <-). split; [|tauto].
      intros Hk.
      assert (entries c !! Key (heap c p) = Some p) as Hpk.
      { apply Hmap. split; [|done].
        apply elem_of_app. right. apply list_elem_of_here. }
      assert (entries c !! Key (heap c p) = Some q) as Hqk.
      { apply Hmap. split; [|done].
        rewrite elem_of_app, elem_of_cons. tauto. }
      assert (q = p) as -> by congruence. tauto.
  - intros q Hq. rewrite Hn'. apply Hfresh.
    rewrite elem_of_app, elem_of_cons. rewrite elem_of_app in Hq. tauto.
  - rewrite Hm', Hmm', Hmem. case_bool_decide; [|done].
    rewrite wrap_int_sub_l, sizes_middle. f_equal.
    rewrite (sizes_ext (heap c) (heap c')); [lia|].
    intros q _. by destruct (Hheap q).
Qed.

Lemma only_links_Key c c' q :
  only_links c c' -> Key (heap c' q) = Key (heap c q).
Proof. intros (_&_&_&_&_&_&_&_&_&_&Hq). by rewrite (Hq q). Qed.

Lemma only_links_SizeInBytes c c' q :
  only_links c c' -> SizeInBytes (heap c' q) = SizeInBytes (heap c q).
Proof. intros (_&_&_&_&_&_&_&_&_&_&Hq). by rewrite (Hq q). Qed.

Lemma same_config_refl c : same_config c c.
Proof. done. Qed.

Lemma same_config_trans c1 c2 c3 :
  same_config c1 c2 -> same_config c2 c3 -> same_config c1 c3.
Proof. intros (?&?&?) (?&?&?). repeat split; congruence. Qed.

(** [delete] of a key of the map, under FIFO or LRU: the entry leaves the
    chain. *)
Lemma chain_inv_delete_entry c l key p :
  chain_inv c l -> evictionPolicy c <> LeastFrequentUsed ->
  entries c !! key = Some p ->
  exists c' l1 l2,
    l = l1 ++ p :: l2 /\ delete_entry key c = Done (true, c')
    /\ chain_inv c' (l1 ++ l2) /\ same_config c c' /\ stats c' = stats c.
Proof.
  intros Hinv Hpol Hkey.
  assert (p ∈ l /\ Key (heap c p) = key) as [Hp Hk]
    by by apply (chain_map _ _ Hinv).
  apply list_elem_of_split in Hp as (l1 & l2 & ->).
  unfold delete_entry. rewrite Hkey. cbv zeta.
  set (c1 := release_memory (heap c p) c).
  assert (evictionPolicy c1 = evictionPolicy c) as Hpol1.
  { unfold c1, release_memory. by case_bool_decide. }
  rewrite bool_decide_eq_false_2 by (by rewrite Hpol1).
  cbn [mbind Outcome_bind].
  set (c2 := removeExistingEntryReferences p c1).
  eexists _, l1, l2. split; [done|]. split; [done|].
  assert (only_links c1 c2) as Hlinks
    by apply only_links_removeExistingEntryReferences, only_links_refl.
  pose proof Hlinks as (Hms & Hmm & Hpo & Hst & Hen & _ & Hmu & _ & Hne & _ & _).
  assert (heap c1 = heap c /\ head c1 = head c /\ tail c1 = tail c
          /\ entries c1 = entries c /\ nextEntry c1 = nextEntry c
          /\ maxMemoryUsage c1 = maxMemoryUsage c /\ maxSize c1 = maxSize c
          /\ stats c1 = stats c
          /\ memoryUsage c1
             = (if bool_decide (maxMemoryUsage c <> NoMaxMemoryUsage)
                then wrap_int (memoryUsage c - SizeInBytes (heap c p))
                else memoryUsage c))
    as (Hh1 & Hhd1 & Htl1 & Hen1 & Hne1 & Hmm1 & Hms1 & Hst1 & Hmu1).
  { unfold c1, release_memory. by case_bool_decide. }
  destruct Hinv as [Hnd Hhead Htail Hl Hmap Hfresh Hmem].
  destruct (chain_unlink c1 l1 p l2) as (Hh2 & Ht2 & Hl2 & _);
    [done|congruence|congruence|by rewrite Hh1|].
  fold c2 in Hh2, Ht2, Hl2.
  split; [|split; [repeat split|]].
  - eapply (chain_inv_remove c _ l1 p l2);
      cbn [set_entries head tail heap entries nextEntry maxMemoryUsage
           memoryUsage]; try done.
    + by rewrite Hen, Hen1, Hk.
    + intros q. rewrite (only_links_Key _ _ q Hlinks),
        (only_links_SizeInBytes _ _ q Hlinks), Hh1. done.
    + congruence.
    + congruence.
    + congruence.
  - change (evictionPolicy c2 = evictionPolicy c). congruence.
  - change (maxSize c2 = maxSize c). congruence.
  - change (maxMemoryUsage c2 = maxMemoryUsage c). congruence.
  - change (stats c2 = stats c). congruence.
Qed.

Lemma release_memory_fields (e : Entry V) c :
  let c' := release_memory e c in
  heap c' = heap c /\ head c' = head c /\ tail c' = tail c
  /\ entries c' = entries c /\ nextEntry c' = nextEntry c
  /\ stats c' = stats c /\ same_config c c'
  /\ memoryUsage c'
     = (if bool_decide (maxMemoryUsage c <> NoMaxMemoryUsage)
        then wrap_int (memoryUsage c - SizeInBytes e) else memoryUsage c).
Proof.
  unfold release_memory.
  by destruct (bool_decide (maxMemoryUsage c <> NoMaxMemoryUsage)).
Qed.

Lemma charge_memory_fields (e : Entry V) c :
  let c' := charge_memory e c in
  heap c' = heap c /\ head c' = head c /\ tail c' = tail c
  /\ entries c' = entries c /\ nextEntry c' = nextEntry c
  /\ stats c' = stats c /\ same_config c c'
  /\ memoryUsage c'
     = (if bool_decide (maxMemoryUsage c <> NoMaxMemoryUsage)
        then wrap_int (memoryUsage c + SizeInBytes e) else memoryUsage c).
Proof.
  unfold charge_memory.
  by destruct (bool_decide (maxMemoryUsage c <> NoMaxMemoryUsage)).
Qed.

(** [evict] under FIFO or LRU: the tail leaves the chain. *)
Lemma chain_inv_evict c l :
  chain_inv c l -> evictionPolicy c <> LeastFrequentUsed ->
  exists l', chain_inv (evict c) l' /\ same_config c (evict c)
             /\ length l' = pred (length l).
Proof.
  intros Hinv Hpol. pose proof (chain_inv_size _ _ Hinv) as Hsize.
  destruct l as [|p l1 _] using rev_ind.
  { exists []. unfold evict. by rewrite (chain_tail _ _ Hinv). }
  exists l1. unfold evict, len_entries.
  rewrite (chain_tail _ _ Hinv), last_snoc, Hsize, length_app.
  rewrite bool_decide_eq_false_2 by done.
  rewrite bool_decide_eq_false_2 by (simpl; lia).
  rewrite bool_decide_eq_false_2 by done. cbn [orb]. cbv zeta.
  set (c1 := removeExistingEntryReferences p c).
  assert (only_links c c1) as Hlinks
    by apply only_links_removeExistingEntryReferences, only_links_refl.
  pose proof Hlinks as (Hms & Hmm & Hpo & Hst & Hen & _ & Hmu & _ & Hne & _ & _).
  pose proof Hinv as [Hnd Hhead Htail Hl Hmap Hfresh Hmem].
  destruct (chain_unlink c l1 p []) as (Hh2 & Ht2 & Hl2 & _); [done..|].
  fold c1 in Hh2, Ht2, Hl2.
  set (c2 := set_entries _ c1).
  destruct (release_memory_fields (heap c2 p) c2)
    as (Hh3 & Hhd3 & Htl3 & Hen3 & Hne3 & Hst3 & (Hpo3 & Hms3 & Hmm3) & Hmu3).
  set (c3 := release_memory (heap c2 p) c2) in *.
  split; [|split].
  - rewrite <- (app_nil_r l1).
    eapply (chain_inv_remove c _ l1 p []);
      cbn [count_evicted set_stats head tail heap entries nextEntry
           maxMemoryUsage memoryUsage]; try done.
    + by rewrite Hhd3.
    + by rewrite Htl3.
    + by rewrite Hh3.
    + rewrite Hen3. unfold c2. cbn [set_entries entries].
      by rewrite (only_links_Key _ _ p Hlinks), Hen.
    + intros q. rewrite Hh3. unfold c2. cbn [set_entries heap].
      by rewrite (only_links_Key _ _ q Hlinks),
        (only_links_SizeInBytes _ _ q Hlinks).
    + rewrite Hne3. exact Hne.
    + rewrite Hmm3. exact Hmm.
    + rewrite Hmu3. unfold c2. cbn [set_entries heap maxMemoryUsage memoryUsage].
      by rewrite Hmm, Hmu, (only_links_SizeInBytes _ _ p Hlinks).
  - repeat split; cbn [count_evicted set_stats evictionPolicy maxSize
                       maxMemoryUsage].
    + rewrite Hpo3. exact Hpo.
    + rewrite Hms3. exact Hms.
    + rewrite Hmm3. exact Hmm.
  - simpl. lia.
Qed.

(** The eviction loop of [SetWithTTL] under FIFO or LRU ends once the
    fuel covers the entries of the chain. *)
Lemma chain_inv_evict_loop fuel c l :
  chain_inv c l -> evictionPolicy c <> LeastFrequentUsed ->
  (length l <= fuel)%nat ->
  exists c' l',
    evict_loop fuel c = Done c' /\ chain_inv c' l' /\ same_config c c'
    /\ (length l' <= length l)%nat
    /\ (memoryUsage c' <= maxMemoryUsage c' \/ l' = []).
Proof.
  revert c l. induction fuel as [|fuel IH]; intros c l Hinv Hpol Hfuel.
  - assert (l = []) as -> by (destruct l; [done|simpl in Hfuel; lia]).
    exists c, []. simpl. unfold len_entries.
    rewrite (chain_inv_size _ _ Hinv). simpl.
    rewrite andb_false_r.
    split; [done|]. split; [done|]. split; [done|]. split; [done|by right].
  - simpl. unfold len_entries at 1. rewrite (chain_inv_size _ _ Hinv).
    destruct (maxMemoryUsage c <? memoryUsage c) eqn:Hover; cbn [andb].
    2:{ exists c, l. split; [done|]. split; [done|]. split; [done|].
        split; [done|left; lia]. }
    destruct l as [|p l].
    { exists c, []. split; [done|]. split; [done|]. split; [done|].
      split; [done|by right]. }
    replace (0 <? Z.of_nat (length (p :: l))) with true
      by (symmetry; apply Z.ltb_lt; simpl; lia).
    destruct (chain_inv_evict _ _ Hinv Hpol) as (l' & Hinv' & Hcfg & Hlen).
    destruct (IH (evict c) l' Hinv') as (c'' & l'' & Hrun & Hinv'' & Hcfg' & Hlen' & Hend).
    + destruct Hcfg as (-> & _). done.
    + simpl in Hlen, Hfuel. lia.
    + exists c'', l''. split; [done|]. split; [done|].
      split; [by eapply same_config_trans|].
      split; [|done]. simpl in Hlen |- *. lia.
Qed.

Lemma chain_inv_to_front c c' l1 p l2 :
  chain_inv c (l1 ++ p :: l2) -> only_links c c' ->
  head c' = Some p -> tail c' = last (p :: l1 ++ l2) ->
  linked (heap c') None (p :: l1 ++ l2) ->
  chain_inv c' (p :: l1 ++ l2).
Proof.
  intros [Hnd Hhead Htail Hl Hmap Hfresh Hmem] Hlinks Hh' Ht' Hl'.
  pose proof Hlinks as (Hms & Hmm & Hpo & Hst & Hen & _ & Hmu & _ & Hne & _ & _).
  destruct (NoDup_middle _ _ _ Hnd) as (Hp1 & Hp2 & Hnd').
  split; try done.
  - apply NoDup_cons. split; [|done]. rewrite elem_of_app. tauto.
  - intros k q. rewrite Hen, Hmap, (only_links_Key _ _ q Hlinks).
    rewrite elem_of_cons, !elem_of_app, elem_of_cons. tauto.
  - intros q Hq. rewrite Hne. apply Hfresh.
    rewrite elem_of_cons, elem_of_app in Hq.
    rewrite elem_of_app, elem_of_cons. tauto.
  - rewrite Hmu, Hmm, Hmem. case_bool_decide; [|done]. f_equal.
    rewrite sizes_middle.
    change (sizes (heap c') (p :: l1 ++ l2))
      with (SizeInBytes (heap c' p) + sizes (heap c') (l1 ++ l2)).
    rewrite (sizes_ext (heap c) (heap c')), (only_links_SizeInBytes _ _ p Hlinks).
    + lia.
    + intros q _. by apply only_links_SizeInBytes.
Qed.

(** The links after the second half of [moveExistingEntryToHead]. *)
Lemma links_push p c :
  head c <> Some p ->
  let c1 := update p (fun e => set_previous None (set_next (head c) e)) c in
  let c2 := match head c1 with
            | Some h => update h (set_previous (Some p)) c1
            | None => c1
            end in
  tail c2 = tail c
  /\ previous (heap c2 p) = None /\ next (heap c2 p) = head c
  /\ forall q, q <> p ->
       next (heap c2 q) = next (heap c q)
       /\ previous (heap c2 q) = (if decide (head c = Some q)
                                  then Some p else previous (heap c q)).
Proof.
  intros Hhead. unfold update. simpl.
  destruct (head c) as [h0|] eqn:Hh; simpl; unfold insert, fn_insert.
  - assert (h0 <> p) as Hne by congruence.
    rewrite (decide_False (P:=h0 = p)) by done.
    rewrite (decide_False (P:=p = h0)) by done.
    rewrite (decide_True (P:=p = p)) by done. repeat split; try done.
    all: repeat (case_decide; subst; simplify_eq; try done).
  - rewrite (decide_True (P:=p = p)) by done. repeat split; try done.
    all: by rewrite decide_False by done.
Qed.

(** [moveExistingEntryToHead] on an entry of the chain. *)
Lemma chain_inv_moveExistingEntryToHead c l1 p l2 :
  chain_inv c (l1 ++ p :: l2) ->
  chain_inv (moveExistingEntryToHead p c) (p :: l1 ++ l2)
  /\ only_links c (moveExistingEntryToHead p c).
Proof.
  intros Hinv. pose proof Hinv as [Hnd Hhead Htail Hl Hmap Hfresh Hmem].
  destruct (NoDup_middle _ _ _ Hnd) as (Hp1 & Hp2 & Hnd').
  unfold moveExistingEntryToHead.
  destruct (bool_decide (head c = Some p) && bool_decide (tail c = Some p))
    eqn:Hsole; cbn [negb].
  - apply andb_true_iff in Hsole as [Hh Ht].
    apply bool_decide_eq_true in Hh, Ht. rewrite bool_decide_eq_true_2 by done.
    split; [|apply only_links_refl].
    assert (l1 = []) as ->.
    { destruct l1 as [|a l1]; [done|]. rewrite Hhead in Hh.
      injection Hh as ->. exfalso. apply Hp1, list_elem_of_here. }
    assert (l2 = []) as ->.
    { destruct l2 as [|b l2]; [done|]. rewrite Htail in Ht. simpl in Ht.
      apply last_Some_elem_of in Ht. done. }
    done.
  - set (c0 := removeExistingEntryReferences p c).
    assert (only_links c c0) as Hlinks
      by apply only_links_removeExistingEntryReferences, only_links_refl.
    destruct (chain_unlink c l1 p l2) as (Hh0 & Ht0 & Hl0 & Hn0 & Hp0);
      [done..|]. fold c0 in Hh0, Ht0, Hl0, Hn0, Hp0.
    assert (l1 ++ l2 <> []) as Hne.
    { intros Hnil. apply app_eq_nil in Hnil as [-> ->].
      simpl in Hhead, Htail. rewrite Hhead, Htail in Hsole.
      by rewrite !bool_decide_eq_true_2 in Hsole. }
    assert (head c0 <> Some p) as Hh0'.
    { rewrite Hh0. intros Hin. apply list_elem_of_lookup_2 in Hin.
      rewrite elem_of_app in Hin. tauto. }
    rewrite bool_decide_eq_false_2 by done. cbv zeta.
    set (c' := set_head _ _).
    assert (only_links c c') as Hlinks'.
    { unfold c'. apply only_links_set_head.
      cbn [update set_heap head].
      destruct (head c0) as [h0|]; [apply only_links_update;
        [intros e; apply links_set_previous|]|];
        (apply only_links_update; [intros e; apply links_link|done]). }
    split; [|done].
    + destruct (links_push p c0 Hh0') as (Ht' & Hpp & Hpn & Hothers).
      apply (chain_inv_to_front c c' l1 p l2); [done..| |].
      * unfold c'. cbn [set_head tail]. rewrite Ht', Ht0.
        destruct (l1 ++ l2); [done|]. by rewrite last_cons_cons.
      * apply (linked_push (heap c0));
          [rewrite elem_of_app; tauto|done|exact Hpp| | |done].
        -- unfold c'. cbn [set_head heap]. by rewrite Hpn.
        -- intros q Hq. destruct (Hothers q Hq) as [Hq1 Hq2].
           unfold c'. cbn [set_head heap]. by rewrite Hq1, Hq2, Hh0.
Qed.

(** The links and the tail after the allocation of [SetWithTTL]. *)
Lemma create_entry_links key value now (c : Cache V) :
  head c <> Some (nextEntry c) ->
  let p := nextEntry c in
  let c' := (create_entry key value now c).2 in
  tail c' = (if head c is Some _ then tail c else Some p)
  /\ nextEntry c' = Pos.succ p
  /\ Key (heap c' p) = key /\ Value (heap c' p) = value
  /\ previous (heap c' p) = None /\ next (heap c' p) = head c
  /\ forall q, q <> p ->
       Key (heap c' q) = Key (heap c q)
       /\ Value (heap c' q) = Value (heap c q)
       /\ next (heap c' q) = next (heap c q)
       /\ previous (heap c' q) = (if decide (head c = Some q)
                                  then Some p else previous (heap c q)).
Proof.
  intros Hfresh. unfold create_entry, charge_memory, update. cbn [fst snd].
  destruct (head c) as [h|] eqn:Hhead; cbn; rewrite ?Hhead; cbn;
    destruct (bool_decide (maxMemoryUsage c <> NoMaxMemoryUsage)); cbn;
    unfold insert, fn_insert;
    repeat split;
    repeat (case_decide; subst; simplify_eq; try done).
Qed.

(** [SetWithTTL] of a key that is not in the map puts a new entry at the
    head of the chain. *)
Lemma chain_inv_create_entry c l key value now :
  chain_inv c l -> entries c !! key = None ->
  let c' := (create_entry key value now c).2 in
  (create_entry key value now c).1 = nextEntry c
  /\ chain_inv c' (nextEntry c :: l) /\ same_config c c'
  /\ stats c' = stats c.
Proof.
  intros [Hnd Hhead Htail Hl Hmap Hfresh Hmem] Hkey c'.
  destruct (create_entry_fields key value now c)
    as (Hp & Hpo & _ & Hmm & Hms & Hst & Hen & Hh' & Hmu).
  assert (head c <> Some (nextEntry c)) as Hhp.
  { rewrite Hhead. intros Hin. apply list_elem_of_lookup_2, Hfresh in Hin. lia. }
  destruct (create_entry_links key value now c Hhp)
    as (Ht' & Hne' & Hk' & Hv' & Hpp & Hpn & Hothers).
  fold c' in Hpo, Hmm, Hms, Hst, Hen, Hh', Hmu, Ht', Hne', Hk', Hv', Hpp, Hpn,
    Hothers.
  set (p := nextEntry c) in *.
  assert (p ∉ l) as Hpl.
  { intros Hin. apply Hfresh in Hin. lia. }
  split; [done|]. split; [|by split].
  split.
  - by apply NoDup_cons.
  - done.
  - rewrite Ht', Hhead, Htail. by destruct l as [|a l].
  - apply (linked_push (heap c)); [done..|by rewrite Hpn| |done].
    intros q Hq. destruct (Hothers q Hq) as (_ & _ & Hq1 & Hq2).
    by rewrite Hq1, Hq2, Hhead.
  - intros k q. rewrite Hen, lookup_insert_Some, Hmap, elem_of_cons. split.
    + intros [[<- <-]|(Hne & Hq & <-)]; [by auto|].
      split; [by right|].
      assert (q <> p) as Hqp by (by intros ->).
      by destruct (Hothers q Hqp) as (-> & _).
    + intros [[->|Hq] <-]; [by left|]. right.
      assert (q <> p) as Hqp by (by intros ->).
      destruct (Hothers q Hqp) as (Hkq & _). rewrite Hkq.
      split; [|done]. intros Heq.
      assert (entries c !! key = Some q) as Hsome by (apply Hmap; by rewrite Heq).
      congruence.
  - intros q Hq. rewrite Hne'. apply elem_of_cons in Hq as [->|Hq]; [lia|].
    apply Hfresh in Hq. lia.
  - rewrite Hmu, Hmm, Hmem. case_bool_decide; [|done].
    rewrite wrap_int_add_l. f_equal.
    change (sizes (heap c') (p :: l))
      with (SizeInBytes (heap c' p) + sizes (heap c') l).
    rewrite (sizes_ext (heap c) (heap c')).
    + unfold SizeInBytes. rewrite Hk', Hv'. lia.
    + intros q Hq. assert (q <> p) as Hqp by (by intros ->).
      destruct (Hothers q Hqp) as (Hkq & Hvq & _).
      unfold SizeInBytes. by rewrite Hkq, Hvq.
Qed.

Lemma same_chain_update c p f :
  (forall e, next (f e) = next e /\ previous (f e) = previous e
             /\ Key (f e) = Key e /\ Value (f e) = Value e) ->
  same_chain c (update p f c).
Proof.
  intros Hf. do 6 (split; [done|]). intros q. simpl.
  unfold insert, fn_insert, SizeInBytes. case_decide; [subst q|done].
  destruct (Hf (heap c p)) as (-> & -> & -> & ->). done.
Qed.

(** A field update that keeps the links, the key and the value keeps the
    invariant of the chain. *)
Lemma chain_inv_update c l p f :
  (forall e, next (f e) = next e /\ previous (f e) = previous e
             /\ Key (f e) = Key e /\ Value (f e) = Value e) ->
  chain_inv c l -> chain_inv (update p f c) l.
Proof. intros Hf. apply chain_inv_frame. by apply same_chain_update. Qed.

Lemma chain_inv_set_stats c l x : chain_inv c l -> chain_inv (set_stats x c) l.
Proof. apply chain_inv_frame. by repeat split. Qed.

(** [SetWithTTL] of a key of the map, up to the move to the head: the value
    is replaced and the memory counter follows. *)
Lemma chain_inv_revalue c l1 p l2 value now :
  chain_inv c (l1 ++ p :: l2) ->
  let c1 := release_memory (heap c p) c in
  let c2 := update p (set_Value value) c1 in
  let c3 := update p (set_RelevantTimestamp now) c2 in
  let c4 := charge_memory (heap c3 p) c3 in
  chain_inv c4 (l1 ++ p :: l2) /\ same_config c c4 /\ stats c4 = stats c.
Proof.
  intros [Hnd Hhead Htail Hl Hmap Hfresh Hmem] c1 c2 c3 c4.
  destruct (NoDup_middle _ _ _ Hnd) as (Hp1 & Hp2 & Hnd').
  destruct (release_memory_fields (heap c p) c)
    as (Hh1 & Hhd1 & Htl1 & Hen1 & Hne1 & Hst1 & (Hpo1 & Hms1 & Hmm1) & Hmu1).
  fold c1 in Hh1, Hhd1, Htl1, Hen1, Hne1, Hst1, Hpo1, Hms1, Hmm1, Hmu1.
  destruct (charge_memory_fields (heap c3 p) c3)
    as (Hh4 & Hhd4 & Htl4 & Hen4 & Hne4 & Hst4 & (Hpo4 & Hms4 & Hmm4) & Hmu4).
  fold c4 in Hh4, Hhd4, Htl4, Hen4, Hne4, Hst4, Hpo4, Hms4, Hmm4, Hmu4.
  assert (heap c3 p = set_RelevantTimestamp now (set_Value value (heap c p)))
    as Hp3.
  { unfold c3, c2, update. simpl. unfold insert, fn_insert.
    rewrite !decide_True by done. by rewrite Hh1. }
  assert (forall q, q <> p -> heap c3 q = heap c q) as Hq3.
  { intros q Hq. unfold c3, c2, update. simpl. unfold insert, fn_insert.
    rewrite !decide_False by done. by rewrite Hh1. }
  assert (forall q, next (heap c4 q) = next (heap c q)
                    /\ previous (heap c4 q) = previous (heap c q)
                    /\ Key (heap c4 q) = Key (heap c q)) as Hsame.
  { intros q. rewrite Hh4. destruct (decide (q = p)) as [->|Hq].
    - by rewrite Hp3.
    - by rewrite (Hq3 q Hq). }
  change (head c3) with (head c1) in Hhd4.
  change (tail c3) with (tail c1) in Htl4.
  change (entries c3) with (entries c1) in Hen4.
  change (nextEntry c3) with (nextEntry c1) in Hne4.
  change (stats c3) with (stats c1) in Hst4.
  change (evictionPolicy c3) with (evictionPolicy c1) in Hpo4.
  change (maxSize c3) with (maxSize c1) in Hms4.
  split; [|split; [repeat split|]].
  - split.
    + done.
    + by rewrite Hhd4, Hhd1.
    + by rewrite Htl4, Htl1.
    + eapply linked_frame; [|exact Hl]. intros q _.
      by destruct (Hsame q) as (? & ? & _).
    + intros k q. destruct (Hsame q) as (_ & _ & ->). by rewrite Hen4, Hen1.
    + intros q Hq. rewrite Hne4, Hne1. by apply Hfresh.
    + rewrite Hmu4, Hmm4.
      change (maxMemoryUsage c3) with (maxMemoryUsage c1).
      change (memoryUsage c3) with (memoryUsage c1).
      rewrite Hmm1, Hmu1, Hmem.
      destruct (bool_decide (maxMemoryUsage c <> NoMaxMemoryUsage)); [|done].
      rewrite wrap_int_sub_l, wrap_int_add_l. f_equal.
      rewrite !sizes_middle.
      rewrite (sizes_ext (heap c) (heap c4)); [rewrite Hh4; lia|].
      intros q Hq. rewrite Hh4, Hq3; [done|]. intros ->.
      rewrite elem_of_app in Hq. tauto.
  - by rewrite Hpo4.
  - by rewrite Hms4.
  - rewrite Hmm4. exact Hmm1.
  - by rewrite Hst4.
Qed.

(** [SetWithTTL] from the expiration assignment to the end, under FIFO or
    LRU: it returns when the fuel covers the chain, with the chain within
    the bounds. *)
Lemma chain_inv_SetWithTTL_bounds fuel p ttl now c l :
  chain_inv c l -> evictionPolicy c <> LeastFrequentUsed ->
  (length l <= fuel)%nat ->
  exists c' l',
    SetWithTTL_bounds fuel p ttl now c = Done c' /\ chain_inv c' l'
    /\ same_config c c' /\ (length l' <= length l)%nat
    /\ (maxSize c <> NoMaxSize -> 0 <= maxSize c ->
        Z.of_nat (length l) <= maxSize c + 1 ->
        Z.of_nat (length l') <= maxSize c)
    /\ (maxMemoryUsage c <> NoMaxMemoryUsage ->
        memoryUsage c' <= maxMemoryUsage c \/ l' = []).
Proof.
  intros Hinv Hpol Hfuel. unfold SetWithTTL_bounds. cbv zeta.
  set (c0 := update p (set_Expiration (expiration_for ttl now)) c).
  assert (chain_inv c0 l) as Hinv0 by by apply chain_inv_update.
  change (maxSize c0) with (maxSize c).
  change (maxMemoryUsage c0) with (maxMemoryUsage c).
  destruct (bool_decide (maxSize c = NoMaxSize)
            && bool_decide (maxMemoryUsage c = NoMaxMemoryUsage)) eqn:Hearly.
  { apply andb_true_iff in Hearly as [Hms Hmm].
    apply bool_decide_eq_true in Hms, Hmm.
    exists c0, l. do 4 (split; [done|]). split; [done|]. done. }
  clear Hearly.
  set (c1 := if bool_decide (maxSize c <> NoMaxSize)
                && (maxSize c <? len_entries c0)
             then evict c0 else c0).
  assert (exists l1, chain_inv c1 l1 /\ same_config c c1
                 /\ (length l1 <= length l)%nat
                 /\ (maxSize c <> NoMaxSize -> 0 <= maxSize c ->
                     Z.of_nat (length l) <= maxSize c + 1 ->
                     Z.of_nat (length l1) <= maxSize c))
         as (l1 & Hinv1 & Hcfg1 & Hlen1 & Hsize1).
  { unfold c1.
    destruct (bool_decide (maxSize c <> NoMaxSize)
              && (maxSize c <? len_entries c0)) eqn:Hev.
    - destruct (chain_inv_evict c0 l Hinv0 Hpol) as (l1 & Hinv1 & Hcfg1 & Hlen1).
      exists l1. split; [done|]. split; [done|]. split; [lia|].
      intros _ Hpos Hbound. lia.
    - exists l. split; [done|]. split; [done|]. split; [done|].
      intros Hne _ _.
      apply andb_false_iff in Hev as [Hev|Hev].
      + by apply bool_decide_eq_false in Hev.
      + apply Z.ltb_ge in Hev. unfold len_entries in Hev.
        by rewrite (chain_inv_size _ _ Hinv0) in Hev. }
  clearbody c1.
  assert (evictionPolicy c1 <> LeastFrequentUsed) as Hpol1
    by (destruct Hcfg1 as (-> & _); done).
  destruct Hcfg1 as (Hpo1 & Hms1 & Hmm1).
  rewrite Hmm1.
  destruct (bool_decide (maxMemoryUsage c <> NoMaxMemoryUsage)
            && (maxMemoryUsage c <? memoryUsage c1)) eqn:Hover.
  - destruct (chain_inv_evict_loop fuel c1 l1 Hinv1 Hpol1)
      as (c2 & l2 & -> & Hinv2 & (Hpo2 & Hms2 & Hmm2) & Hlen2 & Hend); [lia|].
    cbn [mbind Outcome_bind].
    rewrite bool_decide_eq_false_2 by (by rewrite Hpo2).
    exists c2, l2. split; [done|]. split; [done|].
    split; [repeat split; congruence|]. split; [lia|]. split.
    + intros H1 H2 H3. specialize (Hsize1 H1 H2 H3). lia.
    + intros _. rewrite Hmm2, Hmm1 in Hend. done.
  - cbn [mbind Outcome_bind]. rewrite bool_decide_eq_false_2 by done.
    exists c1, l1. split; [done|]. split; [done|].
    split; [by repeat split|]. split; [done|]. split; [done|].
    intros Hne. left.
    apply andb_false_iff in Hover as [Hover|Hover].
    + apply bool_decide_eq_false in Hover. tauto.
    + by apply Z.ltb_ge in Hover.
Qed.

Lemma recency_inv_intro c c' l :
  recency_inv c -> same_config c c' -> chain_inv c' l ->
  (maxSize c <> NoMaxSize -> Z.of_nat (length l) <= maxSize c) ->
  recency_inv c'.
Proof.
  intros (Hpol & Hms & Hmm & _) (Hpo' & Hms' & Hmm') Hinv Hlen.
  rewrite <- Hpo', <- Hms', <- Hmm' in *. split; [done|].
  split; [done|]. split; [done|]. by exists l.
Qed.

(** [SetWithTTL] between [Lock] and [Unlock] under FIFO or LRU: it returns
    when the fuel exceeds the number of entries, the invariant holds after
    it, and the memory counter is within its bound when the entry was
    stored. *)
Lemma recency_inv_SetWithTTL_locked_total fuel key value ttl now c :
  recency_inv c -> (size (entries c) < fuel)%nat ->
  exists c',
    SetWithTTL_locked fuel key value ttl now c = Done (tt, c')
    /\ recency_inv c' /\ same_config c c'
    /\ (ttl = NoExpiration \/ 1 <= ttl ->
        maxMemoryUsage c <> NoMaxMemoryUsage ->
        memoryUsage c' <= maxMemoryUsage c').
Proof.
  intros Hrec Hfuel. pose proof Hrec as (Hpol & Hms & Hmm & l & Hinv & Hlen).
  rewrite (chain_inv_size _ _ Hinv) in Hfuel.
  unfold SetWithTTL_locked, get. cbv zeta.
  assert (forall c0 l' (p : eptr),
    chain_inv c0 l' -> same_config c c0 ->
    (maxSize c <> NoMaxSize -> Z.of_nat (length l') <= maxSize c + 1) ->
    (length l' <= fuel)%nat ->
    exists c',
      (SetWithTTL_bounds fuel p ttl now c0 ≫= fun c => Done (tt, c))
      = Done (tt, c')
      /\ recency_inv c' /\ same_config c c'
      /\ (maxMemoryUsage c <> NoMaxMemoryUsage ->
          memoryUsage c' <= maxMemoryUsage c')) as Hbounds.
  { intros c0 l' p Hinv0 (Hpo0 & Hms0 & Hmm0) Hlen0 Hfuel0.
    destruct (chain_inv_SetWithTTL_bounds fuel p ttl now c0 l' Hinv0)
      as (c' & l'' & -> & Hinv' & (Hpo' & Hms' & Hmm') & Hlen' & Hsize & Hmem);
      [by rewrite Hpo0|done|].
    exists c'. cbn [mbind Outcome_bind]. split; [done|].
    assert (same_config c c') as Hcfg by (repeat split; congruence).
    split; [|split; [done|]].
    - apply (recency_inv_intro c c' l''); [done..|].
      intros Hne. rewrite Hms0 in Hsize. apply Hsize; [done|done|auto].
    - intros Hne. rewrite Hmm0 in Hmem. rewrite Hmm', Hmm0.
      destruct Hmem as [Hle| ->]; [done|done|].
      rewrite (chain_memory _ _ Hinv'), Hmm', Hmm0.
      rewrite bool_decide_eq_true_2 by done. by cbn. }
  destruct (entries c !! key) as [p|] eqn:Hkey.
  - destruct (bool_decide (ttl <> NoExpiration) && (ttl <? 1)) eqn:Hinstant.
    + destruct (chain_inv_delete_entry c l key p Hinv Hpol Hkey)
        as (c' & l1 & l2 & -> & -> & Hinv' & Hcfg & _).
      exists c'. cbn [mbind Outcome_bind]. split; [done|].
      split; [|split; [done|]].
      * apply (recency_inv_intro c c' (l1 ++ l2)); [done..|].
        intros Hne. specialize (Hlen Hne).
        rewrite length_app in Hlen |- *. simpl in Hlen. lia.
      * intros [->|Hpos]; apply andb_true_iff in Hinstant as [Hne Hlt].
        -- by apply bool_decide_eq_true in Hne.
        -- apply Z.ltb_lt in Hlt. lia.
    + assert (p ∈ l) as Hp by by apply (chain_map _ _ Hinv) in Hkey as [? _].
      apply list_elem_of_split in Hp as (l1 & l2 & ->).
      destruct (chain_inv_revalue c l1 p l2 value now Hinv)
        as (Hinv4 & Hcfg4 & _).
      set (c4 := charge_memory _ _) in *.
      destruct (chain_inv_moveExistingEntryToHead c4 l1 p l2 Hinv4)
        as (Hinv5 & Hlinks5).
      set (c5 := moveExistingEntryToHead p c4) in *.
      destruct (Hbounds c5 (p :: l1 ++ l2) p Hinv5) as (c' & Hrun & Hrest).
      * eapply same_config_trans; [exact Hcfg4|].
        destruct Hlinks5 as (? & ? & ? & _). by repeat split.
      * intros Hne. specialize (Hlen Hne).
        rewrite length_app in Hlen. simpl in Hlen |- *.
        rewrite length_app. lia.
      * rewrite length_app in Hfuel. simpl in Hfuel |- *.
        rewrite length_app. lia.
      * exists c'. split; [done|]. destruct Hrest as (? & ? & ?). auto.
  - destruct (bool_decide (ttl <> NoExpiration) && (ttl <? 1)) eqn:Hinstant.
    + exists c. split; [done|]. split; [done|]. split; [done|].
      intros [->|Hpos]; apply andb_true_iff in Hinstant as [Hne Hlt].
      * by apply bool_decide_eq_true in Hne.
      * apply Z.ltb_lt in Hlt. lia.
    + destruct (chain_inv_create_entry c l key value now Hinv Hkey)
        as (Hp & Hinv1 & Hcfg1 & _).
      destruct (create_entry key value now c) as [p c1]. cbn [fst snd] in *.
      destruct (Hbounds c1 (nextEntry c :: l) p Hinv1 Hcfg1)
        as (c' & Hrun & Hrest).
      * intros Hne. specialize (Hlen Hne). simpl. lia.
      * simpl. lia.
      * exists c'. split; [done|]. destruct Hrest as (? & ? & ?). auto.
Qed.

(** More fuel does not change a result. *)
Lemma evict_loop_fuel fuel fuel' c c' :
  (fuel <= fuel')%nat ->
  evict_loop fuel c = Done c' -> evict_loop fuel' c = Done c'.
Proof.
  revert fuel' c. induction fuel as [|fuel IH]; intros fuel' c Hle.
  - destruct fuel'; simpl;
      destruct ((maxMemoryUsage c <? memoryUsage c) && (0 <? len_entries c));
      done.
  - destruct fuel' as [|fuel']; [lia|]. simpl.
    destruct ((maxMemoryUsage c <? memoryUsage c) && (0 <? len_entries c));
      [|done].
    apply IH. lia.
Qed.

Lemma SetWithTTL_bounds_fuel fuel fuel' p ttl now c c' :
  (fuel <= fuel')%nat ->
  SetWithTTL_bounds fuel p ttl now c = Done c' ->
  SetWithTTL_bounds fuel' p ttl now c = Done c'.
Proof.
  intros Hle. unfold SetWithTTL_bounds. cbv zeta.
  set (c0 := update p (set_Expiration (expiration_for ttl now)) c).
  destruct (bool_decide (maxSize c0 = NoMaxSize)
            && bool_decide (maxMemoryUsage c0 = NoMaxMemoryUsage)); [done|].
  set (c1 := if bool_decide (maxSize c0 <> NoMaxSize)
                && (maxSize c0 <? len_entries c0)
             then evict c0 else c0).
  destruct (bool_decide (maxMemoryUsage c1 <> NoMaxMemoryUsage)
            && (maxMemoryUsage c1 <? memoryUsage c1)); [|done].
  destruct (evict_loop fuel c1) as [c2| |] eqn:Hloop; [|done..].
  by rewrite (evict_loop_fuel _ _ _ _ Hle Hloop).
Qed.

Lemma SetWithTTL_locked_fuel fuel fuel' key value ttl now c r :
  (fuel <= fuel')%nat ->
  SetWithTTL_locked fuel key value ttl now c = Done r ->
  SetWithTTL_locked fuel' key value ttl now c = Done r.
Proof.
  intros Hle. unfold SetWithTTL_locked. cbv zeta.
  set (instant := bool_decide (ttl <> NoExpiration) && (ttl <? 1)).
  destruct (get c key) as [p|].
  - destruct instant; [exact id|].
    set (c5 := moveExistingEntryToHead _ _).
    destruct (SetWithTTL_bounds fuel p ttl now c5) as [c2| |] eqn:Hb;
      cbn [mbind Outcome_bind]; [|discriminate..].
    rewrite (SetWithTTL_bounds_fuel _ _ _ _ _ _ _ Hle Hb). exact id.
  - destruct instant; [exact id|].
    destruct (create_entry key value now c) as [p c1].
    destruct (SetWithTTL_bounds fuel p ttl now c1) as [c2| |] eqn:Hb;
      cbn [mbind Outcome_bind]; [|discriminate..].
    rewrite (SetWithTTL_bounds_fuel _ _ _ _ _ _ _ Hle Hb). exact id.
Qed.

(** [SetWithTTL] between [Lock] and [Unlock] keeps the invariant, whatever
    the fuel it returned with. *)
Lemma recency_inv_SetWithTTL_locked fuel key value ttl now c c' :
  recency_inv c ->
  SetWithTTL_locked fuel key value ttl now c = Done (tt, c') ->
  recency_inv c' /\ same_config c c'
  /\ (ttl = NoExpiration \/ 1 <= ttl ->
      maxMemoryUsage c <> NoMaxMemoryUsage ->
      memoryUsage c' <= maxMemoryUsage c').
Proof.
  intros Hrec Hrun.
  set (fuel' := Nat.max fuel (S (size (entries c)))).
  assert (fuel <= fuel')%nat as Hle by (unfold fuel'; lia).
  destruct (recency_inv_SetWithTTL_locked_total fuel' key value ttl now c Hrec)
    as (c'' & Hrun' & Hrest); [unfold fuel'; lia|].
  rewrite (SetWithTTL_locked_fuel _ _ _ _ _ _ _ _ Hle Hrun) in Hrun'.
  by injection Hrun' as <-.
Qed.

End Chain.

(** *** The invariant of the chain through the critical sections *)

Section Recency.
Context {V : Type} `{Payload V} `{RangeOrder} `{PatternMatcher}.
Implicit Types (c : Cache V) (p q : eptr) (l : list eptr).

Lemma recency_inv_set_stats c x : recency_inv c -> recency_inv (set_stats x c).
Proof.
  intros (Hpol & Hms & Hmm & l & Hinv & Hlen).
  split; [done|]. split; [done|]. split; [done|]. exists l.
  split; [by apply chain_inv_set_stats|done].
Qed.

Lemma recency_inv_update c p f :
  (forall e, next (f e) = next e /\ previous (f e) = previous e
             /\ Key (f e) = Key e /\ Value (f e) = Value e) ->
  recency_inv c -> recency_inv (update p f c).
Proof.
  intros Hf (Hpol & Hms & Hmm & l & Hinv & Hlen).
  split; [done|]. split; [done|]. split; [done|]. exists l.
  split; [by apply chain_inv_update|done].
Qed.

(** [delete] keeps the invariant. *)
Lemma recency_inv_delete_entry key c r c' :
  recency_inv c -> delete_entry key c = Done (r, c') -> recency_inv c'.
Proof.
  intros Hrec. pose proof Hrec as (Hpol & Hms & Hmm & l & Hinv & Hlen).
  destruct (entries c !! key) as [p|] eqn:Hkey.
  - destruct (chain_inv_delete_entry c l key p Hinv Hpol Hkey)
      as (c1 & l1 & l2 & -> & -> & Hinv' & Hcfg & _).
    intros [= _ <-]. apply (recency_inv_intro c c1 (l1 ++ l2)); [done..|].
    intros Hne. specialize (Hlen Hne).
    rewrite length_app in Hlen |- *. simpl in Hlen. lia.
  - unfold delete_entry. rewrite Hkey. by intros [= _ <-].
Qed.

(** [Get] between [Lock] and [Unlock] keeps the invariant. *)
Lemma recency_inv_Get_locked key now c r c' :
  recency_inv c -> Get_locked key now c = Done (r, c') -> recency_inv c'.
Proof.
  intros Hrec. unfold Get_locked, get.
  destruct (entries c !! key) as [p|] eqn:Hkey.
  2:{ intros [= _ <-]. by apply recency_inv_set_stats. }
  destruct (Expired now (heap c p)).
  { cbv zeta.
    destruct (delete_entry key (count_expired c)) as [[b c1]| |] eqn:Hdel;
      cbn [mbind Outcome_bind]; [|discriminate..].
    intros [= _ <-]. eapply recency_inv_delete_entry; [|exact Hdel].
    by apply recency_inv_set_stats. }
  cbv zeta.
  set (c1 := count_hits 1 c).
  assert (recency_inv c1) as Hrec1 by by apply recency_inv_set_stats.
  pose proof Hrec1 as (Hpol1 & _).
  change (evictionPolicy c1) with (evictionPolicy c) in *.
  destruct (bool_decide (evictionPolicy c = LeastRecentlyUsed)).
  - set (c2 := update p (Accessed now) c1).
    assert (recency_inv c2) as Hrec2 by by apply recency_inv_update.
    destruct (bool_decide (head c2 = Some p)); [by intros [= _ <-]|].
    set (c3 := moveExistingEntryToHead p c2).
    assert (recency_inv c3) as Hrec3.
    { pose proof Hrec2 as (_ & _ & _ & l & Hinv & Hlen).
      assert (p ∈ l) as Hp.
      { apply (chain_map _ _ Hinv key p). exact Hkey. }
      apply list_elem_of_split in Hp as (l1 & l2 & ->).
      destruct (chain_inv_moveExistingEntryToHead c2 l1 p l2 Hinv)
        as (Hinv3 & Hlinks).
      apply (recency_inv_intro c2 c3 (p :: l1 ++ l2)); [done| |done|].
      - destruct Hlinks as (? & ? & ? & _). by repeat split.
      - intros Hne. specialize (Hlen Hne).
        rewrite length_app in Hlen. simpl in Hlen |- *.
        rewrite length_app. lia. }
    assert (evictionPolicy c3 <> LeastFrequentUsed) as Hpol3 by apply Hrec3.
    rewrite bool_decide_eq_false_2 by done. by intros [= _ <-].
  - rewrite bool_decide_eq_false_2 by done. by intros [= _ <-].
Qed.

Lemma recency_inv_Get_answer key now c r c' :
  recency_inv c -> Get_answer key now c = Done (r, c') -> recency_inv c'.
Proof.
  intros Hrec [r0 Hget]%Get_answer_inv. by eapply recency_inv_Get_locked.
Qed.

Lemma recency_inv_GetAll_loop now kes found c r c' :
  recency_inv c -> GetAll_loop now kes found c = Done (r, c') ->
  recency_inv c'.
Proof.
  revert found c. induction kes as [|[key p] kes IH]; intros found c Hrec;
    cbn [GetAll_loop]; [by intros [= _ <-]|].
  destruct (Expired now (heap c p)); [|by apply IH].
  destruct (delete_entry key c) as [[b c1]| |] eqn:Hdel;
    cbn [mbind Outcome_bind]; [|discriminate..].
  apply IH. by eapply recency_inv_delete_entry.
Qed.

Lemma recency_inv_GetAll_locked now c r c' :
  recency_inv c -> GetAll_locked now c = Done (r, c') -> recency_inv c'.
Proof.
  intros Hrec. unfold GetAll_locked.
  destruct (GetAll_loop now _ ∅ c) as [[found c1]| |] eqn:Hloop;
    cbn [mbind Outcome_bind]; [|discriminate..].
  intros [= _ <-]. apply recency_inv_set_stats.
  by eapply recency_inv_GetAll_loop.
Qed.

Lemma recency_inv_DeleteAll_loop keys n c r c' :
  recency_inv c -> DeleteAll_loop keys n c = Done (r, c') -> recency_inv c'.
Proof.
  revert n c. induction keys as [|key keys IH]; intros n c Hrec;
    cbn [DeleteAll_loop]; [by intros [= _ <-]|].
  destruct (delete_entry key c) as [[b c1]| |] eqn:Hdel;
    cbn [mbind Outcome_bind]; [|discriminate..].
  apply IH. by eapply recency_inv_delete_entry.
Qed.

(** [Clear] empties the chain with the map. *)
Lemma recency_inv_Clear_locked c : recency_inv c -> recency_inv (Clear_locked c).
Proof.
  intros (Hpol & Hms & Hmm & _).
  split; [done|]. split; [done|]. split; [done|]. exists [].
  split; [|simpl; lia].
  split; try done.
  - apply NoDup_nil_2.
  - intros k p. cbn. rewrite lookup_empty, elem_of_nil. split; [done|tauto].
  - intros p Hp. by apply elem_of_nil in Hp.
  - cbn. by case_bool_decide.
Qed.

Lemma recency_inv_janitor_walk remaining found current now c r c' :
  recency_inv c -> janitor_walk remaining found current now c = Done (r, c') ->
  recency_inv c'.
Proof.
  revert found current c.
  induction remaining as [|remaining IH]; intros found current c Hrec;
    destruct current as [cur|]; cbn [janitor_walk]; try by intros [= _ <-].
  match goal with
  | |- (?m ≫= _) = _ -> _ =>
      destruct m as [[[found1 previous1] c1]| |] eqn:Hstep;
        cbn [mbind Outcome_bind]; [|discriminate..]
  end.
  assert (recency_inv c1) as Hrec1.
  { destruct (Expired _ _); [|by injection Hstep as <- <- <-].
    destruct (delete_entry _ c) as [[b c2]| |] eqn:Hdel;
      cbn [mbind Outcome_bind] in Hstep; [|discriminate..].
    injection Hstep as <- <- <-. apply recency_inv_set_stats.
    by eapply recency_inv_delete_entry. }
  destruct (bool_decide (Some cur = _)); [by intros [= _ <-]|].
  destruct (_ || _); [by intros [= _ <-]|]. by apply IH.
Qed.

Lemma recency_inv_janitor_shift lastTraversedNode now c r c' :
  recency_inv c -> janitor_shift lastTraversedNode now c = Done (r, c') ->
  recency_inv c'.
Proof.
  intros Hrec. unfold janitor_shift.
  destruct (tail c); [|by intros [= _ <-]]. by apply recency_inv_janitor_walk.
Qed.

End Recency.

(** *** The configuration is fixed at construction *)

Section Config.
Context {V : Type} `{Payload V} `{RangeOrder} `{PatternMatcher}.
Implicit Types (c : Cache V) (p q : eptr).

Lemma same_counters_config c c' : same_counters c c' -> same_config c c'.
Proof. by intros (_ & ? & ? & ?). Qed.

Lemma cfg_removeExistingEntryReferences p c :
  same_config c (removeExistingEntryReferences p c).
Proof. apply same_counters_config, sc_removeExistingEntryReferences. Qed.

Lemma cfg_moveExistingEntryToHead p c :
  same_config c (moveExistingEntryToHead p c).
Proof.
  unfold moveExistingEntryToHead.
  pose proof (cfg_removeExistingEntryReferences p c) as (? & ? & ?).
  repeat case_match; by repeat split.
Qed.

Lemma cfg_remove_from_element l p c : same_config c (remove_from_element l p c).
Proof. apply same_counters_config, sc_remove_from_element. Qed.

Lemma cfg_incrementEntryFrequency p c c' :
  incrementEntryFrequency p c = Done c' -> same_config c c'.
Proof.
  unfold incrementEntryFrequency. cbv zeta.
  match goal with
  | |- (?m ≫= _) = _ -> _ =>
      destruct m as [[[amount cand] pos]| |];
        cbn [mbind Outcome_bind]; [|discriminate..]
  end.
  match goal with
  | |- (let '(_, _) := ?m in _) = _ -> _ => set (pick := m)
  end.
  assert (same_config c pick.2) as Hpick.
  { unfold pick, new_element. by repeat case_match. }
  destruct pick as [nf c1]. cbn [snd] in Hpick.
  destruct Hpick as (Hpo & Hms & Hmm).
  destruct (frequencyParent (heap c p)) as [l|].
  - unfold removeEntryFromFrequencyList. intros [= <-].
    eapply same_config_trans; [|apply cfg_remove_from_element].
    by repeat split.
  - intros [= <-]. by repeat split.
Qed.

Lemma cfg_release_memory (e : Entry V) c : same_config c (release_memory e c).
Proof. apply same_counters_config, sc_release_memory. Qed.

Lemma cfg_charge_memory (e : Entry V) c : same_config c (charge_memory e c).
Proof. unfold charge_memory. by case_match. Qed.

Lemma cfg_evict_entry l p c : same_config c (evict_entry l p c).
Proof.
  unfold evict_entry. cbv zeta.
  eapply same_config_trans; [|apply cfg_release_memory].
  eapply same_config_trans; [apply (cfg_removeExistingEntryReferences p)|].
  eapply same_config_trans; [|apply (cfg_remove_from_element l p)].
  by repeat split.
Qed.

Lemma cfg_evict c : same_config c (evict c).
Proof.
  unfold evict. destruct (_ || _); [done|].
  destruct (bool_decide (evictionPolicy c = LeastFrequentUsed)).
  - destruct (Front (freqs c)) as [[item it]|]; [|done].
    generalize (range_set (Entries it)). intros ps. revert c.
    induction ps as [|p ps IH]; intros c; [done|]. simpl.
    eapply same_config_trans; [apply (cfg_evict_entry item p)|apply IH].
  - destruct (tail c) as [t|]; [|done]. cbv zeta.
    eapply same_config_trans; [apply (cfg_removeExistingEntryReferences t)|].
    eapply same_config_trans; [|apply (cfg_release_memory _ _)].
    by repeat split.
Qed.

Lemma cfg_evict_loop fuel c c' : evict_loop fuel c = Done c' -> same_config c c'.
Proof.
  revert c. induction fuel as [|fuel IH]; intros c; simpl;
    destruct (_ && _); try done; try by intros [= <-].
  intros Hrun. eapply same_config_trans; [apply cfg_evict|by apply IH].
Qed.

Lemma cfg_delete_entry key c r c' :
  delete_entry key c = Done (r, c') -> same_config c c'.
Proof. intros Hrun. by eapply same_counters_config, sc_delete_entry. Qed.

Lemma cfg_SetWithTTL_bounds fuel p ttl now c c' :
  SetWithTTL_bounds fuel p ttl now c = Done c' -> same_config c c'.
Proof.
  unfold SetWithTTL_bounds. cbv zeta.
  set (c0 := update p (set_Expiration (expiration_for ttl now)) c).
  assert (same_config c c0) as Hc0 by by repeat split.
  clearbody c0.
  destruct (bool_decide (maxSize c0 = NoMaxSize)
            && bool_decide (maxMemoryUsage c0 = NoMaxMemoryUsage));
    [by intros [= <-]|].
  set (c1 := if bool_decide (maxSize c0 <> NoMaxSize)
                && (maxSize c0 <? len_entries c0)
             then evict c0 else c0).
  assert (same_config c0 c1) as Hc1.
  { unfold c1. destruct (_ && _); [apply cfg_evict|done]. }
  clearbody c1.
  assert (forall c2, same_config c1 c2 ->
            (if bool_decide (evictionPolicy c2 = LeastFrequentUsed)
             then incrementEntryFrequency p c2 else Done c2) = Done c' ->
            same_config c c') as Hlast.
  { intros c2 Hc2 Hrun.
    assert (same_config c2 c') as Hc3.
    { destruct (bool_decide _); [by eapply cfg_incrementEntryFrequency|].
      by injection Hrun as <-. }
    eauto using same_config_trans. }
  destruct (bool_decide (maxMemoryUsage c1 <> NoMaxMemoryUsage)
            && (maxMemoryUsage c1 <? memoryUsage c1)).
  - destruct (evict_loop fuel c1) as [c2| |] eqn:Hloop;
      cbn [mbind Outcome_bind]; [|discriminate..].
    apply Hlast. by eapply cfg_evict_loop.
  - cbn [mbind Outcome_bind]. by apply Hlast.
Qed.

Lemma cfg_SetWithTTL_locked fuel key value ttl now c r c' :
  SetWithTTL_locked fuel key value ttl now c = Done (r, c') ->
  same_config c c'.
Proof.
  unfold SetWithTTL_locked. cbv zeta.
  set (instant := bool_decide (ttl <> NoExpiration) && (ttl <? 1)).
  destruct (get c key) as [p|].
  - destruct instant.
    + destruct (delete_entry key c) as [[b c1]| |] eqn:Hdel;
        cbn [mbind Outcome_bind]; [|discriminate..].
      intros [= _ <-]. by eapply cfg_delete_entry.
    + set (c1 := release_memory (heap c p) c).
      set (c3 := update p (set_RelevantTimestamp now)
                   (update p (set_Value value) c1)).
      set (c4 := charge_memory (heap c3 p) c3).
      set (c5 := moveExistingEntryToHead p c4).
      assert (same_config c c5) as Hc5.
      { eapply same_config_trans; [apply (cfg_release_memory (heap c p))|].
        fold c1.
        eapply same_config_trans; [|apply cfg_moveExistingEntryToHead].
        eapply same_config_trans; [|apply cfg_charge_memory].
        by repeat split. }
      clearbody c5.
      destruct (SetWithTTL_bounds fuel p ttl now c5) as [c6| |] eqn:Hb;
        cbn [mbind Outcome_bind]; [|discriminate..].
      intros [= _ <-].
      eapply same_config_trans; [exact Hc5|by eapply cfg_SetWithTTL_bounds].
  - destruct instant; [by intros [= _ <-]|].
    destruct (create_entry_fields key value now c)
      as (_ & Hpo & _ & Hmm & Hms & _).
    destruct (create_entry key value now c) as [p c1]. cbn [snd] in *.
    destruct (SetWithTTL_bounds fuel p ttl now c1) as [c6| |] eqn:Hb;
      cbn [mbind Outcome_bind]; [|discriminate..].
    intros [= _ <-].
    eapply same_config_trans; [|by eapply cfg_SetWithTTL_bounds].
    by repeat split.
Qed.

Lemma cfg_Get_locked key now c r c' :
  Get_locked key now c = Done (r, c') -> same_config c c'.
Proof.
  unfold Get_locked. destruct (get c key) as [p|]; [|by intros [= _ <-]].
  destruct (Expired now (heap c p)).
  { cbv zeta.
    destruct (delete_entry key (count_expired c)) as [[b c1]| |] eqn:Hdel;
      cbn [mbind Outcome_bind]; [|discriminate..].
    intros [= _ <-]. by apply cfg_delete_entry in Hdel. }
  cbv zeta. set (c1 := count_hits 1 c).
  change (evictionPolicy c1) with (evictionPolicy c).
  destruct (bool_decide (evictionPolicy c = LeastRecentlyUsed)).
  - set (c2 := update p (Accessed now) c1).
    destruct (bool_decide (head c2 = Some p)); [by intros [= _ <-]|].
    set (c3 := moveExistingEntryToHead p c2).
    assert (same_config c c3) as Hc3.
    { eapply same_config_trans; [|apply cfg_moveExistingEntryToHead].
      by repeat split. }
    clearbody c3.
    match goal with
    | |- (?m ≫= _) = _ -> _ =>
        destruct m as [c4| |] eqn:Hm; cbn [mbind Outcome_bind];
          [|discriminate..]
    end.
    intros [= _ <-]. eapply same_config_trans; [exact Hc3|].
    destruct (bool_decide _); [by eapply cfg_incrementEntryFrequency|].
    by injection Hm as <-.
  - match goal with
    | |- (?m ≫= _) = _ -> _ =>
        destruct m as [c4| |] eqn:Hm; cbn [mbind Outcome_bind];
          [|discriminate..]
    end.
    intros [= _ <-].
    destruct (bool_decide _);
      [by apply cfg_incrementEntryFrequency in Hm|].
    by injection Hm as <-.
Qed.

Lemma cfg_Get_answer key now c r c' :
  Get_answer key now c = Done (r, c') -> same_config c c'.
Proof.
  intros [r0 Hget]%Get_answer_inv. by eapply cfg_Get_locked.
Qed.

Lemma cfg_GetAll_loop now kes found c r c' :
  GetAll_loop now kes found c = Done (r, c') -> same_config c c'.
Proof. intros Hrun. by eapply same_counters_config, sc_GetAll_loop. Qed.

Lemma cfg_GetAll_locked now c r c' :
  GetAll_locked now c = Done (r, c') -> same_config c c'.
Proof.
  unfold GetAll_locked.
  destruct (GetAll_loop now _ ∅ c) as [[found c1]| |] eqn:Hloop;
    cbn [mbind Outcome_bind]; [|discriminate..].
  intros [= _ <-]. by apply cfg_GetAll_loop in Hloop.
Qed.

Lemma cfg_DeleteAll_loop keys n c r c' :
  DeleteAll_loop keys n c = Done (r, c') -> same_config c c'.
Proof. intros Hrun. by eapply same_counters_config, sc_DeleteAll_loop. Qed.

Lemma cfg_janitor_walk remaining found current now c r c' :
  janitor_walk remaining found current now c = Done (r, c') ->
  same_config c c'.
Proof.
  revert found current c.
  induction remaining as [|remaining IH]; intros found current c;
    destruct current as [cur|]; cbn [janitor_walk]; try by intros [= _ <-].
  match goal with
  | |- (?m ≫= _) = _ -> _ =>
      destruct m as [[[found1 previous1] c1]| |] eqn:Hstep;
        cbn [mbind Outcome_bind]; [|discriminate..]
  end.
  assert (same_config c c1) as Hc1.
  { destruct (Expired _ _); [|by injection Hstep as <- <- <-].
    destruct (delete_entry _ c) as [[b c2]| |] eqn:Hdel;
      cbn [mbind Outcome_bind] in Hstep; [|discriminate..].
    injection Hstep as <- <- <-. by apply cfg_delete_entry in Hdel. }
  destruct (bool_decide (Some cur = _)); [by intros [= _ <-]|].
  destruct (_ || _); [by intros [= _ <-]|].
  intros Hrun. eapply same_config_trans; [exact Hc1|by eapply IH].
Qed.

Lemma cfg_janitor_shift lastTraversedNode now c r c' :
  janitor_shift lastTraversedNode now c = Done (r, c') -> same_config c c'.
Proof.
  unfold janitor_shift.
  destruct (tail c); [|by intros [= _ <-]]. apply cfg_janitor_walk.
Qed.

End Config.

(** *** The invariant of the chain in every reachable state *)

Section RecencyReachable.
Context {V : Type} `{Payload V} `{RangeOrder} `{PatternMatcher}.
Implicit Types (c : Cache V).

(** A call leaves the configuration alone. *)
Lemma call_same_config fuel now cl c r c' :
  run (call fuel now cl) c = Done (r, c') -> same_config c c'.
Proof.
  intros Hrun.
  apply (op_preserves_call (same_config c)) with (fuel:=fuel) (now:=now)
    (cl:=cl) (c:=c) (r:=r); [..|apply same_config_refl|exact Hrun].
  - intros ???????? Hc Hf. eapply same_config_trans; [exact Hc|].
    by eapply cfg_SetWithTTL_locked.
  - intros ????? Hc Hf. eapply same_config_trans; [exact Hc|].
    by eapply cfg_Get_locked.
  - intros ???? Hc Hf. eapply same_config_trans; [exact Hc|].
    by eapply cfg_GetAll_locked.
  - intros ???? Hc Hf. eapply same_config_trans; [exact Hc|].
    by eapply cfg_delete_entry.
  - intros ????? Hc Hf. eapply same_config_trans; [exact Hc|].
    by eapply cfg_DeleteAll_loop.
  - intros ? Hc. eapply same_config_trans; [exact Hc|]. by repeat split.
  - intros ????? Hc Hf. eapply same_config_trans; [exact Hc|].
    by eapply cfg_janitor_shift.
  - intros ??? Hc. eapply same_config_trans; [exact Hc|]. by repeat split.
Qed.

(** Under FIFO or LRU every call keeps the invariant of the chain. *)
Lemma recency_inv_call fuel now cl :
  op_preserves (V:=V) recency_inv (call fuel now cl).
Proof.
  apply (op_preserves_call recency_inv).
  - intros fuel' key value ttl now' c [] c' Hc Hf.
    exact (proj1 (recency_inv_SetWithTTL_locked _ _ _ _ _ _ _ Hc Hf)).
  - exact recency_inv_Get_locked.
  - exact recency_inv_GetAll_locked.
  - exact recency_inv_delete_entry.
  - exact recency_inv_DeleteAll_loop.
  - exact recency_inv_Clear_locked.
  - exact recency_inv_janitor_shift.
  - intros p x c. apply recency_inv_update. intros e. by destruct e.
Qed.

Lemma recency_inv_NewCache opts :
  evictionPolicy (NewCache (V:=V) opts) <> LeastFrequentUsed ->
  recency_inv (NewCache (V:=V) opts).
Proof.
  unfold NewCache.
  set (c0 := mkCache _ _ _ _ _ _ _ _ _ _ _ _ _).
  assert (entries c0 = ∅ /\ head c0 = None /\ tail c0 = None
          /\ memoryUsage c0 = 0 /\ 0 <= maxSize c0 /\ 0 <= maxMemoryUsage c0)
    as Hc0 by (by repeat split).
  clearbody c0. revert c0 Hc0.
  induction opts as [|o opts IH];
    intros c0 (He & Hh & Ht & Hm & Hms & Hmm); simpl.
  - intros Hpol. do 3 (split; [done|]). exists []. split; [|simpl].
    + split; try done.
      * apply NoDup_nil_2.
      * intros k p. rewrite He, lookup_empty, elem_of_nil. split; [done|tauto].
      * intros p Hp. by apply elem_of_nil in Hp.
      * rewrite Hm. by case_bool_decide.
    + intros _. lia.
  - apply IH. destruct o; simpl; rewrite ?He, ?Hh, ?Ht, ?Hm.
    + repeat split; try done. destruct (_ <? _) eqn:Hneg; [done|].
      by apply Z.ltb_ge in Hneg.
    + repeat split; try done; [by repeat case_match|].
      destruct (_ <? _) eqn:Hneg; [done|]. by apply Z.ltb_ge in Hneg.
    + by repeat split.
    + by repeat split.
Qed.

Lemma reachable_recency_inv c :
  reachable c -> evictionPolicy c <> LeastFrequentUsed -> recency_inv c.
Proof.
  induction 1 as [opts|c c' fuel now cl _ IH Hrun]; intros Hpol.
  - by apply recency_inv_NewCache.
  - destruct (call_same_config _ _ _ _ _ _ Hrun) as (Hpo & _).
    eapply recency_inv_call; [|exact Hrun]. apply IH. by rewrite <- Hpo.
Qed.

End RecencyReachable.

(** *** From the invariant to the chain of the specification *)

Section Described.
Context {V : Type} `{Payload V} `{RangeOrder} `{PatternMatcher}.
Implicit Types (c : Cache V) (p q : eptr) (l : list eptr).

Lemma walk_linked (h : eptr -> Entry V) prev l :
  linked h prev l -> walk (length l) h (l !! O) = l.
Proof.
  revert prev. induction l as [|p l IH]; intros prev; [done|].
  intros (_ & Hnext & Hl). cbn [length walk lookup list_lookup].
  rewrite Hnext. f_equal. by eapply IH.
Qed.

(** The chain of the invariant is the chain that the specification
    describes. *)
Lemma chain_inv_described c l : chain_inv c l -> chain_described c.
Proof.
  intros Hinv. pose proof (chain_inv_size _ _ Hinv) as Hsize.
  destruct Hinv as [Hnd Hhead Htail Hl Hmap Hfresh Hmem].
  unfold chain_described. cbv zeta.
  rewrite Hsize, Hhead, Htail, (walk_linked _ _ _ Hl).
  split; [|split; [|split; [|split; [|split; [|split; [|split]]]]]];
    try done.
  - destruct l as [|p l]; [done|]. split; [done|].
    destruct l; [done|]. rewrite last_cons_cons. intros Hlast.
    by rewrite last_cons in Hlast; destruct (last l).
  - rewrite <- map_size_empty_iff, Hsize.
    destruct l as [|p l]; [done|]. split; [|done].
    rewrite last_cons. by destruct (last l).
  - intros h0 Hh0. destruct l as [|p l]; [done|].
    injection Hh0 as <-. by destruct Hl as (? & _).
  - intros t Ht. apply last_Some in Ht as (l1 & ->).
    by apply (linked_next _ _ _ _ _ Hl).
  - intros p. split.
    + intros (key & Hkey). by apply Hmap in Hkey as [? _].
    + intros Hp. exists (Key (heap c p)). by apply Hmap.
Qed.

Lemma entries_delete_entry key c r c' :
  delete_entry key c = Done (r, c') -> entries c' = delete key (entries c).
Proof.
  unfold delete_entry. destruct (entries c !! key) as [p|] eqn:Hkey.
  2:{ intros [= _ <-]. by rewrite delete_id. }
  cbv zeta. set (c1 := release_memory (heap c p) c).
  assert (entries c1 = entries c) as Hc1 by apply entries_release_memory.
  clearbody c1.
  match goal with
  | |- (?m ≫= _) = _ -> _ =>
      destruct m as [c2| |] eqn:Hm; cbn [mbind Outcome_bind]; [|discriminate..]
  end.
  intros Hrun. assert (c' = set_entries (delete key (entries
    (removeExistingEntryReferences p c2))) (removeExistingEntryReferences p c2))
    as -> by congruence.
  change (delete key (entries (removeExistingEntryReferences p c2))
          = delete key (entries c)).
  rewrite entries_removeExistingEntryReferences, <- Hc1. f_equal.
  destruct (bool_decide _); [|by injection Hm as <-].
  unfold removeEntryFromFrequencyList in Hm.
  destruct (frequencyParent (heap c1 p)); [|done]. injection Hm as <-.
  apply entries_remove_from_element.
Qed.

(** [delete] touches the links of the entries only. *)
Lemma delete_entry_fields key c r c' q :
  evictionPolicy c <> LeastFrequentUsed ->
  delete_entry key c = Done (r, c') ->
  Key (heap c' q) = Key (heap c q) /\ Value (heap c' q) = Value (heap c q)
  /\ Expiration (heap c' q) = Expiration (heap c q).
Proof.
  intros Hpol. unfold delete_entry.
  destruct (entries c !! key) as [p|]; [|by intros [= _ <-]].
  cbv zeta.
  destruct (release_memory_fields (heap c p) c)
    as (Hh1 & _ & _ & _ & _ & _ & (Hpo1 & _) & _).
  set (c1 := release_memory (heap c p) c) in *.
  rewrite bool_decide_eq_false_2 by (by rewrite Hpo1).
  cbn [mbind Outcome_bind]. intros [= _ <-]. cbn [heap set_entries].
  pose proof (only_links_removeExistingEntryReferences c1 p c1
                (only_links_refl c1)) as (_&_&_&_&_&_&_&_&_&_&Hq).
  rewrite (Hq q), Hh1. done.
Qed.

End Described.

(** *** Lock discipline of the operations *)

Section Discipline.
Context {V : Type} `{Payload V} `{RangeOrder} `{PatternMatcher}.

Lemma guarded_from_app st t1 t2 :
  guarded_from st (t1 ++ t2)
  = guarded_from st t1 && guarded_from (lock_after st t1) t2.
Proof.
  revert st. induction t1 as [|e t1 IH]; intros st; [done|].
  destruct e, st; simpl; rewrite ?IH; done.
Qed.

Lemma lock_after_app st t1 t2 :
  lock_after st (t1 ++ t2) = lock_after (lock_after st t1) t2.
Proof.
  revert st. induction t1 as [|e t1 IH]; intros st; [done|].
  destruct e; simpl; rewrite ?IH; done.
Qed.

Lemma trace_bind {A B} (m : Op V A) (k : A -> Op V B) c :
  trace (op_bind m k) c
  = trace m c ++ match run m c with
                 | Done (a, c') => trace (k a) c'
                 | _ => []
                 end.
Proof.
  unfold trace, run, op_bind. destruct (m c) as [[[a c']| |] t]; simpl;
    rewrite ?app_nil_r; try done. by destruct (k a c').
Qed.

Lemma disciplined_ret {A} (a : A) : disciplined (op_ret (V:=V) a).
Proof. by intros c. Qed.

Lemma disciplined_config {A} (f : Cache V -> A) : disciplined (config f).
Proof. by intros c. Qed.

Lemma disciplined_bind {A B} (m : Op V A) (k : A -> Op V B) :
  disciplined m -> (forall a, disciplined (k a)) -> disciplined (op_bind m k).
Proof.
  intros Hm Hk c. destruct (Hm c) as [Hg Hl]. unfold trace, run, op_bind in *.
  destruct (m c) as [[[a c1]| |] t]; simpl in *; [|done|done].
  destruct (Hk a c1) as [Hg' Hl']. unfold trace, run in *.
  destruct (k a c1) as [r t']. simpl in *.
  unfold guarded in *. rewrite guarded_from_app, lock_after_app, Hg, Hl by done.
  done.
Qed.

(** The four shapes of critical section of the source. *)
Lemma disciplined_exclusive {A} (f : Cache V -> Outcome (A * Cache V)) :
  disciplined (op_bind Lock (fun _ => op_bind (writes f) (fun r =>
                 op_bind Unlock (fun _ => op_ret r)))).
Proof.
  intros c. unfold trace, run, op_bind, Lock, Unlock, emit, writes, op_ret.
  cbn. by destruct (f c) as [[r c']| |].
Qed.

Lemma disciplined_exclusive_unit {A} (f : Cache V -> Outcome (A * Cache V)) :
  disciplined (op_bind Lock (fun _ => op_bind (writes f) (fun _ => Unlock))).
Proof.
  intros c. unfold trace, run, op_bind, Lock, Unlock, emit, writes, op_ret.
  cbn. by destruct (f c) as [[r c']| |].
Qed.

Lemma disciplined_exclusive_read {A} (f : Cache V -> A) :
  disciplined (op_bind Lock (fun _ => op_bind (reads f) (fun r =>
                 op_bind Unlock (fun _ => op_ret r)))).
Proof. by intros c. Qed.

Lemma disciplined_shared_read {A} (f : Cache V -> A) :
  disciplined (op_bind RLock (fun _ => op_bind (reads f) (fun r =>
                 op_bind RUnlock (fun _ => op_ret r)))).
Proof. by intros c. Qed.

Lemma disciplined_exclusive_modify (f : Cache V -> Cache V) :
  disciplined (op_bind Lock (fun _ => op_bind (modifies f) (fun _ => Unlock))).
Proof. by intros c. Qed.

Lemma disciplined_SetWithTTL fuel key value ttl now :
  disciplined (SetWithTTL fuel key value ttl now).
Proof.
  unfold SetWithTTL. apply disciplined_bind; [apply disciplined_config|].
  intros force. apply disciplined_exclusive_unit.
Qed.

Lemma disciplined_SetAll_loop fuel kvs now :
  disciplined (SetAll_loop fuel kvs now).
Proof.
  induction kvs as [|[key value] kvs IH]; cbn [SetAll_loop].
  - apply disciplined_ret.
  - apply disciplined_bind; [apply disciplined_SetWithTTL|done].
Qed.

(** The events of [Get]: the value of an entry that was hit is read after
    [Unlock]. *)
Lemma trace_Get key now (c : Cache V) :
  trace (Get key now) c
  = match Get_locked key now c with
    | Done (Some _, _) => [EvLock; EvWrite; EvUnlock; EvRead]
    | Done (None, _) => [EvLock; EvWrite; EvUnlock]
    | _ => [EvLock; EvWrite]
    end.
Proof.
  unfold trace, Get, op_bind, Lock, Unlock, emit, writes, reads, op_ret. cbn.
  by destruct (Get_locked key now c) as [[[entry|] c']| |].
Qed.

Lemma disciplined_forget {A} (op : Op V A) :
  disciplined op -> disciplined (forget op).
Proof.
  intros Hop. apply disciplined_bind; [done|]. intros _. apply disciplined_ret.
Qed.

End Discipline.


(** *** What the operations do to the map and to the entries *)

Section Deletion.
Context {V : Type} `{Payload V} `{RangeOrder} `{PatternMatcher}.
Implicit Types (c : Cache V) (p q : eptr).

Lemma same_contents_refl c : same_contents c c.
Proof. by intros q. Qed.

Lemma same_contents_trans c1 c2 c3 :
  same_contents c1 c2 -> same_contents c2 c3 -> same_contents c1 c3.
Proof.
  intros H12 H23 q. destruct (H12 q) as (? & ? & ?), (H23 q) as (? & ? & ?).
  repeat split; congruence.
Qed.

Lemma only_links_contents c c' : only_links c c' -> same_contents c c'.
Proof. intros (_&_&_&_&_&_&_&_&_&_&Hq) q. by rewrite (Hq q). Qed.

Lemma contents_release_memory (e : Entry V) c :
  same_contents c (release_memory e c).
Proof. unfold release_memory. by case_match. Qed.

Lemma contents_remove_from_element l p c :
  same_contents c (remove_from_element l p c).
Proof. unfold remove_from_element. by repeat case_match. Qed.

Lemma contents_delete_entry key c r c' :
  delete_entry key c = Done (r, c') -> same_contents c c'.
Proof.
  unfold delete_entry. destruct (entries c !! key) as [p|];
    [|intros [= _ <-]; apply same_contents_refl].
  cbv zeta. set (c1 := release_memory (heap c p) c).
  assert (same_contents c c1) as Hc1 by apply contents_release_memory.
  clearbody c1.
  match goal with
  | |- (?m ≫= _) = _ -> _ =>
      destruct m as [c2| |] eqn:Hm; cbn [mbind Outcome_bind]; [|discriminate..]
  end.
  intros Hrun.
  assert (c' = set_entries (delete key (entries
    (removeExistingEntryReferences p c2))) (removeExistingEntryReferences p c2))
    as -> by congruence.
  assert (same_contents c1 c2) as Hc2.
  { destruct (bool_decide _); [|injection Hm as <-; apply same_contents_refl].
    unfold removeEntryFromFrequencyList in Hm.
    destruct (frequencyParent (heap c1 p)); [|done]. injection Hm as <-.
    apply contents_remove_from_element. }
  eapply same_contents_trans; [exact Hc1|].
  eapply same_contents_trans; [exact Hc2|].
  apply (only_links_contents c2 (removeExistingEntryReferences p c2)).
  apply only_links_removeExistingEntryReferences, only_links_refl.
Qed.

Lemma delete_entry_flag key c r c' :
  delete_entry key c = Done (r, c') ->
  r = bool_decide (is_Some (entries c !! key)).
Proof.
  unfold delete_entry. destruct (entries c !! key) as [p|].
  - cbv zeta.
    match goal with
    | |- (?m ≫= _) = _ -> _ =>
        destruct m as [c2| |]; cbn [mbind Outcome_bind]; [|discriminate..]
    end.
    intros [= <- _]. by rewrite bool_decide_eq_true_2.
  - intros [= <- _]. rewrite bool_decide_eq_false_2; [done|]. by intros [].
Qed.

Lemma len_delete key (m : gmap string eptr) :
  Z.of_nat (size (delete key m))
  = Z.of_nat (size m) - (if bool_decide (is_Some (m !! key)) then 1 else 0).
Proof.
  rewrite map_size_delete. destruct (m !! key) as [p|] eqn:Hkey.
  - rewrite bool_decide_eq_true_2 by done.
    assert (size m <> 0%nat) as Hne.
    { apply map_size_non_empty_iff. intros ->. by rewrite lookup_empty in Hkey. }
    simpl. lia.
  - rewrite bool_decide_eq_false_2 by (by intros []). simpl. lia.
Qed.

Lemma DeleteAll_loop_spec keys n c r c' :
  DeleteAll_loop keys n c = Done (r, c') ->
  (forall k, entries c' !! k
             = if bool_decide (k ∈ keys) then None else entries c !! k)
  /\ r = n + (len_entries c - len_entries c')
  /\ same_contents c c'.
Proof.
  revert n c. induction keys as [|key keys IH]; intros n c;
    cbn [DeleteAll_loop].
  - intros [= <- <-]. split; [|split; [lia|apply same_contents_refl]].
    intros k. rewrite bool_decide_eq_false_2; [done|]. apply not_elem_of_nil.
  - destruct (delete_entry key c) as [[ok c1]| |] eqn:Hdel;
      cbn [mbind Outcome_bind]; [|discriminate..].
    intros Hrun. destruct (IH _ _ Hrun) as (Hmap & Hr & Hcont).
    pose proof (entries_delete_entry _ _ _ _ Hdel) as He1.
    pose proof (delete_entry_flag _ _ _ _ Hdel) as Hok.
    split; [|split].
    + intros k. rewrite Hmap, He1.
      destruct (decide (k = key)) as [->|Hne].
      * rewrite lookup_delete_eq.
        rewrite (bool_decide_eq_true_2 (key ∈ key :: keys))
          by apply list_elem_of_here.
        by destruct (bool_decide (key ∈ keys)).
      * rewrite lookup_delete_ne by done.
        destruct (bool_decide (k ∈ keys)) eqn:Hin.
        -- apply bool_decide_eq_true in Hin.
           by rewrite bool_decide_eq_true_2 by by apply list_elem_of_further.
        -- apply bool_decide_eq_false in Hin.
           rewrite bool_decide_eq_false_2; [done|].
           rewrite elem_of_cons. tauto.
    + rewrite Hr. unfold len_entries. rewrite He1, len_delete, <- Hok.
      destruct ok; lia.
    + eapply same_contents_trans; [by eapply contents_delete_entry|done].
Qed.

End Deletion.

Section Patterns.
Context {V : Type} `{Payload V} `{RangeOrder} `{PatternMatcher}.
Implicit Types (c : Cache V) (p q : eptr).

(** The loop of [GetKeysByPattern] keeps the keys of the live matching
    pairs, in the order of the enumeration, up to the limit. *)
Lemma GetKeysByPattern_loop_spec pattern limit now kes acc c :
  (0 < limit -> Z.of_nat (length acc) < limit) ->
  GetKeysByPattern_loop pattern limit now kes acc c
  = acc ++ (if 0 <? limit
            then take (Z.to_nat limit - length acc)
            else id)
             (filter (fun ke => live_match pattern now c ke = true) kes).*1.
Proof.
  revert acc. induction kes as [|[k p] kes IH]; intros acc Hacc;
    cbn [GetKeysByPattern_loop].
  { rewrite filter_nil. cbn. destruct (0 <? limit); cbn;
      by rewrite ?take_nil, app_nil_r. }
  rewrite filter_cons.
  destruct (Expired now (heap c p)) eqn:Hexp.
  { rewrite decide_False
      by (unfold live_match; cbn [fst snd]; by rewrite Hexp).
    by apply IH. }
  destruct (MatchPattern pattern k) eqn:Hmatch.
  2:{ rewrite decide_False
        by (unfold live_match; cbn [fst snd]; by rewrite Hexp, Hmatch).
      by apply IH. }
  rewrite decide_True
    by (unfold live_match; cbn [fst snd]; by rewrite Hexp, Hmatch).
  cbn [fmap list_fmap fst].
  rewrite length_app. cbn [length].
  destruct (Z.ltb_spec 0 limit) as [Hpos|Hnon]; cbn [andb].
  - specialize (Hacc Hpos).
    destruct (Z.leb_spec limit (Z.of_nat (length acc + 1))) as [Hfull|Hroom].
    + replace (Z.to_nat limit - length acc)%nat with 1%nat by lia.
      cbn. by rewrite take_0.
    + rewrite IH by (rewrite length_app; cbn; lia).
      replace (0 <? limit) with true by (symmetry; by apply Z.ltb_lt).
      rewrite length_app. cbn [length].
      replace (Z.to_nat limit - length acc)%nat
        with (S (Z.to_nat limit - (length acc + 1)))%nat by lia.
      cbn. by rewrite <- app_assoc.
  - rewrite IH by lia.
    replace (0 <? limit) with false by (symmetry; by apply Z.ltb_ge).
    cbn. by rewrite <- app_assoc.
Qed.

Lemma NoDup_fst_filter {A} (P : string * A -> Prop)
    `{forall x, Decision (P x)} (l : list (string * A)) :
  NoDup l.*1 -> NoDup (filter P l).*1.
Proof.
  induction l as [|[k a] l IH]; [done|]. cbn [fmap list_fmap fst].
  intros [Hk Hl]%NoDup_cons. rewrite filter_cons.
  destruct (decide (P (k, a))); [|by apply IH].
  cbn [fmap list_fmap fst]. apply NoDup_cons. split; [|by apply IH].
  intros Hin. apply Hk. apply list_elem_of_fmap in Hin as (x & -> & Hx).
  apply list_elem_of_filter in Hx as [_ Hx].
  apply list_elem_of_fmap. by exists x.
Qed.

Lemma NoDup_fst_range_map {A} (m : gmap string A) : NoDup (range_map m).*1.
Proof.
  rewrite (range_map_perm m). apply NoDup_fst_map_to_list.
Qed.

Lemma elem_of_range_map {A} (m : gmap string A) k (a : A) :
  (k, a) ∈ range_map m <-> m !! k = Some a.
Proof. by rewrite (range_map_perm m), elem_of_map_to_list. Qed.

End Patterns.

Section Lookups.
Context {V : Type} `{Payload V} `{RangeOrder} `{PatternMatcher}.
Implicit Types (c : Cache V) (p q : eptr).

Lemma wrap_int_id z : min_int <= z <= max_int -> wrap_int z = z.
Proof.
  unfold wrap_int, min_int, max_int. intros Hz.
  rewrite Z.mod_small by lia. lia.
Qed.

Lemma run_bind {A B} (m : Op V A) (k : A -> Op V B) c :
  run (op_bind m k) c
  = match run m c with
    | Done (a, c1) => run (k a) c1
    | Panic => Panic
    | OutOfFuel => OutOfFuel
    end.
Proof.
  unfold run, op_bind. destruct (m c) as [[[a c1]| |] t]; cbn [fst];
    [|reflexivity..].
  by destruct (k a c1).
Qed.

Lemma entries_incrementEntryFrequency p c c' :
  incrementEntryFrequency p c = Done c' -> entries c' = entries c.
Proof.
  unfold incrementEntryFrequency. cbv zeta.
  match goal with
  | |- (?m ≫= _) = _ -> _ =>
      destruct m as [[[amount cand] pos]| |];
        cbn [mbind Outcome_bind]; [|discriminate..]
  end.
  match goal with
  | |- (let '(_, _) := ?m in _) = _ -> _ => set (pick := m)
  end.
  assert (entries pick.2 = entries c) as Hpick.
  { unfold pick, new_element. by repeat case_match. }
  destruct pick as [nf c1]. cbn [snd] in Hpick.
  destruct (frequencyParent (heap c p)) as [l|].
  - unfold removeEntryFromFrequencyList. intros [= <-].
    by rewrite entries_remove_from_element.
  - by intros [= <-].
Qed.

(** [Get] adds no key to the map, and removes at most its own. *)
Lemma entries_Get_locked key now c r c' :
  Get_locked key now c = Done (r, c') ->
  entries c' = entries c \/ entries c' = delete key (entries c).
Proof.
  unfold Get_locked. destruct (get c key) as [p|];
    [|intros [= _ <-]; by left].
  destruct (Expired now (heap c p)).
  { cbv zeta.
    destruct (delete_entry key (count_expired c)) as [[b c1]| |] eqn:Hdel;
      cbn [mbind Outcome_bind]; [|discriminate..].
    intros [= _ <-]. right. by apply entries_delete_entry in Hdel. }
  cbv zeta. set (c1 := count_hits 1 c).
  change (evictionPolicy c1) with (evictionPolicy c).
  destruct (bool_decide (evictionPolicy c = LeastRecentlyUsed)).
  - set (c2 := update p (Accessed now) c1).
    destruct (bool_decide (head c2 = Some p)); [intros [= _ <-]; by left|].
    set (c3 := moveExistingEntryToHead p c2).
    assert (entries c3 = entries c) as Hc3
      by apply (entries_moveExistingEntryToHead p c2).
    clearbody c3.
    match goal with
    | |- (?m ≫= _) = _ -> _ =>
        destruct m as [c4| |] eqn:Hm; cbn [mbind Outcome_bind];
          [|discriminate..]
    end.
    intros [= _ <-]. left. rewrite <- Hc3.
    destruct (bool_decide _); [by eapply entries_incrementEntryFrequency|].
    by injection Hm as <-.
  - match goal with
    | |- (?m ≫= _) = _ -> _ =>
        destruct m as [c4| |] eqn:Hm; cbn [mbind Outcome_bind];
          [|discriminate..]
    end.
    intros [= _ <-]. left.
    destruct (bool_decide _);
      [by apply entries_incrementEntryFrequency in Hm|].
    by injection Hm as <-.
Qed.

Lemma GetByKeys_loop_spec keys now found c found' c' :
  run (GetByKeys_loop keys now found) c = Done (found', c') ->
  dom found' = dom found ∪ list_to_set keys
  /\ forall k, entries c !! k = None ->
       entries c' !! k = None
       /\ found' !! k = (if bool_decide (k ∈ keys) then Some vnil
                         else found !! k).
Proof.
  revert found c. induction keys as [|key keys IH]; intros found c;
    cbn [GetByKeys_loop].
  - intros [= <- <-]. split.
    { apply set_eq. intros x. rewrite elem_of_union, elem_of_list_to_set.
      rewrite elem_of_nil. tauto. }
    intros k Hk. split; [done|].
    rewrite bool_decide_eq_false_2; [done|]. apply not_elem_of_nil.
  - rewrite run_bind, run_Get.
    destruct (Get_answer key now c) as [[r c1]| |] eqn:HGet; [|done..].
    destruct (Get_answer_inv _ _ _ _ _ HGet) as [r0 HGet0].
    intros Hrun. destruct (IH _ _ Hrun) as (Hdom & Habs).
    split.
    + rewrite Hdom, dom_insert_L, list_to_set_cons. apply set_eq. intros x.
      rewrite !elem_of_union, elem_of_singleton. tauto.
    + intros k Hk.
      assert (entries c1 !! k = None) as Hk1.
      { destruct (entries_Get_locked _ _ _ _ _ HGet0) as [->| ->]; [done|].
        destruct (decide (k = key)) as [->|Hne].
        - apply lookup_delete_eq.
        - by rewrite lookup_delete_ne. }
      destruct (Habs k Hk1) as [Hk' Hfound]. split; [done|].
      rewrite Hfound.
      destruct (bool_decide (k ∈ keys)) eqn:Hin.
      * apply bool_decide_eq_true in Hin.
        by rewrite bool_decide_eq_true_2 by by apply list_elem_of_further.
      * apply bool_decide_eq_false in Hin.
        destruct (decide (k = key)) as [->|Hne].
        -- rewrite bool_decide_eq_true_2 by apply list_elem_of_here.
           rewrite lookup_insert_eq.
           rewrite Get_answer_eq in HGet. unfold get in HGet.
           rewrite Hk in HGet.
           by injection HGet as <- _.
        -- rewrite lookup_insert_ne by done.
           rewrite bool_decide_eq_false_2; [done|].
           rewrite elem_of_cons. tauto.
Qed.

End Lookups.

Section Storing.
Context {V : Type} `{Payload V} `{RangeOrder} `{PatternMatcher}.
Implicit Types (c : Cache V) (p q : eptr) (l : list eptr).

(** [evict] under FIFO or LRU removes the key of the tail, and nothing
    else. *)
Lemma evict_tail c t :
  tail c = Some t -> len_entries c <> 0 ->
  evictionPolicy c <> LeastFrequentUsed ->
  entries (evict c) = delete (Key (heap c t)) (entries c)
  /\ same_contents c (evict c)
  /\ (head c <> Some t -> head (evict c) = head c)
  /\ stats (evict c) = stats (count_evicted c)
  /\ forceNilInterfaceOnNilPointer (evict c) = forceNilInterfaceOnNilPointer c.
Proof.
  intros Htail Hlen Hpol. unfold evict.
  rewrite Htail. rewrite bool_decide_eq_false_2 by done.
  rewrite bool_decide_eq_false_2 by done.
  rewrite bool_decide_eq_false_2 by done. cbn [orb]. cbv zeta.
  set (c1 := removeExistingEntryReferences t c).
  assert (only_links c c1) as Hlinks
    by apply only_links_removeExistingEntryReferences, only_links_refl.
  pose proof Hlinks as (_ & _ & _ & Hst & Hen & _ & _ & Hfn & _).
  set (c2 := set_entries _ c1).
  destruct (release_memory_fields (heap c2 t) c2)
    as (Hh3 & Hhd3 & _ & Hen3 & _ & Hst3 & _ & _).
  set (c3 := release_memory (heap c2 t) c2) in *.
  split; [|split; [|split; [|split]]].
  - change (entries c3 = delete (Key (heap c t)) (entries c)).
    rewrite Hen3. unfold c2. cbn [entries set_entries].
    by rewrite (only_links_Key _ _ t Hlinks), Hen.
  - intros q. change (heap (count_evicted c3) q) with (heap c3 q).
    rewrite Hh3. change (heap c2 q) with (heap c1 q).
    apply (only_links_contents _ _ Hlinks).
  - intros Hhead. change (head c3 = head c). rewrite Hhd3.
    change (head c2) with (head c1). unfold c1.
    rewrite head_removeExistingEntryReferences.
    by rewrite bool_decide_eq_false_2.
  - unfold count_evicted. cbn [stats set_stats]. rewrite Hst3.
    change (stats c2) with (stats c1). by rewrite Hst.
  - change (forceNilInterfaceOnNilPointer c3 = forceNilInterfaceOnNilPointer c).
    rewrite <- Hfn. unfold c3, release_memory.
    by destruct (bool_decide (maxMemoryUsage c2 <> NoMaxMemoryUsage)).
Qed.

Lemma create_entry_contents key value now c q :
  q <> nextEntry c ->
  Key (heap (create_entry key value now c).2 q) = Key (heap c q)
  /\ Value (heap (create_entry key value now c).2 q) = Value (heap c q)
  /\ Expiration (heap (create_entry key value now c).2 q)
     = Expiration (heap c q).
Proof.
  intros Hq. unfold create_entry, charge_memory, update. cbn [fst snd].
  destruct (head c) as [h|] eqn:Hhead; cbn; rewrite ?Hhead; cbn;
    destruct (bool_decide (maxMemoryUsage c <> NoMaxMemoryUsage)); cbn;
    unfold insert, fn_insert;
    repeat (case_decide; subst; simplify_eq; try done).
Qed.

Lemma force_release_memory (e : Entry V) c :
  forceNilInterfaceOnNilPointer (release_memory e c)
  = forceNilInterfaceOnNilPointer c.
Proof.
  unfold release_memory.
  by destruct (bool_decide (maxMemoryUsage c <> NoMaxMemoryUsage)).
Qed.

Lemma force_charge_memory (e : Entry V) c :
  forceNilInterfaceOnNilPointer (charge_memory e c)
  = forceNilInterfaceOnNilPointer c.
Proof.
  unfold charge_memory.
  by destruct (bool_decide (maxMemoryUsage c <> NoMaxMemoryUsage)).
Qed.

Lemma force_create_entry key value now c :
  forceNilInterfaceOnNilPointer (create_entry key value now c).2
  = forceNilInterfaceOnNilPointer c.
Proof.
  unfold create_entry. cbn [snd]. rewrite force_charge_memory.
  cbn. by destruct (head c).
Qed.

(** Without a memory bound, and under FIFO or LRU, the end of [SetWithTTL]
    is the expiration assignment and at most one eviction. *)
Lemma SetWithTTL_bounds_no_memory fuel p ttl now c :
  maxMemoryUsage c = NoMaxMemoryUsage ->
  evictionPolicy c <> LeastFrequentUsed ->
  SetWithTTL_bounds fuel p ttl now c
  = Done (let c0 := update p (set_Expiration (expiration_for ttl now)) c in
          if bool_decide (maxSize c <> NoMaxSize)
             && (maxSize c <? len_entries c)
          then evict c0 else c0).
Proof.
  intros Hmm Hpol. unfold SetWithTTL_bounds. cbv zeta.
  set (c0 := update p (set_Expiration (expiration_for ttl now)) c).
  change (maxSize c0) with (maxSize c).
  change (maxMemoryUsage c0) with (maxMemoryUsage c).
  change (len_entries c0) with (len_entries c).
  rewrite Hmm.
  destruct (bool_decide (maxSize c = NoMaxSize)) eqn:Hms.
  { apply bool_decide_eq_true in Hms.
    rewrite bool_decide_eq_true_2 by done. cbn [andb].
    by rewrite bool_decide_eq_false_2 by (intros Hn; by apply Hn). }
  apply bool_decide_eq_false in Hms. cbn [andb].
  rewrite (bool_decide_eq_true_2 (maxSize c <> NoMaxSize)) by done.
  cbn [andb].
  set (c1 := if maxSize c <? len_entries c then evict c0 else c0).
  assert (same_config c c1) as (Hpo1 & _ & Hmm1).
  { unfold c1. destruct (_ <? _); [|done].
    eapply same_config_trans; [|apply cfg_evict]. done. }
  rewrite Hmm1, Hmm.
  rewrite bool_decide_eq_false_2 by (intros Hn; by apply Hn).
  cbn [andb mbind Outcome_bind].
  by rewrite bool_decide_eq_false_2 by (by rewrite Hpo1).
Qed.

(** [SetWithTTL] between [Lock] and [Unlock], without a memory bound and
    under FIFO or LRU, for a ttl that stores: the key is mapped to an entry
    at the head that holds the value and the expiration; a new key on a
    full cache puts out the key of the tail, and nothing else changes. *)
Lemma SetWithTTL_locked_stores fuel key value ttl now c :
  recency_inv c -> maxMemoryUsage c = NoMaxMemoryUsage ->
  ttl = NoExpiration \/ 1 <= ttl ->
  exists c' p,
    SetWithTTL_locked fuel key value ttl now c = Done (tt, c')
    /\ entries c' !! key = Some p /\ head c' = Some p
    /\ Key (heap c' p) = key /\ Value (heap c' p) = value
    /\ Expiration (heap c' p) = expiration_for ttl now
    /\ forceNilInterfaceOnNilPointer c' = forceNilInterfaceOnNilPointer c
    /\ (forall q, q <> p ->
          Key (heap c' q) = Key (heap c q)
          /\ Value (heap c' q) = Value (heap c q)
          /\ Expiration (heap c' q) = Expiration (heap c q))
    /\ (entries c !! key = None -> maxSize c <> NoMaxSize ->
        len_entries c = maxSize c ->
        exists t, tail c = Some t
                  /\ entries c'
                     = <[key := p]> (delete (Key (heap c t)) (entries c))
                  /\ stats c' = stats (count_evicted c))
    /\ (is_Some (entries c !! key) \/ maxSize c = NoMaxSize
        \/ len_entries c < maxSize c ->
        entries c' = <[key := p]> (entries c) /\ stats c' = stats c).
Proof.
  intros Hrec Hmm Httl.
  pose proof Hrec as (Hpol & Hms & _ & l & Hinv & Hlen).
  pose proof (chain_inv_size _ _ Hinv) as Hsize.
  unfold SetWithTTL_locked, get. cbv zeta.
  assert (bool_decide (ttl <> NoExpiration) && (ttl <? 1) = false) as ->.
  { destruct Httl as [->|Hpos].
    - by rewrite bool_decide_eq_false_2 by (intros Hn; by apply Hn).
    - replace (ttl <? 1) with false by (symmetry; apply Z.ltb_ge; lia).
      apply andb_false_r. }
  destruct (entries c !! key) as [p|] eqn:Hkey.
  - (* the key is in the map *)
    assert (p ∈ l /\ Key (heap c p) = key) as [Hp Hk]
      by by apply (chain_map _ _ Hinv).
    apply list_elem_of_split in Hp as (l1 & l2 & ->).
    destruct (chain_inv_revalue c l1 p l2 value now Hinv)
      as (Hinv4 & (Hpo4 & Hms4 & Hmm4) & Hst4).
    set (c1 := release_memory (heap c p) c) in *.
    set (c3 := update p (set_RelevantTimestamp now)
                 (update p (set_Value value) c1)) in *.
    set (c4 := charge_memory (heap c3 p) c3) in *.
    destruct (chain_inv_moveExistingEntryToHead c4 l1 p l2 Hinv4)
      as (Hinv5 & Hlinks5).
    set (c5 := moveExistingEntryToHead p c4) in *.
    pose proof Hlinks5 as (Hms5 & Hmm5 & Hpo5 & Hst5 & Hen5 & _).
    assert (entries c4 = entries c) as Hen4.
    { unfold c4. rewrite entries_charge_memory. unfold c3, update.
      cbn [entries set_heap]. unfold c1. apply entries_release_memory. }
    assert (forall q, Key (heap c4 q) = Key (heap c q)
                      /\ Value (heap c4 q)
                         = (if decide (q = p) then value else Value (heap c q))
                      /\ Expiration (heap c4 q) = Expiration (heap c q))
      as Hh4.
    { intros q.
      destruct (charge_memory_fields (heap c3 p) c3) as (Hh & _).
      fold c4 in Hh. rewrite Hh.
      destruct (release_memory_fields (heap c p) c) as (Hh1 & _).
      fold c1 in Hh1. unfold c3, update. cbn [heap set_heap].
      rewrite Hh1. unfold insert, fn_insert.
      destruct (decide (q = p)) as [->|Hq].
      - by rewrite !decide_True by done.
      - by rewrite !decide_False by (by intros ->). }
    rewrite SetWithTTL_bounds_no_memory; [|by rewrite Hmm5, Hmm4|by rewrite Hpo5, Hpo4].
    cbn [mbind Outcome_bind]. cbv zeta.
    set (c0 := update p (set_Expiration (expiration_for ttl now)) c5).
    assert ((bool_decide (maxSize c5 <> NoMaxSize)
             && (maxSize c5 <? len_entries c5)) = false) as ->.
    { rewrite Hms5, Hms4. unfold len_entries. rewrite Hen5, Hen4, Hsize.
      destruct (bool_decide (maxSize c <> NoMaxSize)) eqn:Hb; [|done].
      apply bool_decide_eq_true in Hb. specialize (Hlen Hb).
      cbn [andb]. apply Z.ltb_ge. lia. }
    exists c0, p.
    assert (forall q, Key (heap c5 q) = Key (heap c4 q)
                      /\ Value (heap c5 q) = Value (heap c4 q)
                      /\ Expiration (heap c5 q) = Expiration (heap c4 q))
      as Hh5 by apply (only_links_contents _ _ Hlinks5).
    assert (heap c0 p = set_Expiration (expiration_for ttl now) (heap c5 p))
      as Hp0.
    { unfold c0, update. cbn [heap set_heap]. unfold insert, fn_insert.
      by rewrite decide_True. }
    assert (forall q, q <> p -> heap c0 q = heap c5 q) as Hq0.
    { intros q Hq. unfold c0, update. cbn [heap set_heap].
      unfold insert, fn_insert. by rewrite decide_False by (by intros ->). }
    destruct (Hh5 p) as (Hk5 & Hv5 & _), (Hh4 p) as (Hk4 & Hv4 & _).
    rewrite decide_True in Hv4 by done.
    assert (entries c0 = <[key := p]> (entries c)) as He0.
    { change (entries c5 = <[key := p]> (entries c)).
      rewrite Hen5, Hen4. by rewrite insert_id. }
    split; [done|]. split; [by rewrite He0, lookup_insert_eq|].
    split; [exact (chain_head _ _ Hinv5)|].
    split; [rewrite Hp0; cbn; congruence|].
    split; [rewrite Hp0; cbn; congruence|].
    split; [by rewrite Hp0|].
    split.
    { change (forceNilInterfaceOnNilPointer c5
              = forceNilInterfaceOnNilPointer c).
      destruct Hlinks5 as (_&_&_&_&_&_&_&->&_). unfold c4.
      rewrite force_charge_memory. unfold c3, update.
      cbn [forceNilInterfaceOnNilPointer set_heap]. unfold c1.
      apply force_release_memory. }
    split.
    { intros q Hq. rewrite (Hq0 q Hq).
      destruct (Hh5 q) as (-> & -> & ->), (Hh4 q) as (-> & Hv & ->).
      by rewrite Hv, decide_False. }
    split; [intros Hnone; discriminate Hnone|]. intros _.
    split; [exact He0|]. change (stats c5 = stats c). by rewrite Hst5.
  - (* the key is new *)
    destruct (chain_inv_create_entry c l key value now Hinv Hkey)
      as (Hp & Hinv1 & (Hpo1 & Hms1 & Hmm1) & _).
    destruct (create_entry_fields key value now c)
      as (_ & _ & _ & _ & _ & Hst1 & Hen1 & Hhd1 & _).
    assert (head c <> Some (nextEntry c)) as Hhp.
    { rewrite (chain_head _ _ Hinv). intros Hin.
      apply list_elem_of_lookup_2, (chain_fresh _ _ Hinv) in Hin. lia. }
    destruct (create_entry_links key value now c Hhp)
      as (_ & _ & Hk1 & Hv1 & _).
    pose proof (create_entry_contents key value now c) as Hq1.
    pose proof (force_create_entry key value now c) as Hfn1.
    destruct (create_entry key value now c) as [p c1]. cbn [fst snd] in *.
    subst p. set (p := nextEntry c) in *.
    rewrite SetWithTTL_bounds_no_memory;
      [|by rewrite Hmm1|by rewrite Hpo1].
    cbn [mbind Outcome_bind]. cbv zeta.
    set (c0 := update p (set_Expiration (expiration_for ttl now)) c1).
    assert (heap c0 p = set_Expiration (expiration_for ttl now) (heap c1 p))
      as Hp0.
    { unfold c0, update. cbn [heap set_heap]. unfold insert, fn_insert.
      by rewrite decide_True. }
    assert (forall q, q <> p -> heap c0 q = heap c1 q) as Hq0.
    { intros q Hq. unfold c0, update. cbn [heap set_heap].
      unfold insert, fn_insert. by rewrite decide_False by (by intros ->). }
    assert (p ∉ l) as Hpl.
    { intros Hin. apply (chain_fresh _ _ Hinv) in Hin. unfold p in Hin. lia. }
    assert (len_entries c1 = len_entries c + 1) as Hlen1.
    { unfold len_entries. rewrite Hen1, map_size_insert_None by done. lia. }
    rewrite Hms1, Hlen1.
    destruct (bool_decide (maxSize c <> NoMaxSize)
              && (maxSize c <? len_entries c + 1)) eqn:Hover.
    + (* the cache is full: the tail leaves *)
      apply andb_true_iff in Hover as [Hne Hfull].
      apply bool_decide_eq_true in Hne. apply Z.ltb_lt in Hfull.
      specialize (Hlen Hne). unfold len_entries in Hfull. rewrite Hsize in Hfull.
      destruct l as [|t0 l0 _] using rev_ind;
        [unfold NoMaxSize in Hne; simpl in Hfull; lia|].
      set (t := t0) in *.
      assert (tail c = Some t) as Htail
        by by rewrite (chain_tail _ _ Hinv), last_snoc.
      assert (t <> p) as Htp.
      { intros ->. apply Hpl. rewrite elem_of_app, list_elem_of_singleton.
        by right. }
      assert (entries c !! Key (heap c t) = Some t) as Hkt.
      { apply (chain_map _ _ Hinv). split; [|done].
        rewrite elem_of_app, list_elem_of_singleton. by right. }
      assert (Key (heap c t) <> key) as Hktk by congruence.
      destruct (evict_tail c0 t) as (He & Hcont & Hhead & Hst & Hfn).
      { change (tail c1 = Some t).
        rewrite (chain_tail _ _ Hinv1), app_comm_cons. apply last_snoc. }
      { change (len_entries c1 <> 0). rewrite Hlen1. unfold len_entries. lia. }
      { change (evictionPolicy c1 <> LeastFrequentUsed). by rewrite Hpo1. }
      assert (Key (heap c0 t) = Key (heap c t)) as Hkt0.
      { rewrite (Hq0 t Htp). by destruct (Hq1 t Htp) as (-> & _). }
      exists (evict c0), p.
      assert (entries (evict c0)
              = <[key := p]> (delete (Key (heap c t)) (entries c))) as He'.
      { rewrite He, Hkt0. change (entries c0) with (entries c1).
        rewrite Hen1. by rewrite delete_insert_ne. }
      split; [done|]. split; [by rewrite He', lookup_insert_eq|].
      split.
      { rewrite Hhead; [exact Hhd1|].
        change (head c0) with (head c1). rewrite Hhd1. congruence. }
      destruct (Hcont p) as (Hkp & Hvp & Hep). rewrite Hkp, Hvp, Hep, Hp0.
      split; [done|]. split; [done|]. split; [done|].
      split; [by rewrite Hfn|].
      split.
      { intros q Hq. destruct (Hcont q) as (-> & -> & ->).
        rewrite (Hq0 q Hq). by apply Hq1. }
      split.
      { intros _ _ _. exists t. split; [done|]. split; [done|].
        rewrite Hst. unfold count_evicted. cbn [stats set_stats].
        change (stats c0) with (stats c1). by rewrite Hst1. }
      intros [[x Hx]|[Hno|Hlt]]; [congruence|done|].
      unfold len_entries in Hlt. rewrite Hsize in Hlt. lia.
    + (* there is room *)
      exists c0, p.
      assert (entries c0 = <[key := p]> (entries c)) as He0 by exact Hen1.
      split; [done|]. split; [by rewrite He0, lookup_insert_eq|].
      split; [exact Hhd1|]. rewrite Hp0.
      split; [done|]. split; [done|]. split; [done|].
      split; [exact Hfn1|].
      split.
      { intros q Hq. rewrite (Hq0 q Hq). by apply Hq1. }
      split; [|intros _; split; [done|exact Hst1]].
      intros _ Hne Hfull. rewrite bool_decide_eq_true_2 in Hover by done.
      cbn [andb] in Hover. apply Z.ltb_ge in Hover. lia.
Qed.

End Storing.

Section Storing2.
Context {V : Type} `{Payload V} `{RangeOrder} `{PatternMatcher}.
Implicit Types (c : Cache V) (p q : eptr) (l : list eptr).

(** [Get] on a key whose entry has not expired, under FIFO or LRU. *)
Lemma Get_answer_live key now c p :
  recency_inv c -> entries c !! key = Some p ->
  Expired now (heap c p) = false ->
  exists c',
    Get_answer key now c = Done ((Value (heap c p), true), c')
    /\ entries c' = entries c /\ same_contents c c'
    /\ stats c' = stats (count_hits 1 c)
    /\ (evictionPolicy c = LeastRecentlyUsed -> head c' = Some p).
Proof.
  intros Hrec Hkey Hlive. pose proof Hrec as (Hpol & _).
  rewrite Get_answer_eq. unfold get. rewrite Hkey, Hlive. cbv zeta.
  set (c1 := count_hits 1 c).
  change (evictionPolicy c1) with (evictionPolicy c).
  destruct (evictionPolicy c) eqn:Hp; [| |done].
  - rewrite bool_decide_eq_false_2 by done.
    change (evictionPolicy c1) with (evictionPolicy c). rewrite Hp.
    rewrite bool_decide_eq_false_2 by done. cbn [mbind Outcome_bind].
    exists c1. split; [done|]. split; [done|].
    split; [by intros q|]. by split.
  - rewrite bool_decide_eq_true_2 by done.
    set (c2 := update p (Accessed now) c1).
    assert (forall q, Key (heap c2 q) = Key (heap c q)
                      /\ Value (heap c2 q) = Value (heap c q)
                      /\ Expiration (heap c2 q) = Expiration (heap c q))
      as Hc2.
    { intros q. unfold c2, update. cbn [heap set_heap].
      unfold insert, fn_insert. by destruct (decide (p = q)) as [<-|]. }
    destruct (bool_decide (head c2 = Some p)) eqn:Hhead.
    + exists c2. destruct (Hc2 p) as (_ & -> & _).
      apply bool_decide_eq_true in Hhead.
      split; [done|]. split; [done|]. split; [intros q; apply Hc2|].
      by split.
    + set (c3 := moveExistingEntryToHead p c2).
      assert (recency_inv c2) as Hrec2.
      { apply recency_inv_update; [by intros e; destruct e|].
        by apply recency_inv_set_stats. }
      destruct Hrec2 as (_ & _ & _ & l & Hinv & _).
      assert (p ∈ l) as Hpl by by apply (chain_map _ _ Hinv key p).
      apply list_elem_of_split in Hpl as (l1 & l2 & ->).
      destruct (chain_inv_moveExistingEntryToHead c2 l1 p l2 Hinv)
        as (Hinv3 & Hlinks). fold c3 in Hinv3, Hlinks.
      pose proof Hlinks as (_ & _ & Hpo3 & Hst3 & Hen3 & _).
      pose proof (only_links_contents _ _ Hlinks) as Hc3.
      change (evictionPolicy c2) with (evictionPolicy c) in Hpo3.
      rewrite Hpo3, Hp. rewrite bool_decide_eq_false_2 by done.
      cbn [mbind Outcome_bind]. exists c3.
      destruct (Hc3 p) as (_ & -> & _), (Hc2 p) as (_ & -> & _).
      split; [done|]. split; [by rewrite Hen3|].
      split; [intros q; destruct (Hc3 q) as (-> & -> & ->); apply Hc2|].
      split; [by rewrite Hst3|]. intros _. by rewrite (chain_head _ _ Hinv3).
Qed.

Lemma Expired_expiration_for ttl now now' (e : Entry V) :
  Expiration e = expiration_for ttl now ->
  ttl = NoExpiration \/ now' <= wrap_int (now + ttl) ->
  Expired now' e = false.
Proof.
  intros He Httl. unfold Expired. rewrite He. unfold expiration_for.
  destruct (bool_decide (ttl <> NoExpiration)) eqn:Hb.
  - apply bool_decide_eq_true in Hb. destruct Httl as [?|Hle]; [done|].
    apply andb_false_iff. right. apply Z.ltb_ge. lia.
  - done.
Qed.

End Storing2.

Section Collecting.
Context {V : Type} `{Payload V} `{RangeOrder} `{PatternMatcher}.
Implicit Types (c : Cache V) (p q : eptr).

Lemma Expired_contents now c c' q :
  same_contents c c' -> Expired now (heap c' q) = Expired now (heap c q).
Proof. intros Hc. unfold Expired. by destruct (Hc q) as (_ & _ & ->). Qed.

Lemma range_map_to_map {A} (m : gmap string A) :
  list_to_map (range_map m) = m.
Proof.
  rewrite (list_to_map_proper (range_map m) (map_to_list m)).
  - apply list_to_map_to_list.
  - apply NoDup_fst_range_map.
  - apply range_map_perm.
Qed.

(** The loop of [GetAll] over pairs with distinct keys. *)
Lemma GetAll_loop_spec now kes found c found' c' :
  NoDup kes.*1 ->
  GetAll_loop now kes found c = Done (found', c') ->
  (forall k, found' !! k
             = match (list_to_map kes : gmap string eptr) !! k with
               | Some p => if Expired now (heap c p) then found !! k
                           else Some (Value (heap c p))
               | None => found !! k
               end)
  /\ (forall k, entries c' !! k
                = match (list_to_map kes : gmap string eptr) !! k with
                  | Some p => if Expired now (heap c p) then None
                              else entries c !! k
                  | None => entries c !! k
                  end)
  /\ same_contents c c' /\ stats c' = stats c.
Proof.
  revert found c. induction kes as [|[key entry] kes IH]; intros found c Hnd;
    cbn [GetAll_loop].
  - intros [= <- <-]. split; [done|]. split; [done|].
    split; [apply same_contents_refl|done].
  - apply NoDup_cons in Hnd as [Hkey Hnd]. cbn [fmap list_fmap fst] in Hkey.
    assert ((list_to_map kes : gmap string eptr) !! key = None) as Hnone
      by by apply not_elem_of_list_to_map_1.
    destruct (Expired now (heap c entry)) eqn:Hexp.
    + destruct (delete_entry key c) as [[ok c1]| |] eqn:Hdel;
        cbn [mbind Outcome_bind]; [|discriminate..].
      intros Hrun. destruct (IH _ _ Hnd Hrun) as (Hf & He & Hc & Hs).
      pose proof (entries_delete_entry _ _ _ _ Hdel) as He1.
      pose proof (contents_delete_entry _ _ _ _ Hdel) as Hc1.
      destruct (sc_delete_entry _ _ _ _ Hdel) as (Hs1 & _).
      split; [|split; [|split]].
      * intros k. rewrite Hf. cbn [list_to_map foldr uncurry fst snd].
        destruct (decide (k = key)) as [->|Hne].
        -- by rewrite lookup_insert_eq, Hnone, Hexp.
        -- rewrite lookup_insert_ne by done.
           destruct (_ !! k) as [p|]; [|done].
           rewrite (Expired_contents now c c1 p Hc1).
           by destruct (Hc1 p) as (_ & -> & _).
      * intros k. rewrite He, He1. cbn [list_to_map foldr uncurry fst snd].
        destruct (decide (k = key)) as [->|Hne].
        -- by rewrite lookup_insert_eq, Hnone, Hexp, lookup_delete_eq.
        -- rewrite lookup_insert_ne, lookup_delete_ne by done.
           destruct (_ !! k) as [p|]; [|done].
           by rewrite (Expired_contents now c c1 p Hc1).
      * by eapply same_contents_trans.
      * congruence.
    + intros Hrun. destruct (IH _ _ Hnd Hrun) as (Hf & He & Hc & Hs).
      split; [|split; [|split]]; [| |done..].
      * intros k. rewrite Hf. cbn [list_to_map foldr uncurry fst snd].
        destruct (decide (k = key)) as [->|Hne].
        -- by rewrite !lookup_insert_eq, Hnone, Hexp.
        -- by rewrite !lookup_insert_ne by done.
      * intros k. rewrite He. cbn [list_to_map foldr uncurry fst snd].
        destruct (decide (k = key)) as [->|Hne].
        -- rewrite lookup_insert_eq, Hnone, Hexp. done.
        -- by rewrite lookup_insert_ne by done.
Qed.

End Collecting.

Section Memory.
Context {V : Type} `{Payload V} `{RangeOrder} `{PatternMatcher}.
Implicit Types (c : Cache V) (p q : eptr) (l : list eptr).

(** The entries of the map are the entries of the chain. *)
Lemma chain_inv_values c l :
  chain_inv c l -> (map_to_list (entries c)).*2 ≡ₚ l.
Proof.
  intros [Hnd _ _ _ Hmap _ _].
  assert (map_to_list (entries c)
          ≡ₚ (fun p => (Key (heap c p), p)) <$> l) as ->.
  { apply NoDup_Permutation.
    - apply NoDup_map_to_list.
    - apply NoDup_fmap_2; [|done]. by intros p q [= _ ->].
    - intros [k p]. rewrite elem_of_map_to_list, Hmap, list_elem_of_fmap.
      split.
      + intros [Hp <-]. by exists p.
      + intros (q & [= -> ->] & Hq). done. }
  rewrite <- list_fmap_compose.
  clear. induction l as [|a l IH]; [done|]. cbn. by f_equiv.
Qed.

Lemma sizes_perm (h : eptr -> Entry V) l l' :
  l ≡ₚ l' -> sizes h l = sizes h l'.
Proof.
  induction 1 as [|a l l' _ IH|a b l|l1 l2 l3 _ IH1 _ IH2]; simpl;
    [done|by rewrite IH|lia|congruence].
Qed.

End Memory.

Section Janitor.
Context {V : Type} `{Payload V} `{RangeOrder} `{PatternMatcher}.
Implicit Types (c : Cache V) (p q : eptr) (l : list eptr).

Lemma swept_refl now c : swept now 0 c c.
Proof.
  split; [done|]. split; [congruence|]. split; [apply same_contents_refl|].
  split; [done|]. split; [lia|]. split; [by rewrite Z.add_0_r|done].
Qed.

Lemma swept_trans now n1 n2 c1 c2 c3 :
  swept now n1 c1 c2 -> swept now n2 c2 c3 -> swept now (n1 + n2) c1 c3.
Proof.
  intros (Ha1 & Hb1 & Hc1 & Hn1 & Hl1 & He1 & Hv1 & Hh1 & Hm1)
         (Ha2 & Hb2 & Hc2 & Hn2 & Hl2 & He2 & Hv2 & Hh2 & Hm2).
  split; [by auto|]. split.
  { intros k p Hk Hnone. destruct (entries c2 !! k) as [p'|] eqn:Hk2.
    - assert (p' = p) as -> by (apply Ha1 in Hk2; congruence).
      rewrite <- (Expired_contents now c1 c2 p Hc1). by eapply Hb2.
    - by eapply Hb1. }
  split; [by eapply same_contents_trans|]. split; [lia|]. split; [lia|].
  split; [|split; [|split]; congruence].
  rewrite He2. unfold wrap_uint64 in *.
  rewrite <- Zplus_mod_idemp_l, He1, Zplus_mod_idemp_l. f_equal. lia.
Qed.

(** [delete] of a key of the map, under FIFO or LRU, leaves the entry
    without a previous entry. *)
Lemma delete_entry_unlinks c l key p r c' :
  chain_inv c l -> evictionPolicy c <> LeastFrequentUsed ->
  entries c !! key = Some p ->
  delete_entry key c = Done (r, c') -> previous (heap c' p) = None.
Proof.
  intros Hinv Hpol Hkey.
  assert (p ∈ l /\ Key (heap c p) = key) as [Hp Hk]
    by by apply (chain_map _ _ Hinv).
  apply list_elem_of_split in Hp as (l1 & l2 & ->).
  unfold delete_entry. rewrite Hkey. cbv zeta.
  destruct (release_memory_fields (heap c p) c)
    as (Hh1 & Hhd1 & Htl1 & _ & _ & _ & (Hpo1 & _) & _).
  set (c1 := release_memory (heap c p) c) in *.
  rewrite bool_decide_eq_false_2 by (by rewrite Hpo1).
  cbn [mbind Outcome_bind]. intros [= _ <-].
  destruct Hinv as [Hnd Hhead Htail Hl _ _ _].
  destruct (chain_unlink c1 l1 p l2) as (_ & _ & _ & _ & Hprev);
    [done|congruence|congruence|by rewrite Hh1|]. exact Hprev.
Qed.

(** One step of the janitor on an expired entry of the chain. *)
Lemma swept_delete now c l cur :
  chain_inv c l -> evictionPolicy c <> LeastFrequentUsed -> cur ∈ l ->
  Expired now (heap c cur) = true ->
  exists c1 l1 l2,
    l = l1 ++ cur :: l2
    /\ delete_entry (Key (heap c cur)) c = Done (true, c1)
    /\ chain_inv (count_expired c1) (l1 ++ l2)
    /\ evictionPolicy (count_expired c1) <> LeastFrequentUsed
    /\ previous (heap (count_expired c1) cur) = None
    /\ swept now 1 c (count_expired c1).
Proof.
  intros Hinv Hpol Hcur Hexp.
  assert (entries c !! Key (heap c cur) = Some cur) as Hkey
    by by apply (chain_map _ _ Hinv).
  destruct (chain_inv_delete_entry c l _ cur Hinv Hpol Hkey)
    as (c1 & l1 & l2 & Hl & Hdel & Hinv1 & (Hpo1 & _) & Hst1).
  exists c1, l1, l2. split; [done|]. split; [done|].
  split; [by apply chain_inv_set_stats|].
  split; [change (evictionPolicy c1 <> LeastFrequentUsed); congruence|].
  split; [exact (delete_entry_unlinks _ _ _ _ _ _ Hinv Hpol Hkey Hdel)|].
  pose proof (entries_delete_entry _ _ _ _ Hdel) as He1.
  pose proof (contents_delete_entry _ _ _ _ Hdel) as Hc1.
  split.
  { intros k p. change (entries c1 !! k = Some p -> entries c !! k = Some p).
    rewrite He1. by intros [_ ?]%lookup_delete_Some. }
  split.
  { intros k p Hk. change (entries c1 !! k = None -> Expired now (heap c p) = true).
    rewrite He1. intros [<-|Hnone]%lookup_delete_None; congruence. }
  split; [exact Hc1|]. split; [done|].
  split.
  { change (len_entries c1 = len_entries c - 1). unfold len_entries.
    rewrite He1, len_delete. rewrite bool_decide_eq_true_2; [done|].
    by rewrite Hkey. }
  unfold count_expired. cbn [stats set_stats ExpiredKeys EvictedKeys Hits Misses].
  rewrite Hst1. split; [|done].
  unfold wrap_uint64. by rewrite Z.mod_mod.
Qed.

(** The walk of the janitor from an entry of the chain, under FIFO or LRU:
    it completes, and removes expired entries only. *)
Lemma janitor_walk_spec remaining found cur now c l :
  chain_inv c l -> evictionPolicy c <> LeastFrequentUsed ->
  (forall p, cur = Some p -> p ∈ l) ->
  exists r c' n,
    janitor_walk remaining found cur now c = Done (r, c')
    /\ swept now n c c'
    /\ (found < JanitorShiftTarget -> found + n <= JanitorShiftTarget).
Proof.
  revert found cur c l.
  induction remaining as [|remaining IH]; intros found cur c l Hinv Hpol Hcur;
    destruct cur as [cur|]; cbn [janitor_walk];
    try (exists None, c, 0; split; [done|]; split; [apply swept_refl|lia]).
  { exists (Some cur), c, 0. split; [done|]. split; [apply swept_refl|lia]. }
  specialize (Hcur cur eq_refl).
  destruct (Expired now (heap c cur)) eqn:Hexp.
  - destruct (swept_delete now c l cur Hinv Hpol Hcur Hexp)
      as (c1 & l1 & l2 & -> & Hdel & Hinv1 & Hpol1 & Hprev1 & Hswept).
    rewrite Hdel. cbn [mbind Outcome_bind].
    set (c2 := count_expired c1) in *.
    destruct (bool_decide (Some cur = head c2)).
    { exists None, c2, 1. split; [done|]. split; [done|lia]. }
    set (current := match previous (heap c cur) with
                    | Some p => Some p
                    | None => previous (heap c2 cur)
                    end).
    assert (forall p, current = Some p -> p ∈ l1 ++ l2) as Hcurrent.
    { intros p. unfold current.
      rewrite (linked_previous _ _ _ _ _ (chain_linked _ _ Hinv)).
      destruct (last l1) as [a|] eqn:Hlast.
      - intros [= <-]. apply elem_of_app. left.
        apply last_Some in Hlast as [l' ->].
        apply elem_of_app. right. apply list_elem_of_here.
      - by rewrite Hprev1. }
    destruct (bool_decide (remaining = 0%nat)
              || (JanitorShiftTarget <=? found + 1)) eqn:Hstop.
    { exists current, c2, 1. split; [done|]. split; [done|lia]. }
    apply orb_false_iff in Hstop as [_ Hlt]. apply Z.leb_gt in Hlt.
    destruct (IH (found + 1) current c2 (l1 ++ l2) Hinv1 Hpol1 Hcurrent)
      as (r & c' & n & Hrun & Hswept' & Hn).
    exists r, c', (1 + n). split; [done|].
    split; [by eapply swept_trans|]. intros _. specialize (Hn Hlt). lia.
  - cbn [mbind Outcome_bind].
    destruct (bool_decide (Some cur = head c)).
    { exists None, c, 0. split; [done|]. split; [apply swept_refl|lia]. }
    assert (forall p, previous (heap c cur) = Some p -> p ∈ l) as Hcurrent.
    { intros p. apply list_elem_of_split in Hcur as (l1 & l2 & ->).
      rewrite (linked_previous _ _ _ _ _ (chain_linked _ _ Hinv)).
      destruct (last l1) as [a|] eqn:Hlast; [|done].
      intros [= <-]. apply elem_of_app. left.
      apply last_Some in Hlast as [l' ->].
      apply elem_of_app. right. apply list_elem_of_here. }
    destruct (bool_decide (remaining = 0%nat)
              || (JanitorShiftTarget <=? found)) eqn:Hstop.
    { eexists _, c, 0. split; [done|]. split; [apply swept_refl|lia]. }
    apply orb_false_iff in Hstop as [_ Hlt]. apply Z.leb_gt in Hlt.
    destruct (IH found (previous (heap c cur)) c l Hinv Hpol Hcurrent)
      as (r & c' & n & Hrun & Hswept' & Hn).
    exists r, c', n. done.
Qed.

End Janitor.

Section StoringAll.
Context {V : Type} `{Payload V} `{RangeOrder} `{PatternMatcher}.
Implicit Types (c : Cache V) (p q : eptr) (l : list eptr).

(** No entry is mapped from two keys. *)
Lemma recency_inv_one_key c k1 k2 p :
  recency_inv c -> entries c !! k1 = Some p -> entries c !! k2 = Some p ->
  k1 = k2.
Proof.
  intros (_ & _ & _ & l & Hinv & _) Hk1%(chain_map _ _ Hinv)
    Hk2%(chain_map _ _ Hinv).
  destruct Hk1 as [_ <-], Hk2 as [_ <-]. done.
Qed.

(** The loop of [SetAll] on a cache without a memory bound, with room for
    the pairs, under FIFO or LRU. *)
Lemma SetAll_loop_spec fuel kvs now c :
  recency_inv c -> maxMemoryUsage c = NoMaxMemoryUsage -> NoDup kvs.*1 ->
  maxSize c = NoMaxSize
    \/ len_entries c + Z.of_nat (length kvs) <= maxSize c ->
  exists c',
    run (SetAll_loop fuel kvs now) c = Done (tt, c')
    /\ recency_inv c' /\ stats c' = stats c
    /\ (forall k, k ∉ kvs.*1 -> entries c' !! k = entries c !! k)
    /\ (forall k v, (k, v) ∈ kvs ->
          exists p, entries c' !! k = Some p
                    /\ Value (heap c' p)
                       = (if forceNilInterfaceOnNilPointer c
                             && is_typed_nil_ptr v then vnil else v)
                    /\ Expiration (heap c' p) = NoExpiration)
    /\ (forall q, (forall k, k ∈ kvs.*1 -> entries c' !! k <> Some q) ->
          Key (heap c' q) = Key (heap c q)
          /\ Value (heap c' q) = Value (heap c q)
          /\ Expiration (heap c' q) = Expiration (heap c q)).
Proof.
  revert c. induction kvs as [|[key value] kvs IH];
    intros c Hrec Hmm Hnd Hroom; cbn [SetAll_loop].
  { exists c. split; [done|]. split; [done|]. split; [done|].
    split; [done|]. split; [by intros k v ?%elem_of_nil|done]. }
  apply NoDup_cons in Hnd as [Hkey Hnd]. cbn [fmap list_fmap fst] in Hkey.
  rewrite run_bind, run_SetWithTTL.
  set (v := if forceNilInterfaceOnNilPointer c && is_typed_nil_ptr value
            then vnil else value).
  destruct (SetWithTTL_locked_stores fuel key v NoExpiration now c Hrec Hmm)
    as (c1 & p & Hrun & Hk1 & _ & _ & Hv1 & He1 & Hfn1 & Hothers & _ & Hkeep);
    [by left|].
  destruct (recency_inv_SetWithTTL_locked _ _ _ _ _ _ _ Hrec Hrun)
    as (Hrec1 & (_ & Hms1 & Hmm1) & _).
  destruct Hkeep as (Hen1 & Hst1).
  { destruct Hroom as [?|Hroom]; [by right; left|].
    cbn [length] in Hroom. right. right. lia. }
  rewrite Hrun.
  destruct (IH c1) as (c' & Hrun' & Hrec' & Hst' & Hout & Hin & Hcont);
    [done|congruence|done| |].
  { rewrite Hms1. destruct Hroom as [?|Hroom]; [by left|]. right.
    cbn [length] in Hroom.
    assert (len_entries c1 <= len_entries c + 1); [|lia].
    unfold len_entries. rewrite Hen1.
    destruct (entries c !! key) as [p0|] eqn:Hk.
    - rewrite map_size_insert_Some by done. lia.
    - rewrite map_size_insert_None by done. lia. }
  assert (entries c' !! key = Some p) as Hk' by by rewrite Hout.
  assert (forall k, k ∈ kvs.*1 -> entries c' !! k <> Some p) as Hp.
  { intros k Hk Hkp.
    assert (k = key) as -> by by eapply recency_inv_one_key. done. }
  exists c'. split; [exact Hrun'|]. split; [done|]. split; [congruence|].
  split; [|split].
  - intros k Hk. cbn [fmap list_fmap fst] in Hk.
    apply not_elem_of_cons in Hk as [Hne Hk].
    by rewrite Hout, Hen1, lookup_insert_ne.
  - intros k v0 [[= -> ->]|Hkv]%elem_of_cons.
    + exists p. split; [done|]. destruct (Hcont p Hp) as (_ & -> & ->).
      split; [done|]. rewrite He1. unfold expiration_for.
      rewrite bool_decide_eq_false_2; [done|]. intros Hn. by apply Hn.
    + destruct (Hin k v0 Hkv) as (p0 & ? & Hv0 & ?). exists p0.
      split; [done|]. split; [|done]. by rewrite Hv0, Hfn1.
  - intros q Hq.
    assert (q <> p) as Hqp.
    { intros ->. apply (Hq key); [apply list_elem_of_here|done]. }
    destruct (Hcont q) as (-> & -> & ->); [|by apply Hothers].
    intros k Hk. apply Hq. by apply list_elem_of_further.
Qed.

End StoringAll.

Section Construction.
Context {V : Type} `{Payload V} `{RangeOrder} `{PatternMatcher}.
Implicit Types (c : Cache V) (p q : eptr) (l : list eptr).

Lemma NewCache_snoc opts o :
  NewCache (V:=V) (opts ++ [o]) = apply_option (NewCache opts) o.
Proof. unfold NewCache. by rewrite foldl_snoc. Qed.

Lemma NewCache_empty opts :
  entries (NewCache (V:=V) opts) = ∅
  /\ stats (NewCache (V:=V) opts) = mkStatistics 0 0 0 0
  /\ memoryUsage (NewCache (V:=V) opts) = 0.
Proof.
  induction opts as [|o opts (He & Hs & Hm)] using rev_ind; [done|].
  rewrite NewCache_snoc.
  destruct o; cbn; rewrite ?He; by repeat case_match.
Qed.

End Construction.

Section Recent.
Context {V : Type} `{Payload V} `{RangeOrder} `{PatternMatcher}.
Implicit Types (c : Cache V) (p q : eptr) (l : list eptr).

(** In a chain of two entries or more the head is not the tail. *)
Lemma chain_inv_head_tail c l p :
  chain_inv c l -> (2 <= length l)%nat -> head c = Some p -> tail c <> Some p.
Proof.
  intros Hinv Hlen Hhead Htail.
  rewrite (chain_head _ _ Hinv) in Hhead.
  rewrite (chain_tail _ _ Hinv) in Htail.
  pose proof (chain_nodup _ _ Hinv) as Hnd.
  destruct l as [|a l']; [done|]. injection Hhead as ->.
  destruct l' as [|b l''] using rev_ind; [simpl in Hlen; lia|].
  rewrite app_comm_cons, last_snoc in Htail. injection Htail as ->.
  apply NoDup_cons in Hnd as [Hnd _]. apply Hnd.
  apply elem_of_app. right. apply list_elem_of_here.
Qed.

End Recent.

Section Reading.
Context {V : Type} `{Payload V} `{RangeOrder} `{PatternMatcher}.
Implicit Types (c : Cache V) (p q : eptr) (l : list eptr).

(** [Get] under FIFO or LRU: it answers the value of the key and changes
    the value of no key. *)
Lemma Get_answer_value_at key now c :
  recency_inv c ->
  exists b c',
    Get_answer key now c = Done ((value_at now c key, b), c')
    /\ recency_inv c'
    /\ forall k, value_at now c' k = value_at now c k.
Proof.
  intros Hrec. pose proof Hrec as (Hpol & _).
  destruct (entries c !! key) as [p|] eqn:Hkey.
  2:{ exists false, (count_miss c). rewrite Get_answer_eq.
      unfold get, value_at.
      rewrite Hkey. split; [done|].
      split; [by apply recency_inv_set_stats|done]. }
  destruct (Expired now (heap c p)) eqn:Hexp.
  - destruct (delete_entry_completes key (count_expired c) Hpol)
      as [[b c'] Hdel].
    exists false, c'. rewrite Get_answer_eq. unfold get.
    unfold value_at at 1.
    rewrite Hkey, Hexp. cbv zeta. rewrite Hdel. cbn [mbind Outcome_bind].
    split; [done|].
    split.
    { eapply recency_inv_delete_entry; [|exact Hdel].
      by apply recency_inv_set_stats. }
    pose proof (entries_delete_entry _ _ _ _ Hdel) as He.
    pose proof (contents_delete_entry _ _ _ _ Hdel) as Hc.
    intros k. unfold value_at. rewrite He.
    change (entries (count_expired c)) with (entries c).
    destruct (decide (k = key)) as [->|Hne].
    + by rewrite lookup_delete_eq, Hkey, Hexp.
    + rewrite lookup_delete_ne by done.
      destruct (entries c !! k) as [q|]; [|done].
      rewrite (Expired_contents now _ _ q Hc).
      by destruct (Hc q) as (_ & -> & _).
  - destruct (Get_answer_live key now c p Hrec Hkey Hexp)
      as (c' & Hget & He & Hc & _).
    exists true, c'. unfold value_at at 1. rewrite Hkey, Hexp.
    split; [done|].
    split; [by eapply recency_inv_Get_answer|].
    intros k. unfold value_at. rewrite He.
    destruct (entries c !! k) as [q|]; [|done].
    rewrite (Expired_contents now _ _ q Hc).
    by destruct (Hc q) as (_ & -> & _).
Qed.

Lemma GetByKeys_loop_values keys now found c :
  recency_inv c ->
  exists found' c',
    run (GetByKeys_loop keys now found) c = Done (found', c')
    /\ forall k, found' !! k = (if bool_decide (k ∈ keys)
                                then Some (value_at now c k)
                                else found !! k).
Proof.
  revert found c. induction keys as [|key keys IH]; intros found c Hrec;
    cbn [GetByKeys_loop].
  { exists found, c. split; [done|]. intros k.
    rewrite bool_decide_eq_false_2; [done|]. apply not_elem_of_nil. }
  destruct (Get_answer_value_at key now c Hrec) as (b & c1 & Hget & Hrec1 & Hv).
  destruct (IH (<[key := value_at now c key]> found) c1 Hrec1)
    as (found' & c' & Hrun & Hfound).
  exists found', c'. rewrite run_bind, run_Get, Hget. cbn [fst].
  split; [done|]. intros k. rewrite Hfound, Hv.
  destruct (bool_decide (k ∈ keys)) eqn:Hin.
  - apply bool_decide_eq_true in Hin.
    by rewrite bool_decide_eq_true_2 by by apply list_elem_of_further.
  - apply bool_decide_eq_false in Hin.
    destruct (decide (k = key)) as [->|Hne].
    + rewrite bool_decide_eq_true_2 by apply list_elem_of_here.
      by rewrite lookup_insert_eq.
    + rewrite lookup_insert_ne by done.
      rewrite bool_decide_eq_false_2; [done|]. rewrite elem_of_cons. tauto.
Qed.

End Reading.


(** ** The claims *)

Section GeneralClaims.
Context {V : Type} `{Payload V} `{RangeOrder} `{PatternMatcher}.


(** C8.  [TTL] leaves the cache as it was and answers: the key-missing error
    when the key is absent; the no-expiration error when the entry's
    expiration is the never sentinel; the key-missing error when the stored
    expiration lies in the past; and otherwise the expiration minus now.
    (The instant read from the clock is not negative and the stored
    expiration is an [int64].) *)
Theorem TTL_answers key now (c : Cache V) :
  0 <= now ->
  (forall entry, entries c !! key = Some entry ->
     Expiration (heap c entry) <= max_int) ->
  run (TTL key now) c = Done (TTL_answer key now c, c)
  /\ (entries c !! key = None ->
      TTL_answer key now c = (0, Some ErrKeyDoesNotExist))
  /\ (forall entry, entries c !! key = Some entry ->
        Expiration (heap c entry) = NoExpiration ->
        TTL_answer key now c = (0, Some ErrKeyHasNoExpiration))
  /\ (forall entry, entries c !! key = Some entry ->
        Expiration (heap c entry) <> NoExpiration ->
        Expiration (heap c entry) < now ->
        TTL_answer key now c = (0, Some ErrKeyDoesNotExist))
  /\ (forall entry, entries c !! key = Some entry ->
        Expiration (heap c entry) <> NoExpiration ->
        now <= Expiration (heap c entry) ->
        TTL_answer key now c = (Expiration (heap c entry) - now, None)).
Proof.
  intros Hnow Hrange. split; [by apply TTL_run|]. unfold TTL_answer.
  repeat split.
  - by intros ->.
  - intros entry -> Hnever. by rewrite bool_decide_eq_true_2.
  - intros entry -> Hnever Hpast.
    by rewrite bool_decide_eq_false_2, bool_decide_eq_true_2.
  - intros entry -> Hnever Hfuture.
    rewrite bool_decide_eq_false_2, bool_decide_eq_false_2 by lia. done.
Qed.

(** C9.  [Expire] reads the map and the entry, and writes the entry's
    expiration, without ever taking the mutex: its trace breaks the lock
    discipline on every cache. *)
Theorem Expire_takes_no_lock key ttl now (c : Cache V) :
  guarded (trace (Expire key ttl now) c) = false.
Proof. apply Expire_trace_unguarded. Qed.


End GeneralClaims.

(** *** Further properties: the operations, FIFO and LRU, and the lock
    discipline *)

Section FurtherProperties.
Context {V : Type} `{Payload V} `{RangeOrder} `{PatternMatcher}.
Implicit Types (c : Cache V).

(** X1.  Under FIFO or LRU the recency chain of every reachable cache is
    as the specification describes it. *)
Theorem chain_described_FIFO_LRU c :
  reachable c -> evictionPolicy c <> LeastFrequentUsed -> chain_described c.
Proof.
  intros Hreach Hpol.
  destruct (reachable_recency_inv c Hreach Hpol) as (_ & _ & _ & l & Hinv & _).
  by eapply chain_inv_described.
Qed.

(** X2.  Under FIFO or LRU [Count] never exceeds a size bound. *)
Theorem Count_within_maxSize_FIFO_LRU c n c' :
  reachable c -> evictionPolicy c <> LeastFrequentUsed ->
  maxSize c <> NoMaxSize ->
  run Count c = Done (n, c') -> n <= maxSize c.
Proof.
  intros Hreach Hpol Hne. rewrite run_Count. intros [= <- _].
  destruct (reachable_recency_inv c Hreach Hpol)
    as (_ & _ & _ & l & Hinv & Hlen).
  unfold len_entries. rewrite (chain_inv_size _ _ Hinv). auto.
Qed.

(** X3.  Under FIFO or LRU [SetWithTTL] returns, with fuel for one
    eviction per entry, and the memory counter is within its bound when the
    entry was stored. *)
Theorem SetWithTTL_returns_FIFO_LRU fuel key value ttl now c :
  reachable c -> evictionPolicy c <> LeastFrequentUsed ->
  (size (entries c) < fuel)%nat ->
  exists c',
    run (SetWithTTL fuel key value ttl now) c = Done (tt, c')
    /\ (maxMemoryUsage c <> NoMaxMemoryUsage ->
        ttl = NoExpiration \/ 1 <= ttl ->
        memoryUsage c' <= maxMemoryUsage c').
Proof.
  intros Hreach Hpol Hfuel. rewrite run_SetWithTTL.
  destruct (recency_inv_SetWithTTL_locked_total fuel key
              (if forceNilInterfaceOnNilPointer c && is_typed_nil_ptr value
               then vnil else value) ttl now c
              (reachable_recency_inv c Hreach Hpol) Hfuel)
    as (c' & Hrun & _ & _ & Hmem).
  exists c'. split; [done|]. auto.
Qed.

(** X4.  Under FIFO or LRU, whenever a storing [SetWithTTL] returns, the
    memory counter is within its bound. *)
Theorem Set_within_maxMemoryUsage_FIFO_LRU fuel key value ttl now c c' :
  reachable c -> evictionPolicy c <> LeastFrequentUsed ->
  maxMemoryUsage c <> NoMaxMemoryUsage ->
  ttl = NoExpiration \/ 1 <= ttl ->
  run (SetWithTTL fuel key value ttl now) c = Done (tt, c') ->
  memoryUsage c' <= maxMemoryUsage c'.
Proof.
  intros Hreach Hpol Hne Httl. rewrite run_SetWithTTL. intros Hrun.
  destruct (recency_inv_SetWithTTL_locked _ _ _ _ _ _ _
              (reachable_recency_inv c Hreach Hpol) Hrun) as (_ & _ & Hmem).
  auto.
Qed.

(** X5.  Under FIFO or LRU [SetWithTTL] with a ttl that is neither the
    sentinel nor positive deletes the key if it is there, and nothing
    else. *)
Theorem SetWithTTL_instant_deletes_FIFO_LRU fuel key value ttl now c :
  reachable c -> evictionPolicy c <> LeastFrequentUsed ->
  ttl <> NoExpiration -> ttl < 1 ->
  exists c',
    run (SetWithTTL fuel key value ttl now) c = Done (tt, c')
    /\ entries c' = delete key (entries c)
    /\ stats c' = stats c
    /\ (forall q, Key (heap c' q) = Key (heap c q)
                  /\ Value (heap c' q) = Value (heap c q)
                  /\ Expiration (heap c' q) = Expiration (heap c q))
    /\ forall now', run (Get key now') c' = Done ((vnil, false), count_miss c').
Proof.
  intros Hreach Hpol Hne Hlt. rewrite run_SetWithTTL.
  unfold SetWithTTL_locked, get. cbv zeta.
  rewrite bool_decide_eq_true_2 by done.
  replace (ttl <? 1) with true by (symmetry; by apply Z.ltb_lt).
  cbn [andb].
  assert (forall c', entries c' = delete key (entries c) ->
            forall now', run (Get key now') c'
                         = Done ((vnil, false), count_miss c')) as HGet.
  { intros c' He now'. rewrite run_Get, Get_answer_eq. unfold get.
    by rewrite He, lookup_delete_eq. }
  destruct (entries c !! key) as [p|] eqn:Hkey.
  - destruct (delete_entry_completes key c Hpol) as [[b c'] Hdel].
    rewrite Hdel. cbn [mbind Outcome_bind]. exists c'.
    pose proof (entries_delete_entry _ _ _ _ Hdel) as He.
    split; [done|]. split; [done|].
    split; [by destruct (sc_delete_entry _ _ _ _ Hdel)|].
    split; [|by apply HGet].
    intros q. by eapply delete_entry_fields.
  - exists c. assert (entries c = delete key (entries c)) as He
      by by rewrite delete_id.
    split; [done|]. split; [done|]. split; [done|]. split; [done|].
    by apply HGet.
Qed.

(** X6.  Under FIFO or LRU [Get] answers as the specification says: a miss
    on an absent key, a deletion and an expired key counted on an expired
    one, a hit with the stored value on a live one, which LRU moves to the
    head and FIFO leaves where it is. *)
Theorem Get_behaves_FIFO_LRU key now c :
  reachable c -> evictionPolicy c <> LeastFrequentUsed ->
  match entries c !! key with
  | None => run (Get key now) c = Done ((vnil, false), count_miss c)
  | Some p =>
      if Expired now (heap c p) then
        exists c', run (Get key now) c = Done ((vnil, false), c')
                   /\ entries c' = delete key (entries c)
                   /\ stats c' = stats (count_expired c)
      else
        exists c', run (Get key now) c = Done ((Value (heap c p), true), c')
                   /\ entries c' = entries c
                   /\ stats c' = stats (count_hits 1 c)
                   /\ (evictionPolicy c = LeastRecentlyUsed ->
                       head c' = Some p)
                   /\ (evictionPolicy c = FirstInFirstOut ->
                       c' = count_hits 1 c)
  end.
Proof.
  intros Hreach Hpol. pose proof (reachable_recency_inv c Hreach Hpol) as Hrec.
  rewrite run_Get, Get_answer_eq. unfold get.
  destruct (entries c !! key) as [p|] eqn:Hkey; [|done].
  destruct (Expired now (heap c p)).
  { cbv zeta.
    destruct (delete_entry_completes key (count_expired c) Hpol)
      as [[b c'] Hdel].
    rewrite Hdel. cbn [mbind Outcome_bind]. exists c'. split; [done|].
    split; [by apply entries_delete_entry in Hdel|].
    by destruct (sc_delete_entry _ _ _ _ Hdel). }
  cbv zeta. set (c1 := count_hits 1 c).
  change (evictionPolicy c1) with (evictionPolicy c).
  destruct (evictionPolicy c) eqn:Hp; [| |done].
  - rewrite bool_decide_eq_false_2 by done.
    change (evictionPolicy c1) with (evictionPolicy c). rewrite Hp.
    rewrite bool_decide_eq_false_2 by done. cbn [mbind Outcome_bind].
    exists c1. by repeat split.
  - rewrite bool_decide_eq_true_2 by done.
    set (c2 := update p (Accessed now) c1).
    assert (Value (heap c2 p) = Value (heap c p)) as Hv2.
    { unfold c2, update. cbn [heap set_heap]. unfold insert, fn_insert.
      by rewrite decide_True. }
    destruct (bool_decide (head c2 = Some p)) eqn:Hhead.
    + apply bool_decide_eq_true in Hhead. exists c2. rewrite Hv2.
      by repeat split.
    + set (c3 := moveExistingEntryToHead p c2).
      assert (recency_inv c2) as Hrec2.
      { apply recency_inv_update; [by intros e; destruct e|].
        by apply recency_inv_set_stats. }
      destruct Hrec2 as (_ & _ & _ & l & Hinv & _).
      assert (p ∈ l) as Hpl by by apply (chain_map _ _ Hinv key p).
      apply list_elem_of_split in Hpl as (l1 & l2 & ->).
      destruct (chain_inv_moveExistingEntryToHead c2 l1 p l2 Hinv)
        as (Hinv3 & Hlinks). fold c3 in Hinv3, Hlinks.
      pose proof Hlinks as (_ & _ & Hpo3 & Hst3 & Hen3 & _).
      assert (Value (heap c3 p) = Value (heap c2 p)) as Hv3.
      { destruct Hlinks as (_&_&_&_&_&_&_&_&_&_&Hq). by rewrite (Hq p). }
      change (evictionPolicy c2) with (evictionPolicy c) in Hpo3.
      rewrite Hpo3, Hp. rewrite bool_decide_eq_false_2 by done.
      cbn [mbind Outcome_bind]. exists c3. rewrite Hv3, Hv2.
      split; [done|]. split; [by rewrite Hen3|]. split; [by rewrite Hst3|].
      split; [|done]. intros _. by rewrite (chain_head _ _ Hinv3).
Qed.

(** X7.  Every call but [Expire], [TTL], [MemoryUsage], [Get], [GetValue]
    and [GetByKeys] reads and writes the guarded state under the mutex only
    (writes under the exclusive lock), and gives the mutex back when it
    completes.  The fields fixed at construction are read without it. *)
Theorem operations_keep_lock_discipline fuel now (cl : Call V) :
  locks_properly cl = true -> disciplined (call fuel now cl).
Proof.
  destruct cl; cbn [call locks_properly]; try done; intros _;
    try apply disciplined_forget;
    first
      [ apply disciplined_SetWithTTL
      | apply disciplined_SetAll_loop
      | apply disciplined_exclusive
      | apply disciplined_exclusive_read
      | apply disciplined_shared_read
      | apply disciplined_exclusive_modify
      | idtac ].
  apply disciplined_bind; [apply disciplined_exclusive_read|].
  intros keys. apply disciplined_exclusive.
Qed.

(** X8.  [TTL] of a key of the map reads the expiration of the entry after
    it has released the read lock. *)
Theorem TTL_reads_after_unlock key now (c : Cache V) :
  is_Some (entries c !! key) -> guarded (trace (TTL key now) c) = false.
Proof.
  intros [entry Hentry]. unfold TTL.
  do 3 (rewrite trace_bind; unfold run at 1;
        cbn [fst snd RLock RUnlock emit reads]).
  unfold get. rewrite Hentry, trace_bind. done.
Qed.

(** X9.  [MemoryUsage] reads the memory counter without the mutex. *)
Theorem MemoryUsage_takes_no_lock (c : Cache V) :
  guarded (trace MemoryUsage c) = false.
Proof. done. Qed.

(** X10.  [Delete] answers whether the key was in the map and removes exactly
    that key; the entries keep their keys, values and expirations. *)
Theorem Delete_removes_the_key key c ok c' :
  run (Delete key) c = Done (ok, c') ->
  ok = bool_decide (is_Some (entries c !! key))
  /\ entries c' = delete key (entries c)
  /\ len_entries c' = len_entries c - (if ok then 1 else 0)
  /\ same_contents c c'.
Proof.
  rewrite run_Delete. intros Hdel.
  pose proof (delete_entry_flag _ _ _ _ Hdel) as Hok.
  pose proof (entries_delete_entry _ _ _ _ Hdel) as He.
  split; [done|]. split; [done|]. split.
  - unfold len_entries. by rewrite He, len_delete, <- Hok.
  - by eapply contents_delete_entry.
Qed.

(** X11.  [DeleteAll] removes the keys it is given and no other, and answers how
    many keys left the map (a key given twice, or not in the map, is not
    counted). *)
Theorem DeleteAll_counts_the_removed_keys keys c n c' :
  run (DeleteAll keys) c = Done (n, c') ->
  (forall k, entries c' !! k
             = if bool_decide (k ∈ keys) then None else entries c !! k)
  /\ n = len_entries c - len_entries c'
  /\ same_contents c c'.
Proof.
  rewrite run_DeleteAll. intros Hrun.
  destruct (DeleteAll_loop_spec _ _ _ _ _ Hrun) as (Hmap & Hn & Hcont).
  split; [done|]. split; [lia|done].
Qed.

(** X12.  [GetKeysByPattern] leaves the cache as it is, expired entries
    included.  The keys it returns are distinct keys of the map whose entry
    has not expired and that match the pattern; with a positive limit they
    are at most that many; and without a limit, or when fewer than the
    limit were found, they are all such keys. *)
Theorem GetKeysByPattern_returns_live_matches pattern limit now c :
  exists keys,
    run (GetKeysByPattern pattern limit now) c = Done (keys, c)
    /\ NoDup keys
    /\ (forall k, k ∈ keys ->
          exists p, entries c !! k = Some p
                    /\ Expired now (heap c p) = false
                    /\ MatchPattern pattern k = true)
    /\ (0 < limit -> Z.of_nat (length keys) <= limit)
    /\ (limit <= 0 \/ Z.of_nat (length keys) < limit ->
        forall k p, entries c !! k = Some p ->
                    Expired now (heap c p) = false ->
                    MatchPattern pattern k = true -> k ∈ keys).
Proof.
  eexists. split; [apply run_GetKeysByPattern|].
  rewrite GetKeysByPattern_loop_spec by (cbn; lia). cbn [app length].
  rewrite Nat.sub_0_r.
  set (good := (filter _ (range_map (entries c))).*1).
  assert (NoDup good) as Hnd.
  { unfold good. apply NoDup_fst_filter, NoDup_fst_range_map. }
  assert (forall k, k ∈ good <->
            exists p, entries c !! k = Some p
                      /\ Expired now (heap c p) = false
                      /\ MatchPattern pattern k = true) as Hgood.
  { intros k. unfold good. rewrite list_elem_of_fmap. split.
    - intros ([k' p] & -> & Hin). apply list_elem_of_filter in Hin as [Hm Hin].
      apply elem_of_range_map in Hin. exists p. split; [done|].
      unfold live_match in Hm. cbn [fst snd] in Hm.
      apply andb_true_iff in Hm as [Hl Hm]. split; [|done].
      by apply negb_true_iff in Hl.
    - intros (p & Hk & Hl & Hm). exists (k, p). split; [done|].
      apply list_elem_of_filter. split; [|by apply elem_of_range_map].
      unfold live_match. cbn [fst snd]. by rewrite Hl, Hm. }
  destruct (Z.ltb_spec 0 limit) as [Hpos|Hnon].
  - split; [exact (sublist_NoDup _ good Hnd (sublist_take _ _))|].
    split; [|split].
    + intros k Hk. apply Hgood. apply elem_of_take in Hk as (i & Hi & _).
      by apply list_elem_of_lookup_2 in Hi.
    + intros _. rewrite length_take. lia.
    + intros [Hle|Hlt]; [lia|]. intros k p Hk Hl Hm.
      rewrite length_take in Hlt. rewrite take_ge by lia.
      apply Hgood. eauto.
  - cbn [id]. split; [done|]. split; [|split].
    + intros k Hk. by apply Hgood.
    + lia.
    + intros _ k p Hk Hl Hm. apply Hgood. eauto.
Qed.

(** X13.  [DeleteKeysByPattern] removes the keys whose entry has not expired and
    that match the pattern, leaves every other key (the expired ones that
    match included), and answers how many keys left the map. *)
Theorem DeleteKeysByPattern_removes_live_matches pattern now c n c' :
  run (DeleteKeysByPattern pattern now) c = Done (n, c') ->
  (forall k, entries c' !! k
             = match entries c !! k with
               | Some p =>
                   if negb (Expired now (heap c p)) && MatchPattern pattern k
                   then None else Some p
               | None => None
               end)
  /\ n = len_entries c - len_entries c'
  /\ same_contents c c'.
Proof.
  rewrite run_DeleteKeysByPattern. intros Hrun.
  destruct (DeleteAll_loop_spec _ _ _ _ _ Hrun) as (Hmap & Hn & Hcont).
  split; [|split; [lia|done]].
  intros k. rewrite Hmap.
  rewrite GetKeysByPattern_loop_spec by (cbn; lia). cbn [app id Z.ltb].
  change (0 <? 0) with false. cbn [id].
  destruct (entries c !! k) as [p|] eqn:Hk.
  - change (negb (Expired now (heap c p)) && MatchPattern pattern k)
      with (live_match pattern now c (k, p)).
    destruct (live_match pattern now c (k, p)) eqn:Hlive.
    + rewrite bool_decide_eq_true_2; [done|].
      apply list_elem_of_fmap. exists (k, p). split; [done|].
      apply list_elem_of_filter. split; [done|]. by apply elem_of_range_map.
    + rewrite bool_decide_eq_false_2; [done|].
      intros Hin. apply list_elem_of_fmap in Hin as ([k' p'] & -> & Hin).
      apply list_elem_of_filter in Hin as [Hm Hin].
      apply elem_of_range_map in Hin. cbn [fst] in Hk, Hlive.
      assert (p' = p) as -> by congruence. congruence.
  - by destruct (bool_decide _).
Qed.

(** X14.  [GetByKeys] answers for every key it is given and for no other, and
    gives nil for a key that is not in the map. *)
Theorem GetByKeys_answers_every_key keys now c found c' :
  run (GetByKeys keys now) c = Done (found, c') ->
  dom found = list_to_set keys
  /\ forall k, k ∈ keys -> entries c !! k = None -> found !! k = Some vnil.
Proof.
  unfold GetByKeys. intros Hrun.
  destruct (GetByKeys_loop_spec _ _ _ _ _ _ Hrun) as (Hdom & Habs).
  split.
  - rewrite Hdom, dom_empty_L. apply set_eq. intros x.
    rewrite elem_of_union, elem_of_empty. tauto.
  - intros k Hin Hk. destruct (Habs k Hk) as [_ ->].
    by rewrite bool_decide_eq_true_2.
Qed.

(** X15.  [Expire] of a key whose entry has not expired succeeds, and [TTL] then
    answers what is left of the ttl, or that the key has no expiration
    when the ttl was the sentinel. *)
Theorem Expire_then_TTL key ttl now c p :
  entries c !! key = Some p -> Expired now (heap c p) = false ->
  exists c',
    run (Expire key ttl now) c = Done (true, c')
    /\ entries c' = entries c
    /\ (ttl = NoExpiration ->
        forall now', 0 <= now' ->
          run (TTL key now') c' = Done ((0, Some ErrKeyHasNoExpiration), c'))
    /\ (ttl <> NoExpiration ->
        forall now', 0 <= now' <= now + ttl -> now + ttl <= max_int ->
          run (TTL key now') c' = Done ((now + ttl - now', None), c')).
Proof.
  intros Hkey Hlive. rewrite run_Expire, Hkey, Hlive.
  eexists. split; [done|]. split; [done|].
  set (c' := update p (set_Expiration (expiration_for ttl now)) c).
  assert (entries c' !! key = Some p) as Hkey' by done.
  assert (Expiration (heap c' p) = expiration_for ttl now) as Hexp.
  { unfold c', update. cbn [heap set_heap]. unfold insert, fn_insert.
    by rewrite decide_True. }
  split.
  - intros -> now' Hnow'.
    assert (expiration_for NoExpiration now = NoExpiration) as Hfor.
    { unfold expiration_for.
      rewrite bool_decide_eq_false_2; [done|]. intros Hn. by apply Hn. }
    rewrite TTL_run; [|done|].
    + unfold TTL_answer. rewrite Hkey', Hexp, Hfor.
      by rewrite bool_decide_eq_true_2.
    + intros entry Hentry. assert (entry = p) as -> by congruence.
      by rewrite Hexp, Hfor.
  - intros Hne now' Hnow' Hmax.
    assert (expiration_for ttl now = now + ttl) as Hfor.
    { unfold expiration_for. rewrite bool_decide_eq_true_2 by done.
      apply wrap_int_id. unfold min_int, max_int in *. lia. }
    rewrite TTL_run; [|lia|].
    + unfold TTL_answer. rewrite Hkey', Hexp, Hfor.
      rewrite bool_decide_eq_false_2 by (unfold NoExpiration; lia).
      by rewrite bool_decide_eq_false_2 by lia.
    + intros entry Hentry. assert (entry = p) as -> by congruence.
      by rewrite Hexp, Hfor.
Qed.

(** X16.  Under FIFO or LRU and without a memory bound, a value that was set is
    the value that [Get] returns until the ttl has run out. *)
Theorem Set_then_Get_FIFO_LRU fuel key value ttl now now' c :
  reachable c -> evictionPolicy c <> LeastFrequentUsed ->
  maxMemoryUsage c = NoMaxMemoryUsage ->
  ttl = NoExpiration \/ (1 <= ttl /\ now' <= wrap_int (now + ttl)) ->
  exists c' c'',
    run (SetWithTTL fuel key value ttl now) c = Done (tt, c')
    /\ run (Get key now') c'
       = Done ((if forceNilInterfaceOnNilPointer c && is_typed_nil_ptr value
                then vnil else value, true), c'')
    /\ entries c'' = entries c'.
Proof.
  intros Hreach Hpol Hmm Httl.
  pose proof (reachable_recency_inv c Hreach Hpol) as Hrec.
  rewrite run_SetWithTTL.
  set (v := if forceNilInterfaceOnNilPointer c && is_typed_nil_ptr value
            then vnil else value).
  destruct (SetWithTTL_locked_stores fuel key v ttl now c Hrec Hmm)
    as (c' & p & Hrun & Hkey & _ & _ & Hv & He & _); [tauto|].
  destruct (recency_inv_SetWithTTL_locked _ _ _ _ _ _ _ Hrec Hrun)
    as (Hrec' & _).
  destruct (Get_answer_live key now' c' p Hrec' Hkey) as (c'' & Hget & Hen & _).
  { apply (Expired_expiration_for ttl now); [done|tauto]. }
  exists c', c''. split; [done|]. rewrite run_Get, Hget, Hv. done.
Qed.

(** X17.  Under FIFO or LRU and without a memory bound, [TTL] of a key that was
    set with a ttl answers what is left of it, and that the key has no
    expiration when it was set without one. *)
Theorem SetWithTTL_then_TTL_FIFO_LRU fuel key value ttl now c :
  reachable c -> evictionPolicy c <> LeastFrequentUsed ->
  maxMemoryUsage c = NoMaxMemoryUsage ->
  ttl = NoExpiration \/ 1 <= ttl ->
  exists c',
    run (SetWithTTL fuel key value ttl now) c = Done (tt, c')
    /\ (ttl = NoExpiration ->
        forall now', 0 <= now' ->
          run (TTL key now') c' = Done ((0, Some ErrKeyHasNoExpiration), c'))
    /\ (ttl <> NoExpiration ->
        forall now', 0 <= now' <= now + ttl -> now + ttl <= max_int ->
          run (TTL key now') c' = Done ((now + ttl - now', None), c')).
Proof.
  intros Hreach Hpol Hmm Httl.
  pose proof (reachable_recency_inv c Hreach Hpol) as Hrec.
  rewrite run_SetWithTTL.
  set (v := if forceNilInterfaceOnNilPointer c && is_typed_nil_ptr value
            then vnil else value).
  destruct (SetWithTTL_locked_stores fuel key v ttl now c Hrec Hmm Httl)
    as (c' & p & Hrun & Hkey' & _ & _ & _ & Hexp & _).
  exists c'. split; [done|]. split.
  - intros -> now' Hnow'.
    assert (expiration_for NoExpiration now = NoExpiration) as Hfor.
    { unfold expiration_for.
      rewrite bool_decide_eq_false_2; [done|]. intros Hn. by apply Hn. }
    rewrite TTL_run; [|done|].
    + unfold TTL_answer. rewrite Hkey', Hexp, Hfor.
      by rewrite bool_decide_eq_true_2.
    + intros entry Hentry. assert (entry = p) as -> by congruence.
      by rewrite Hexp, Hfor.
  - intros Hne now' Hnow' Hmax.
    assert (expiration_for ttl now = now + ttl) as Hfor.
    { unfold expiration_for. rewrite bool_decide_eq_true_2 by done.
      apply wrap_int_id. unfold min_int, max_int in *. lia. }
    rewrite TTL_run; [|lia|].
    + unfold TTL_answer. rewrite Hkey', Hexp, Hfor.
      rewrite bool_decide_eq_false_2 by (unfold NoExpiration; lia).
      by rewrite bool_decide_eq_false_2 by lia.
    + intros entry Hentry. assert (entry = p) as -> by congruence.
      by rewrite Hexp, Hfor.
Qed.

(** X18.  Under FIFO or LRU and without a memory bound, a new key on a cache that
    holds [maxSize] keys puts out the key of the tail of the chain and no
    other: the count stays, one eviction is counted, and the other entries
    keep their keys, values and expirations. *)
Theorem Set_on_full_cache_evicts_the_tail_FIFO_LRU fuel key value ttl now c :
  reachable c -> evictionPolicy c <> LeastFrequentUsed ->
  maxMemoryUsage c = NoMaxMemoryUsage ->
  ttl = NoExpiration \/ 1 <= ttl ->
  entries c !! key = None ->
  maxSize c <> NoMaxSize -> len_entries c = maxSize c ->
  exists c' t p,
    run (SetWithTTL fuel key value ttl now) c = Done (tt, c')
    /\ tail c = Some t /\ entries c !! Key (heap c t) = Some t
    /\ entries c' = <[key := p]> (delete (Key (heap c t)) (entries c))
    /\ len_entries c' = len_entries c
    /\ stats c' = stats (count_evicted c)
    /\ forall q, q <> p ->
         Key (heap c' q) = Key (heap c q)
         /\ Value (heap c' q) = Value (heap c q)
         /\ Expiration (heap c' q) = Expiration (heap c q).
Proof.
  intros Hreach Hpol Hmm Httl Hkey Hne Hfull.
  pose proof (reachable_recency_inv c Hreach Hpol) as Hrec.
  rewrite run_SetWithTTL.
  set (v := if forceNilInterfaceOnNilPointer c && is_typed_nil_ptr value
            then vnil else value).
  destruct (SetWithTTL_locked_stores fuel key v ttl now c Hrec Hmm Httl)
    as (c' & p & Hrun & _ & _ & _ & _ & _ & _ & Hothers & Hover & _).
  destruct (Hover Hkey Hne Hfull) as (t & Htail & Hen & Hst).
  destruct Hrec as (_ & _ & _ & l & Hinv & _).
  assert (entries c !! Key (heap c t) = Some t) as Hkt.
  { apply (chain_map _ _ Hinv). split; [|done].
    rewrite (chain_tail _ _ Hinv) in Htail.
    destruct l as [|t0 l0 _] using rev_ind; [done|].
    rewrite last_snoc in Htail. injection Htail as ->.
    rewrite elem_of_app, list_elem_of_singleton. by right. }
  exists c', t, p. split; [done|]. split; [done|]. split; [done|].
  split; [done|]. split; [|by split].
  unfold len_entries. rewrite Hen.
  rewrite map_size_insert_None
    by (rewrite lookup_delete_ne; [done|congruence]).
  pose proof (map_size_delete (Key (heap c t)) (entries c)) as Hd.
  rewrite Hkt in Hd. rewrite Hd.
  assert (size (entries c) <> 0)%nat as Hnz.
  { apply map_size_non_empty_iff. intros He. by rewrite He in Hkt. }
  lia.
Qed.

(** X19.  Under FIFO or LRU and without a memory bound, [SetWithTTL] of a key of
    the map, or on a cache with room, loses no key and counts no eviction:
    the map gains the key, and the other entries keep their keys, values
    and expirations. *)
Theorem Set_with_room_keeps_every_key_FIFO_LRU fuel key value ttl now c :
  reachable c -> evictionPolicy c <> LeastFrequentUsed ->
  maxMemoryUsage c = NoMaxMemoryUsage ->
  ttl = NoExpiration \/ 1 <= ttl ->
  is_Some (entries c !! key) \/ maxSize c = NoMaxSize
    \/ len_entries c < maxSize c ->
  exists c' p,
    run (SetWithTTL fuel key value ttl now) c = Done (tt, c')
    /\ entries c' = <[key := p]> (entries c)
    /\ (forall k, k <> key -> entries c' !! k = entries c !! k)
    /\ stats c' = stats c
    /\ forall q, q <> p ->
         Key (heap c' q) = Key (heap c q)
         /\ Value (heap c' q) = Value (heap c q)
         /\ Expiration (heap c' q) = Expiration (heap c q).
Proof.
  intros Hreach Hpol Hmm Httl Hroom.
  pose proof (reachable_recency_inv c Hreach Hpol) as Hrec.
  rewrite run_SetWithTTL.
  set (v := if forceNilInterfaceOnNilPointer c && is_typed_nil_ptr value
            then vnil else value).
  destruct (SetWithTTL_locked_stores fuel key v ttl now c Hrec Hmm Httl)
    as (c' & p & Hrun & _ & _ & _ & _ & _ & _ & Hothers & _ & Hkeep).
  destruct (Hkeep Hroom) as (Hen & Hst).
  exists c', p. split; [done|]. split; [done|].
  split; [|by split].
  intros k Hk. by rewrite Hen, lookup_insert_ne.
Qed.

(** X20.  [GetAll] returns the value of every key whose entry has not expired,
    and of no other; it deletes the expired entries, keeps the others as
    they are, and adds the number of pairs it returns to the hits. *)
Theorem GetAll_returns_the_live_entries now c found c' :
  run (GetAll now) c = Done (found, c') ->
  (forall k, found !! k
             = match entries c !! k with
               | Some p => if Expired now (heap c p) then None
                           else Some (Value (heap c p))
               | None => None
               end)
  /\ (forall k, entries c' !! k
                = match entries c !! k with
                  | Some p => if Expired now (heap c p) then None else Some p
                  | None => None
                  end)
  /\ same_contents c c'
  /\ stats c' = stats (count_hits (Z.of_nat (size found)) c).
Proof.
  rewrite run_GetAll. unfold GetAll_locked.
  destruct (GetAll_loop now (range_map (entries c)) ∅ c)
    as [[found1 c1]| |] eqn:Hloop; cbn [mbind Outcome_bind]; [|discriminate..].
  intros [= <- <-].
  destruct (GetAll_loop_spec _ _ _ _ _ _ (NoDup_fst_range_map _) Hloop)
    as (Hf & He & Hc & Hs).
  rewrite range_map_to_map in Hf, He.
  split; [|split; [|split]].
  - intros k. rewrite Hf, lookup_empty. by destruct (entries c !! k).
  - intros k. change (entries c1 !! k = match entries c !! k with
                                         | Some p => if Expired now (heap c p)
                                                     then None else Some p
                                         | None => None
                                         end).
    rewrite He. destruct (entries c !! k) as [p|] eqn:Hk; [|done].
    by destruct (Expired now (heap c p)).
  - exact Hc.
  - unfold count_hits. cbn [stats set_stats]. by rewrite Hs.
Qed.

(** X21.  Under FIFO or LRU [MemoryUsage] is the sum of the estimated sizes of
    the entries of the map, as a signed 64-bit integer, when the cache has
    a memory bound, and zero when it has none. *)
Theorem MemoryUsage_adds_up_FIFO_LRU c :
  reachable c -> evictionPolicy c <> LeastFrequentUsed ->
  run MemoryUsage c
  = Done (if bool_decide (maxMemoryUsage c <> NoMaxMemoryUsage)
          then wrap_int (sizes (heap c) (map_to_list (entries c)).*2)
          else 0, c).
Proof.
  intros Hreach Hpol.
  destruct (reachable_recency_inv c Hreach Hpol) as (_ & _ & _ & l & Hinv & _).
  unfold run, MemoryUsage, reads. cbn [fst].
  rewrite (chain_memory _ _ Hinv).
  by rewrite (sizes_perm _ _ _ (chain_inv_values c l Hinv)).
Qed.

(** X22.  Under FIFO or LRU a shift of the janitor completes; it removes entries
    that have expired and no other, at most [JanitorShiftTarget] of them,
    counts each one as an expired key, and leaves the other entries and
    counters as they are. *)
Theorem JanitorShift_removes_expired_entries_FIFO_LRU lastTraversedNode now c :
  reachable c -> evictionPolicy c <> LeastFrequentUsed ->
  exists r c' n,
    run (JanitorShift lastTraversedNode now) c = Done (r, c')
    /\ 0 <= n <= JanitorShiftTarget
    /\ len_entries c' = len_entries c - n
    /\ (forall k p, entries c' !! k = Some p -> entries c !! k = Some p)
    /\ (forall k p, entries c !! k = Some p -> entries c' !! k = None ->
          Expired now (heap c p) = true)
    /\ same_contents c c'
    /\ wrap_uint64 (ExpiredKeys (stats c'))
       = wrap_uint64 (ExpiredKeys (stats c) + n)
    /\ EvictedKeys (stats c') = EvictedKeys (stats c)
    /\ Hits (stats c') = Hits (stats c)
    /\ Misses (stats c') = Misses (stats c).
Proof.
  intros Hreach Hpol.
  destruct (reachable_recency_inv c Hreach Hpol) as (_ & _ & _ & l & Hinv & _).
  unfold JanitorShift. rewrite run_exclusive. unfold janitor_shift.
  destruct (tail c) as [t|] eqn:Htail.
  2:{ exists lastTraversedNode, c, 0.
      destruct (swept_refl now c) as (?&?&?&?&?&?&?&?&?).
      unfold JanitorShiftTarget. by repeat (split; [done|]). }
  set (current := match lastTraversedNode with
                  | Some l0 =>
                      if bool_decide (get c (Key (heap c l0)) = Some l0)
                      then l0 else t
                  | None => t
                  end).
  assert (t ∈ l) as Ht.
  { rewrite (chain_tail _ _ Hinv) in Htail.
    apply last_Some in Htail as [l' ->].
    apply elem_of_app. right. apply list_elem_of_here. }
  assert (current ∈ l) as Hcurrent.
  { unfold current. destruct lastTraversedNode as [l0|]; [|done].
    destruct (bool_decide _) eqn:Hvalid; [|done].
    apply bool_decide_eq_true in Hvalid. unfold get in Hvalid.
    by apply (chain_map _ _ Hinv) in Hvalid as [? _]. }
  destruct (janitor_walk_spec JanitorMaxIterationsPerShift 0 (Some current)
              now c l Hinv Hpol)
    as (r & c' & n & Hrun & (?&?&?&?&?&?&?&?&?) & Hn).
  { by intros p [= <-]. }
  exists r, c', n. split; [done|]. split; [unfold JanitorShiftTarget in *; lia|].
  by repeat (split; [done|]).
Qed.

(** X23.  Under FIFO or LRU, without a memory bound and with room for the keys,
    [SetAll] stores every pair of its argument without an expiration,
    evicts nothing, and leaves the other keys with their entries. *)
Theorem SetAll_stores_every_pair_FIFO_LRU fuel (kvs : gmap string V) now c :
  reachable c -> evictionPolicy c <> LeastFrequentUsed ->
  maxMemoryUsage c = NoMaxMemoryUsage ->
  maxSize c = NoMaxSize
    \/ len_entries c + Z.of_nat (size kvs) <= maxSize c ->
  exists c',
    run (SetAll fuel kvs now) c = Done (tt, c')
    /\ (forall k v, kvs !! k = Some v ->
          exists p, entries c' !! k = Some p
                    /\ Value (heap c' p)
                       = (if forceNilInterfaceOnNilPointer c
                             && is_typed_nil_ptr v then vnil else v)
                    /\ Expiration (heap c' p) = NoExpiration)
    /\ (forall k, kvs !! k = None ->
          entries c' !! k = entries c !! k
          /\ forall p, entries c !! k = Some p ->
               Value (heap c' p) = Value (heap c p)
               /\ Expiration (heap c' p) = Expiration (heap c p))
    /\ stats c' = stats c.
Proof.
  intros Hreach Hpol Hmm Hroom.
  pose proof (reachable_recency_inv c Hreach Hpol) as Hrec.
  assert (forall k, k ∈ (range_map kvs).*1 <-> is_Some (kvs !! k)) as Hdom.
  { intros k. rewrite list_elem_of_fmap. split.
    - intros ([k' v] & -> & Hkv). apply elem_of_range_map in Hkv. by eexists.
    - intros [v Hkv]. exists (k, v). split; [done|].
      by apply elem_of_range_map. }
  destruct (SetAll_loop_spec fuel (range_map kvs) now c Hrec Hmm)
    as (c' & Hrun & Hrec' & Hst & Hout & Hin & Hcont).
  { apply NoDup_fst_range_map. }
  { destruct Hroom as [?|Hroom]; [by left|]. right.
    by rewrite (range_map_perm kvs), length_map_to_list. }
  exists c'. split; [exact Hrun|]. split; [|split; [|done]].
  - intros k v Hkv. apply Hin. by apply elem_of_range_map.
  - intros k Hk.
    assert (k ∉ (range_map kvs).*1) as Hk'.
    { rewrite Hdom, Hk. by intros []. }
    split; [by apply Hout|]. intros p Hp.
    destruct (Hcont p) as (_ & ? & ?); [|done].
    intros k' Hin' Hkp. rewrite <- (Hout k Hk') in Hp.
    assert (k' = k) as -> by by eapply recency_inv_one_key. by apply Hk'.
Qed.

(** X24.  A new cache holds no key, no memory and no statistics.  Of the options
    of one kind the last one decides; a negative bound means no bound;
    without an option the size bound is [DefaultMaxSize], there is no
    memory bound, and the policy is FIFO. *)
Theorem NewCache_is_empty_and_configured (opts : list CacheOption) :
  run Count (NewCache (V:=V) opts) = Done (0, NewCache opts)
  /\ run Stats (NewCache (V:=V) opts)
     = Done (mkStatistics 0 0 0 0, NewCache opts)
  /\ run MemoryUsage (NewCache (V:=V) opts) = Done (0, NewCache opts)
  /\ run MaxSize (NewCache (V:=V) opts)
     = Done (match last (size_options opts) with
             | Some n => Z.max 0 n
             | None => DefaultMaxSize
             end, NewCache opts)
  /\ run MaxMemoryUsage (NewCache (V:=V) opts)
     = Done (match last (memory_options opts) with
             | Some n => Z.max 0 n
             | None => NoMaxMemoryUsage
             end, NewCache opts)
  /\ run EvictionPolicy_ (NewCache (V:=V) opts)
     = Done (default FirstInFirstOut (last (policy_options opts)),
             NewCache opts).
Proof.
  destruct (NewCache_empty opts) as (He & Hs & Hm).
  split; [by rewrite run_Count; unfold len_entries; rewrite He|].
  split.
  { unfold run, Stats, op_bind, RLock, RUnlock, emit, reads, op_ret.
    cbn [fst snd]. by rewrite Hs. }
  split; [unfold run, MemoryUsage, reads; cbn [fst]; by rewrite Hm|].
  unfold run, MaxSize, MaxMemoryUsage, EvictionPolicy_, config. cbn [fst].
  clear He Hs Hm.
  induction opts as [|o opts (Hms & Hmm & Hpo)] using rev_ind; [done|].
  injection Hms as Hms. injection Hmm as Hmm. injection Hpo as Hpo.
  rewrite NewCache_snoc.
  unfold size_options, memory_options, policy_options in *.
  rewrite !omap_app.
  destruct o as [n|n|policy|b];
    cbn [omap list_omap option_bind apply_option maxSize maxMemoryUsage
         evictionPolicy];
    rewrite ?app_nil_r, ?last_snoc; cbn [default];
    rewrite ?Hms, ?Hmm, ?Hpo; (split; [|split]); try done.
  all: do 2 f_equal; unfold NoMaxMemoryUsage, NoMaxSize.
  all: destruct (Z.ltb_spec n 0); lia.
Qed.

(** X25.  [Clear] empties the cache and keeps the statistics: afterwards [Count]
    and [MemoryUsage] answer zero and every [Get] is a miss. *)
Theorem Clear_empties_the_cache c :
  exists c',
    run Clear c = Done (tt, c')
    /\ stats c' = stats c
    /\ run Count c' = Done (0, c')
    /\ run MemoryUsage c' = Done (0, c')
    /\ (forall key now,
          run (Get key now) c' = Done ((vnil, false), count_miss c')).
Proof.
  exists (Clear_locked c). split; [done|]. split; [done|].
  split; [done|]. split; [done|].
  intros key now. rewrite run_Get, Get_answer_eq. unfold get.
  cbn [Clear_locked entries set_tail set_head set_memoryUsage set_entries].
  by rewrite lookup_empty.
Qed.

(** X26.  Under LRU and without a memory bound, in a cache of two keys or more, a
    key that [Get] has just read is not the one that the next [SetWithTTL]
    of another key evicts. *)
Theorem LRU_Get_protects_the_key fuel key key2 value ttl now now2 c p :
  reachable c -> evictionPolicy c = LeastRecentlyUsed ->
  maxMemoryUsage c = NoMaxMemoryUsage ->
  entries c !! key = Some p -> Expired now (heap c p) = false ->
  2 <= len_entries c -> key2 <> key ->
  ttl = NoExpiration \/ 1 <= ttl ->
  exists c1 c2,
    run (Get key now) c = Done ((Value (heap c p), true), c1)
    /\ run (SetWithTTL fuel key2 value ttl now2) c1 = Done (tt, c2)
    /\ entries c2 !! key = Some p
    /\ Value (heap c2 p) = Value (heap c p).
Proof.
  intros Hreach Hlru Hmm Hkey Hlive Hlen Hne Httl.
  assert (evictionPolicy c <> LeastFrequentUsed) as Hpol by by rewrite Hlru.
  pose proof (reachable_recency_inv c Hreach Hpol) as Hrec.
  destruct (Get_answer_live key now c p Hrec Hkey Hlive)
    as (c1 & Hget & Hen1 & Hc1 & _ & Hhead1).
  specialize (Hhead1 Hlru).
  pose proof (recency_inv_Get_answer _ _ _ _ _ Hrec Hget) as Hrec1.
  destruct (cfg_Get_answer _ _ _ _ _ Hget) as (Hpo1 & Hms1 & Hmm1).
  set (v := if forceNilInterfaceOnNilPointer c1 && is_typed_nil_ptr value
            then vnil else value).
  assert (maxMemoryUsage c1 = NoMaxMemoryUsage) as Hmm1' by congruence.
  destruct (SetWithTTL_locked_stores fuel key2 v ttl now2 c1 Hrec1 Hmm1' Httl)
    as (c2 & p2 & Hrun & Hk2 & _ & _ & _ & _ & _ & Hothers & Hover & Hkeep).
  destruct (recency_inv_SetWithTTL_locked _ _ _ _ _ _ _ Hrec1 Hrun)
    as (Hrec2 & _).
  assert (entries c1 !! key = Some p) as Hkey1 by by rewrite Hen1.
  assert (entries c2 !! key = Some p) as Hkey2.
  { pose proof Hrec1 as (_ & _ & _ & l & Hinv1 & Hbound).
    pose proof (chain_inv_size _ _ Hinv1) as Hsize.
    assert (len_entries c1 = len_entries c) as Hlen1
      by (unfold len_entries; by rewrite Hen1).
    destruct (decide (is_Some (entries c1 !! key2) \/ maxSize c1 = NoMaxSize
                      \/ len_entries c1 < maxSize c1)) as [Hroom|Hfull].
    - destruct (Hkeep Hroom) as (-> & _). by rewrite lookup_insert_ne.
    - destruct (entries c1 !! key2) as [x|] eqn:Hx;
        [exfalso; apply Hfull; left; by eexists|].
      assert (maxSize c1 <> NoMaxSize) as Hbounded by tauto.
      assert (len_entries c1 = maxSize c1) as Hexact.
      { specialize (Hbound Hbounded). unfold len_entries in *.
        rewrite Hsize in *. lia. }
      destruct (Hover eq_refl Hbounded Hexact) as (t & Htail & -> & _).
      assert (Key (heap c1 t) <> key) as Hkt.
      { intros Hkt.
        assert (t ∈ l) as Ht.
        { rewrite (chain_tail _ _ Hinv1) in Htail.
          apply last_Some in Htail as [l' ->].
          apply elem_of_app. right. apply list_elem_of_here. }
        assert (entries c1 !! key = Some t) as Hkt'
          by by apply (chain_map _ _ Hinv1).
        assert (t = p) as -> by congruence.
        apply (chain_inv_head_tail c1 l p Hinv1); [|done..].
        unfold len_entries in Hlen1, Hlen. rewrite Hsize in Hlen1. lia. }
      rewrite lookup_insert_ne by done. by rewrite lookup_delete_ne. }
  exists c1, c2. split; [by rewrite run_Get|].
  split; [by rewrite run_SetWithTTL|]. split; [done|].
  assert (p <> p2) as Hp.
  { intros ->. apply Hne. by eapply recency_inv_one_key. }
  destruct (Hothers p Hp) as (_ & -> & _). by destruct (Hc1 p) as (_ & -> & _).
Qed.

(** X27.  Under FIFO or LRU [GetByKeys] completes and answers, for every key it
    is given and for no other, the value of the key when the call is made:
    the value of its entry, or nil when the key is not in the map or its
    entry has expired. *)
Theorem GetByKeys_answers_the_values_FIFO_LRU keys now c :
  reachable c -> evictionPolicy c <> LeastFrequentUsed ->
  exists found c',
    run (GetByKeys keys now) c = Done (found, c')
    /\ forall k, found !! k = (if bool_decide (k ∈ keys)
                               then Some (value_at now c k) else None).
Proof.
  intros Hreach Hpol.
  destruct (GetByKeys_loop_values keys now ∅ c
              (reachable_recency_inv c Hreach Hpol))
    as (found & c' & Hrun & Hfound).
  exists found, c'. split; [done|]. intros k. rewrite Hfound.
  by rewrite lookup_empty.
Qed.

(** X29.  A [Get] that finds the key reads the value of the entry after it
    has released the mutex. *)
Theorem Get_reads_value_after_unlock key now value (c c' : Cache V) :
  run (Get key now) c = Done ((value, true), c') ->
  guarded (trace (Get key now) c) = false.
Proof.
  rewrite run_Get, trace_Get. unfold Get_answer.
  destruct (Get_locked key now c) as [[[entry|] c1]| |];
    cbn [mbind Outcome_bind]; [done|discriminate..].
Qed.

End FurtherProperties.


Open Scope string_scope.


(** The witness of C8: forty nanoseconds after a [SetWithTTL] of one hundred,
    sixty remain. *)
Lemma TTL_answers_witness :
  let c := after 0 [(0, CallSetWithTTL "key" "value" 100)] fifo_size_three in
  run (TTL "key" 40) c = Done ((60, None), c).
Proof.
  cbv zeta.
  assert (0 <= 40) as Hnow by (vm_compute; discriminate).
  assert (forall entry,
    entries (after 0 [(0, CallSetWithTTL "key" "value" 100)] fifo_size_three)
      !! "key" = Some entry ->
    Expiration
      (heap (after 0 [(0, CallSetWithTTL "key" "value" 100)] fifo_size_three)
         entry) <= max_int) as Hrange.
  { intros entry Hentry. vm_compute in Hentry. injection Hentry as <-.
    vm_compute. discriminate. }
  destruct (TTL_answers "key" 40 _ Hnow Hrange) as [Hrun _].
  rewrite Hrun.
  assert (TTL_answer "key" 40
            (after 0 [(0, CallSetWithTTL "key" "value" 100)] fifo_size_three)
          = (60, None)) as -> by (vm_compute; reflexivity).
  reflexivity.
Defined.


(** C1.  Under LFU with a memory bound of one byte, [Set] of a first key
    never returns, whatever fuel its eviction loop is given: the entry is not
    yet in the frequency index, [evict] finds the index empty and removes
    nothing, and the loop condition stays true. *)
Theorem Set_never_returns_over_memory_LFU (fuel : nat) (now : Z) :
  run (Set_ fuel "k" "value" now) lfu_one_byte = OutOfFuel.
Proof.
  unfold Set_. rewrite run_SetWithTTL.
  apply SetWithTTL_locked_LFU_over_memory;
    first [done | by left | by vm_compute].
Qed.

(** C2.  Under LFU with [maxSize = 1], the history [Set a; Clear; Set x;
    Get x; Set y] completes and leaves two entries in the map. *)
Theorem Count_exceeds_maxSize_after_Clear_LFU :
  let c := after 0 history_overflow lfu_size_one in
  reachable c /\ evictionPolicy c = LeastFrequentUsed /\ maxSize c = 1
  /\ run Count c = Done (2, c).
Proof.
  cbv zeta. split; [|split; [|split]].
  - apply after_reachable; [apply reachable_new|]. vm_compute. reflexivity.
  - vm_compute. reflexivity.
  - vm_compute. reflexivity.
  - rewrite run_Count.
    assert (len_entries (after 0 history_overflow lfu_size_one) = 2) as ->
      by (vm_compute; reflexivity).
    reflexivity.
Qed.

(** C3.  Under LFU without bounds, [SetWithTTL] returns before the entry
    gets a frequency element; once the entry has expired, [Get] panics in
    [delete] instead of deleting it and answering not-found. *)
Theorem Get_expired_panics_unbounded_LFU :
  let c := after 0 [(0, CallSetWithTTL "k" "v" 1)] lfu_unbounded in
  reachable c
  /\ (exists entry, entries c !! "k" = Some entry
                    /\ Expired 5 (heap c entry) = true
                    /\ frequencyParent (heap c entry) = None)
  /\ run (Get "k" 5) c = Panic.
Proof.
  cbv zeta. split; [|split].
  - apply after_reachable; [apply reachable_new|]. vm_compute. reflexivity.
  - exists 1%positive. repeat split; vm_compute; reflexivity.
  - rewrite run_Get. vm_compute. reflexivity.
Qed.

(** C4.  Under LFU without bounds, [SetWithTTL(k, v, never)] followed by
    [SetWithTTL(k, v, 0)] panics in [delete] instead of removing the key. *)
Theorem SetWithTTL_zero_panics_unbounded_LFU :
  let c := after 0 [(0, CallSetWithTTL "k" "v" NoExpiration)] lfu_unbounded in
  reachable c /\ (exists entry, entries c !! "k" = Some entry)
  /\ run (SetWithTTL 0 "k" "v" 0 1) c = Panic.
Proof.
  cbv zeta. split; [|split].
  - apply after_reachable; [apply reachable_new|]. vm_compute. reflexivity.
  - exists 1%positive. vm_compute. reflexivity.
  - rewrite run_SetWithTTL. vm_compute. reflexivity.
Qed.

(** C5.  Under LFU with a memory bound of ten bytes, the history [Set a;
    Clear; Set a] with a second value of twenty-five bytes completes with an
    empty map and a memory usage of twenty-four bytes. *)
Theorem Set_ends_empty_and_over_memory_LFU :
  let c := after 5 history_oversized lfu_ten_bytes in
  reachable c /\ evictionPolicy c = LeastFrequentUsed /\ maxMemoryUsage c = 10
  /\ memoryUsage c = 24 /\ len_entries c = 0.
Proof.
  cbv zeta. split; [|repeat split; vm_compute; reflexivity].
  apply after_reachable; [apply reachable_new|]. vm_compute. reflexivity.
Qed.

(** C6.  Under LFU with [maxSize = 1], the history [Set a; Clear; Set a;
    Get a; Set b] completes with one key in the map and two entries on the
    chain: the tail is an entry that the map no longer holds. *)
Theorem chain_outlives_map_after_Clear_LFU :
  let c := after 0 history_stale_key lfu_size_one in
  reachable c /\ evictionPolicy c = LeastFrequentUsed
  /\ size (entries c) = 1%nat
  /\ walk 3 (heap c) (head c) = [3%positive; 2%positive]
  /\ ~ chain_described c.
Proof.
  cbv zeta. split; [|split; [|split; [|split]]].
  - apply after_reachable; [apply reachable_new|]. vm_compute. reflexivity.
  - vm_compute. reflexivity.
  - vm_compute. reflexivity.
  - vm_compute. reflexivity.
  - intros (_ & _ & _ & _ & _ & Hlast & _). vm_compute in Hlast. discriminate.
Qed.

(** C7.  Under LFU without bounds, [Set] of a new key returns before the
    entry gets a frequency element: the key is mapped, its entry points to
    no element and the frequency index is empty.  With a size bound the
    same [Set] gives the entry an element of the index. *)
Theorem Set_leaves_no_bucket_unbounded_LFU :
  let c := after 0 [(0, CallSet "k" "v")] lfu_unbounded in
  let c' := after 0 [(0, CallSet "k" "v")] lfu_size_three in
  reachable c /\ evictionPolicy c = LeastFrequentUsed
  /\ entries c !! "k" = Some 1%positive
  /\ frequencyParent (heap c 1%positive) = None
  /\ freqs c = []
  /\ reachable c' /\ entries c' !! "k" = Some 1%positive
  /\ frequencyParent (heap c' 1%positive) = Some 1%positive
  /\ (freqs c').*1 = [1%positive].
Proof.
  cbv zeta. split; [|split; [|split; [|split; [|split; [|split]]]]].
  - apply after_reachable; [apply reachable_new|]. vm_compute. reflexivity.
  - vm_compute. reflexivity.
  - vm_compute. reflexivity.
  - vm_compute. reflexivity.
  - vm_compute. reflexivity.
  - apply after_reachable; [apply reachable_new|]. vm_compute. reflexivity.
  - repeat split; vm_compute; reflexivity.
Qed.

(** The witness of X1: the cache of TestCache. *)
Lemma chain_described_FIFO_LRU_witness :
  chain_described (after 0 history_lru_test lru_size_three).
Proof.
  apply chain_described_FIFO_LRU.
  - apply after_reachable; [apply reachable_new|]. vm_compute. reflexivity.
  - vm_compute. discriminate.
Defined.

(** The witness of X2: the cache of TestCache holds three keys. *)
Lemma Count_within_maxSize_FIFO_LRU_witness :
  let c := after 0 history_lru_test lru_size_three in
  run Count c = Done (3, c) /\ 3 <= maxSize c.
Proof.
  cbv zeta.
  assert (run Count (after 0 history_lru_test lru_size_three)
          = Done (3, after 0 history_lru_test lru_size_three)) as Hrun.
  { rewrite run_Count.
    assert (len_entries (after 0 history_lru_test lru_size_three) = 3) as ->
      by (vm_compute; reflexivity).
    reflexivity. }
  split; [exact Hrun|].
  apply (Count_within_maxSize_FIFO_LRU _ _ _) with (4 := Hrun).
  - apply after_reachable; [apply reachable_new|]. vm_compute. reflexivity.
  - vm_compute. discriminate.
  - vm_compute. discriminate.
Defined.

(** The witness of X3: a second key on a cache of ten bytes. *)
Lemma SetWithTTL_returns_FIFO_LRU_witness :
  let c := after 1 [(0, CallSet "a" "v")] fifo_ten_bytes in
  exists c',
    run (SetWithTTL 2 "b" "vvvvvvvvvvvv" NoExpiration 0) c = Done (tt, c')
    /\ (maxMemoryUsage c <> NoMaxMemoryUsage ->
        NoExpiration = NoExpiration \/ 1 <= NoExpiration ->
        memoryUsage c' <= maxMemoryUsage c').
Proof.
  cbv zeta. apply SetWithTTL_returns_FIFO_LRU.
  - apply after_reachable; [apply reachable_new|]. vm_compute. reflexivity.
  - vm_compute. discriminate.
  - apply Nat.ltb_lt. vm_compute. reflexivity.
Defined.

(** The witness of X4: a value larger than the bound leaves the cache
    empty. *)
Lemma Set_within_maxMemoryUsage_FIFO_LRU_witness :
  let c := after 1 [(0, CallSet "a" "v")] fifo_ten_bytes in
  exists c',
    run (SetWithTTL 2 "b" "vvvvvvvvvvvv" NoExpiration 0) c = Done (tt, c')
    /\ memoryUsage c' <= maxMemoryUsage c'.
Proof.
  cbv zeta.
  destruct (run (SetWithTTL 2 "b" "vvvvvvvvvvvv" NoExpiration 0)
              (after 1 [(0, CallSet "a" "v")] fifo_ten_bytes))
    as [[[] c']| |] eqn:Hrun;
    [|vm_compute in Hrun; discriminate|vm_compute in Hrun; discriminate].
  exists c'. split; [reflexivity|].
  apply (Set_within_maxMemoryUsage_FIFO_LRU _ _ _ _ _ _ _) with (5 := Hrun).
  - apply after_reachable; [apply reachable_new|]. vm_compute. reflexivity.
  - vm_compute. discriminate.
  - vm_compute. discriminate.
  - by left.
Defined.

(** The witness of X5: the second scenario of the claim, [Set] then
    [SetWithTTL] with a ttl of zero. *)
Lemma SetWithTTL_instant_deletes_FIFO_LRU_witness :
  let c := after 0 [(0, CallSet "k" "v")] fifo_size_three in
  exists c',
    run (SetWithTTL 0 "k" "v" 0 0) c = Done (tt, c')
    /\ entries c' = delete "k" (entries c)
    /\ stats c' = stats c
    /\ (forall q, Key (heap c' q) = Key (heap c q)
                  /\ Value (heap c' q) = Value (heap c q)
                  /\ Expiration (heap c' q) = Expiration (heap c q))
    /\ forall now', run (Get "k" now') c' = Done ((vnil, false), count_miss c').
Proof.
  cbv zeta. apply SetWithTTL_instant_deletes_FIFO_LRU.
  - apply after_reachable; [apply reachable_new|]. vm_compute. reflexivity.
  - vm_compute. discriminate.
  - vm_compute. discriminate.
  - vm_compute. reflexivity.
Defined.

(** The witness of X6: under LRU a [Get] of the oldest key moves it to the
    head. *)
Lemma Get_behaves_FIFO_LRU_witness :
  let c := after 0 [(0, CallSet "1" "one"); (0, CallSet "2" "two")]
             lru_size_three in
  exists c', run (Get "1" 0) c = Done (("one", true), c')
             /\ head c = Some 2%positive /\ head c' = Some 1%positive.
Proof.
  cbv zeta.
  set (c := after 0 [(0, CallSet "1" "one"); (0, CallSet "2" "two")]
              lru_size_three).
  assert (reachable c) as Hreach.
  { apply after_reachable; [apply reachable_new|]. vm_compute. reflexivity. }
  assert (evictionPolicy c <> LeastFrequentUsed) as Hpol
    by (vm_compute; discriminate).
  pose proof (Get_behaves_FIFO_LRU "1" 0 c Hreach Hpol) as HGet.
  assert (entries c !! "1" = Some 1%positive) as Hkey
    by (vm_compute; reflexivity).
  rewrite Hkey in HGet.
  assert (Expired 0 (heap c 1%positive) = false) as Hlive
    by (vm_compute; reflexivity).
  rewrite Hlive in HGet.
  assert (Value (heap c 1%positive) = "one") as Hvalue
    by (vm_compute; reflexivity).
  rewrite Hvalue in HGet.
  destruct HGet as (c' & Hrun & _ & _ & Hhead & _).
  exists c'. split; [exact Hrun|]. split; [vm_compute; reflexivity|].
  apply Hhead. vm_compute. reflexivity.
Defined.

(** The witness of X7: [Clear] on a cache that holds one key. *)
Lemma operations_keep_lock_discipline_witness :
  guarded (trace (call 0 0 CallClear)
             (after 0 [(0, CallSet "k" "v")] fifo_size_three)) = true.
Proof.
  exact (proj1 (operations_keep_lock_discipline 0 0 CallClear eq_refl
                  (after 0 [(0, CallSet "k" "v")] fifo_size_three))).
Defined.

(** The witness of X8: [TTL] of a key that was set. *)
Lemma TTL_reads_after_unlock_witness :
  guarded (trace (TTL "key" 40)
             (after 0 [(0, CallSetWithTTL "key" "value" 100)] fifo_size_three))
  = false.
Proof.
  apply TTL_reads_after_unlock. vm_compute. by eexists.
Defined.

(** The witness of X10: [Delete] of the one key of a cache. *)
Lemma Delete_removes_the_key_witness :
  let c := after 0 [(0, CallSet "k" "v")] fifo_size_three in
  exists ok c',
    run (Delete "k") c = Done (ok, c')
    /\ ok = bool_decide (is_Some (entries c !! "k"))
    /\ entries c' = delete "k" (entries c)
    /\ len_entries c' = len_entries c - (if ok then 1 else 0)
    /\ same_contents c c'.
Proof.
  cbv zeta.
  destruct (run (Delete "k") (after 0 [(0, CallSet "k" "v")] fifo_size_three))
    as [[ok c']| |] eqn:Hrun;
    [|vm_compute in Hrun; discriminate|vm_compute in Hrun; discriminate].
  exists ok, c'. split; [reflexivity|].
  exact (Delete_removes_the_key _ _ _ _ Hrun).
Defined.

(** The witness of X11: a key given twice and a key that is not in the
    map. *)
Lemma DeleteAll_counts_the_removed_keys_witness :
  let c := after 0 [(0, CallSet "a" "v"); (0, CallSet "b" "v")]
             fifo_size_three in
  exists n c',
    run (DeleteAll ["a"; "a"; "z"]) c = Done (n, c')
    /\ (forall k, entries c' !! k
                  = if bool_decide (k ∈ ["a"; "a"; "z"]) then None
                    else entries c !! k)
    /\ n = len_entries c - len_entries c'
    /\ same_contents c c'.
Proof.
  cbv zeta.
  destruct (run (DeleteAll ["a"; "a"; "z"])
              (after 0 [(0, CallSet "a" "v"); (0, CallSet "b" "v")]
                 fifo_size_three))
    as [[n c']| |] eqn:Hrun;
    [|vm_compute in Hrun; discriminate|vm_compute in Hrun; discriminate].
  exists n, c'. split; [reflexivity|].
  exact (DeleteAll_counts_the_removed_keys _ _ _ _ Hrun).
Defined.

(** The witness of X13: one live key and one expired key that match. *)
Lemma DeleteKeysByPattern_removes_live_matches_witness :
  let c := after 0 history_expiring fifo_size_three in
  exists n c',
    run (DeleteKeysByPattern "key*" 50) c = Done (n, c')
    /\ (forall k, entries c' !! k
                  = match entries c !! k with
                    | Some p =>
                        if negb (Expired 50 (heap c p))
                           && MatchPattern "key*" k
                        then None else Some p
                    | None => None
                    end)
    /\ n = len_entries c - len_entries c'
    /\ same_contents c c'.
Proof.
  cbv zeta.
  destruct (run (DeleteKeysByPattern "key*" 50)
              (after 0 history_expiring fifo_size_three))
    as [[n c']| |] eqn:Hrun;
    [|vm_compute in Hrun; discriminate|vm_compute in Hrun; discriminate].
  exists n, c'. split; [reflexivity|].
  exact (DeleteKeysByPattern_removes_live_matches _ _ _ _ _ Hrun).
Defined.

(** The witness of X14: a key of the map and a key that is not in it. *)
Lemma GetByKeys_answers_every_key_witness :
  let c := after 0 [(0, CallSet "k" "v")] fifo_size_three in
  exists found c',
    run (GetByKeys ["k"; "z"] 0) c = Done (found, c')
    /\ dom found = list_to_set ["k"; "z"]
    /\ forall k, k ∈ ["k"; "z"] -> entries c !! k = None ->
         found !! k = Some vnil.
Proof.
  cbv zeta.
  destruct (run (GetByKeys ["k"; "z"] 0)
              (after 0 [(0, CallSet "k" "v")] fifo_size_three))
    as [[found c']| |] eqn:Hrun;
    [|vm_compute in Hrun; discriminate|vm_compute in Hrun; discriminate].
  exists found, c'. split; [reflexivity|].
  exact (GetByKeys_answers_every_key _ _ _ _ _ Hrun).
Defined.

(** The witness of X15: [Expire] with a ttl of one hundred on a key that
    was set without one. *)
Lemma Expire_then_TTL_witness :
  let c := after 0 [(0, CallSet "k" "v")] fifo_size_three in
  exists c',
    run (Expire "k" 100 0) c = Done (true, c')
    /\ entries c' = entries c
    /\ (100 = NoExpiration ->
        forall now', 0 <= now' ->
          run (TTL "k" now') c' = Done ((0, Some ErrKeyHasNoExpiration), c'))
    /\ (100 <> NoExpiration ->
        forall now', 0 <= now' <= 0 + 100 -> 0 + 100 <= max_int ->
          run (TTL "k" now') c' = Done ((0 + 100 - now', None), c')).
Proof.
  cbv zeta. apply (Expire_then_TTL "k" 100 0 _ 1%positive).
  - vm_compute. reflexivity.
  - vm_compute. reflexivity.
Defined.

(** The witness of X16: a value set for one hundred nanoseconds, read
    after forty. *)
Lemma Set_then_Get_FIFO_LRU_witness :
  exists c' c'',
    run (SetWithTTL 0 "k" "v" 100 0) fifo_size_three = Done (tt, c')
    /\ run (Get "k" 40) c'
       = Done ((if forceNilInterfaceOnNilPointer fifo_size_three
                   && is_typed_nil_ptr "v"
                then vnil else "v", true), c'')
    /\ entries c'' = entries c'.
Proof.
  apply Set_then_Get_FIFO_LRU.
  - apply reachable_new.
  - vm_compute. discriminate.
  - vm_compute. reflexivity.
  - right. split; [lia|]. vm_compute. discriminate.
Defined.

(** The witness of X17: the first scenario of TTL on a new cache. *)
Lemma SetWithTTL_then_TTL_FIFO_LRU_witness :
  exists c',
    run (SetWithTTL 0 "k" "v" 100 0) fifo_size_three = Done (tt, c')
    /\ (100 = NoExpiration ->
        forall now', 0 <= now' ->
          run (TTL "k" now') c' = Done ((0, Some ErrKeyHasNoExpiration), c'))
    /\ (100 <> NoExpiration ->
        forall now', 0 <= now' <= 0 + 100 -> 0 + 100 <= max_int ->
          run (TTL "k" now') c' = Done ((0 + 100 - now', None), c')).
Proof.
  apply SetWithTTL_then_TTL_FIFO_LRU.
  - apply reachable_new.
  - vm_compute. discriminate.
  - vm_compute. reflexivity.
  - right. lia.
Defined.

(** The witness of X18: a fourth key on a cache of three. *)
Lemma Set_on_full_cache_evicts_the_tail_FIFO_LRU_witness :
  let c := after 0 [(0, CallSet "1" "a"); (0, CallSet "2" "b");
                    (0, CallSet "3" "c")] fifo_size_three in
  exists c' t p,
    run (SetWithTTL 0 "4" "d" NoExpiration 0) c = Done (tt, c')
    /\ tail c = Some t /\ entries c !! Key (heap c t) = Some t
    /\ entries c' = <[ "4" := p ]> (delete (Key (heap c t)) (entries c))
    /\ len_entries c' = len_entries c
    /\ stats c' = stats (count_evicted c)
    /\ forall q, q <> p ->
         Key (heap c' q) = Key (heap c q)
         /\ Value (heap c' q) = Value (heap c q)
         /\ Expiration (heap c' q) = Expiration (heap c q).
Proof.
  cbv zeta. apply Set_on_full_cache_evicts_the_tail_FIFO_LRU.
  - apply after_reachable; [apply reachable_new|]. vm_compute. reflexivity.
  - vm_compute. discriminate.
  - vm_compute. reflexivity.
  - by left.
  - vm_compute. reflexivity.
  - vm_compute. discriminate.
  - vm_compute. reflexivity.
Defined.

(** The witness of X19: a first key on a cache of three. *)
Lemma Set_with_room_keeps_every_key_FIFO_LRU_witness :
  exists c' p,
    run (SetWithTTL 0 "k" "v" NoExpiration 0) fifo_size_three = Done (tt, c')
    /\ entries c' = <[ "k" := p ]> (entries fifo_size_three)
    /\ (forall k, k <> "k" -> entries c' !! k = entries fifo_size_three !! k)
    /\ stats c' = stats fifo_size_three
    /\ forall q, q <> p ->
         Key (heap c' q) = Key (heap fifo_size_three q)
         /\ Value (heap c' q) = Value (heap fifo_size_three q)
         /\ Expiration (heap c' q) = Expiration (heap fifo_size_three q).
Proof.
  apply Set_with_room_keeps_every_key_FIFO_LRU.
  - apply reachable_new.
  - vm_compute. discriminate.
  - vm_compute. reflexivity.
  - by left.
  - right. right. vm_compute. reflexivity.
Defined.

(** The witness of X20: [GetAll] at instant 50, one live entry and one
    expired. *)
Lemma GetAll_returns_the_live_entries_witness :
  let c := after 0 history_expiring fifo_size_three in
  exists found c',
    run (GetAll 50) c = Done (found, c')
    /\ (forall k, found !! k
                  = match entries c !! k with
                    | Some p => if Expired 50 (heap c p) then None
                                else Some (Value (heap c p))
                    | None => None
                    end)
    /\ (forall k, entries c' !! k
                  = match entries c !! k with
                    | Some p => if Expired 50 (heap c p) then None else Some p
                    | None => None
                    end)
    /\ same_contents c c'
    /\ stats c' = stats (count_hits (Z.of_nat (size found)) c).
Proof.
  cbv zeta.
  destruct (run (GetAll 50) (after 0 history_expiring fifo_size_three))
    as [[found c']| |] eqn:Hrun;
    [|vm_compute in Hrun; discriminate|vm_compute in Hrun; discriminate].
  exists found, c'. split; [reflexivity|].
  exact (GetAll_returns_the_live_entries _ _ _ _ Hrun).
Defined.

(** The witness of X21: one key on a cache of ten bytes. *)
Lemma MemoryUsage_adds_up_FIFO_LRU_witness :
  let c := after 1 [(0, CallSet "a" "v")] fifo_ten_bytes in
  run MemoryUsage c
  = Done (if bool_decide (maxMemoryUsage c <> NoMaxMemoryUsage)
          then wrap_int (sizes (heap c) (map_to_list (entries c)).*2)
          else 0, c).
Proof.
  cbv zeta. apply MemoryUsage_adds_up_FIFO_LRU.
  - apply after_reachable; [apply reachable_new|]. vm_compute. reflexivity.
  - vm_compute. discriminate.
Defined.

(** The witness of X22: a shift at instant 50 over one live entry and one
    expired. *)
Lemma JanitorShift_removes_expired_entries_FIFO_LRU_witness :
  let c := after 0 history_expiring fifo_size_three in
  exists r c' n,
    run (JanitorShift None 50) c = Done (r, c')
    /\ 0 <= n <= JanitorShiftTarget
    /\ len_entries c' = len_entries c - n
    /\ (forall k p, entries c' !! k = Some p -> entries c !! k = Some p)
    /\ (forall k p, entries c !! k = Some p -> entries c' !! k = None ->
          Expired 50 (heap c p) = true)
    /\ same_contents c c'
    /\ wrap_uint64 (ExpiredKeys (stats c'))
       = wrap_uint64 (ExpiredKeys (stats c) + n)
    /\ EvictedKeys (stats c') = EvictedKeys (stats c)
    /\ Hits (stats c') = Hits (stats c)
    /\ Misses (stats c') = Misses (stats c).
Proof.
  cbv zeta. apply JanitorShift_removes_expired_entries_FIFO_LRU.
  - apply after_reachable; [apply reachable_new|]. vm_compute. reflexivity.
  - vm_compute. discriminate.
Defined.

(** The witness of X23: two pairs on a new cache of three. *)
Lemma SetAll_stores_every_pair_FIFO_LRU_witness :
  let kvs : gmap string string := <[ "a" := "1" ]> (<[ "b" := "2" ]> ∅) in
  exists c',
    run (SetAll 0 kvs 0) fifo_size_three = Done (tt, c')
    /\ (forall k v, kvs !! k = Some v ->
          exists p, entries c' !! k = Some p
                    /\ Value (heap c' p)
                       = (if forceNilInterfaceOnNilPointer fifo_size_three
                             && is_typed_nil_ptr v then vnil else v)
                    /\ Expiration (heap c' p) = NoExpiration)
    /\ (forall k, kvs !! k = None ->
          entries c' !! k = entries fifo_size_three !! k
          /\ forall p, entries fifo_size_three !! k = Some p ->
               Value (heap c' p) = Value (heap fifo_size_three p)
               /\ Expiration (heap c' p)
                  = Expiration (heap fifo_size_three p))
    /\ stats c' = stats fifo_size_three.
Proof.
  cbv zeta. apply SetAll_stores_every_pair_FIFO_LRU.
  - apply reachable_new.
  - vm_compute. discriminate.
  - vm_compute. reflexivity.
  - right. vm_compute. discriminate.
Defined.

(** The witness of X26: the oldest of three keys is read, then a fourth
    key is set. *)
Lemma LRU_Get_protects_the_key_witness :
  let c := after 0 [(0, CallSet "1" "a"); (0, CallSet "2" "b");
                    (0, CallSet "3" "c")] lru_size_three in
  exists c1 c2,
    run (Get "1" 0) c = Done ((Value (heap c 1%positive), true), c1)
    /\ run (SetWithTTL 0 "4" "d" NoExpiration 0) c1 = Done (tt, c2)
    /\ entries c2 !! "1" = Some 1%positive
    /\ Value (heap c2 1%positive) = Value (heap c 1%positive).
Proof.
  cbv zeta. apply LRU_Get_protects_the_key.
  - apply after_reachable; [apply reachable_new|]. vm_compute. reflexivity.
  - vm_compute. reflexivity.
  - vm_compute. reflexivity.
  - vm_compute. reflexivity.
  - vm_compute. reflexivity.
  - vm_compute. discriminate.
  - discriminate.
  - by left.
Defined.

(** The witness of X27: a live key, an expired key and a key that is not
    in the map, at instant 50. *)
Lemma GetByKeys_answers_the_values_FIFO_LRU_witness :
  let c := after 0 history_expiring fifo_size_three in
  exists found c',
    run (GetByKeys ["key1"; "key3"; "zzz"] 50) c = Done (found, c')
    /\ forall k, found !! k
                 = (if bool_decide (k ∈ ["key1"; "key3"; "zzz"])
                    then Some (value_at 50 c k) else None).
Proof.
  cbv zeta. apply GetByKeys_answers_the_values_FIFO_LRU.
  - apply after_reachable; [apply reachable_new|]. vm_compute. reflexivity.
  - vm_compute. discriminate.
Defined.

(** The witness of X29: [Get] of a key that was set. *)
Lemma Get_reads_value_after_unlock_witness :
  let c := after 0 [(0, CallSet "k" "v")] fifo_size_three in
  exists c',
    run (Get "k" 0) c = Done (("v", true), c')
    /\ guarded (trace (Get "k" 0) c) = false.
Proof.
  cbv zeta.
  destruct (run (Get "k" 0) (after 0 [(0, CallSet "k" "v")] fifo_size_three))
    as [[[v b] c']| |] eqn:Hrun;
    [|vm_compute in Hrun; discriminate|vm_compute in Hrun; discriminate].
  assert (match run (Get "k" 0)
                  (after 0 [(0, CallSet "k" "v")] fifo_size_three) with
          | Done ((v0, b0), _) => (v0, b0)
          | _ => ("", false)
          end = ("v", true)) as Hvb by (vm_compute; reflexivity).
  rewrite Hrun in Hvb. injection Hvb as -> ->.
  exists c'. split; [reflexivity|].
  exact (Get_reads_value_after_unlock _ _ _ _ _ Hrun).
Defined.

Close Scope string_scope.
